(** * Gator: the feed aggregation engine

    A shallow embedding of the aggregation path of the Gator RSS
    aggregator ([main.go], [internal/rss/rss.go] and the feed and post
    queries under [sql/queries]) together with the properties of the
    engine: freshness selection, the fetch worker, the store step and
    the aggregation loop.

    Layout of the development: the embedding comes first (strings and
    Go's [time.Parse], package [rss], the storage collaborator, package
    [main], the goroutine level model of the aggregation loop, test
    fixtures), the theorems follow. *)

From Stdlib Require Import ZArith List String Ascii Bool Lia.
From Stdlib Require Import Sorted Permutation.
Import ListNotations.

Local Open Scope string_scope.
Local Open Scope Z_scope.

(* ================================================================== *)
(** * Go strings as byte strings *)
(* ================================================================== *)

Module GoString.

Definition byte (c : ascii) : Z := Z.of_N (N_of_ascii c).

(** [s[n:]] *)
Fixpoint drop (n : nat) (s : string) : string :=
  match n, s with
  | O, _ => s
  | S n', String _ s' => drop n' s'
  | S _, EmptyString => EmptyString
  end.

(** [s[:n]] *)
Fixpoint take (n : nat) (s : string) : string :=
  match n, s with
  | O, _ => EmptyString
  | S n', String c s' => String c (take n' s')
  | S _, EmptyString => EmptyString
  end.

(** [len(s) >= len(p) && s[:len(p)] == p] *)
Definition hasPrefix (p s : string) : bool := String.prefix p s.

(** [s[i]], when [i < len(s)] *)
Fixpoint at_ (i : nat) (s : string) : option ascii :=
  match s, i with
  | EmptyString, _ => None
  | String c _, O => Some c
  | String _ s', S i' => at_ i' s'
  end.

Definition isDigitChar (c : ascii) : bool :=
  (48 <=? byte c) && (byte c <=? 57).

(** [isDigit(s, i)]: [i] is in range and [s[i]] is a decimal digit. *)
Definition isDigit (s : string) (i : nat) : bool :=
  match at_ i s with
  | Some c => isDigitChar c
  | None => false
  end.

Definition digitVal (c : ascii) : Z := byte c - 48.

(** The double quote character, for the driver messages that quote a
    constraint name. *)
Definition dquote : string := String (ascii_of_nat 34) EmptyString.

End GoString.

(* ================================================================== *)
(** * Package [time]: the part of [time.Parse] that [ParsePubDate] uses *)
(* ================================================================== *)

(** The model follows Go's [time/format.go]: a layout is cut into
    literal prefixes and standard elements by [nextStdChunk], and
    [parse] consumes the value element by element.  Every element that
    [nextStdChunk] recognises is tokenised; the elements that occur in
    the layouts of [ParsePubDate] are interpreted, the others make the
    model stop with [None]. *)

Module GoTime.
Import GoString.

(** An instant: seconds since the Unix epoch and nanoseconds within the
    second.  The location label of a [time.Time] is not modelled. *)
Record Time : Type := mkTime { unixSec : Z; nsec : Z }.

(** [time.Time{}]: January 1, year 1, 00:00:00 UTC. *)
Definition zeroTime : Time := mkTime (-62135596800) 0.

Definition IsZero (t : Time) : bool :=
  (unixSec t =? -62135596800) && (nsec t =? 0).

Inductive std : Type :=
| stdLongMonth | stdMonth | stdNumMonth | stdZeroMonth
| stdLongWeekDay | stdWeekDay
| stdDay | stdUnderDay | stdZeroDay
| stdUnderYearDay | stdZeroYearDay
| stdHour | stdHour12 | stdZeroHour12
| stdMinute | stdZeroMinute
| stdSecond | stdZeroSecond
| stdLongYear | stdYear
| stdPM | stdpm
| stdTZ
| stdISO8601TZ | stdISO8601SecondsTZ | stdISO8601ShortTZ
| stdISO8601ColonTZ | stdISO8601ColonSecondsTZ
| stdNumTZ | stdNumSecondsTz | stdNumShortTZ
| stdNumColonTZ | stdNumColonSecondsTZ
| stdFracSecond0 | stdFracSecond9.

Definition startsWithLowerCase (s : string) : bool :=
  match s with
  | EmptyString => false
  | String c _ => (97 <=? byte c) && (byte c <=? 122)
  end.

(** Length of the run of [ch] at the head of [s]. *)
Fixpoint runOf (ch : ascii) (s : string) : nat :=
  match s with
  | String c s' => if Ascii.eqb c ch then S (runOf ch s') else O
  | EmptyString => O
  end.

(** The [switch] of [nextStdChunk] at one position of the layout: the
    literal bytes that still belong to the prefix, the element found
    there and the rest of the layout. *)
Definition stdAt (layout : string) : option (string * std * string) :=
  match layout with
  | EmptyString => None
  | String c rest =>
    let b := byte c in
    if b =? 74 (* J *) then
      if hasPrefix "Jan" layout then
        if hasPrefix "January" layout then Some ("", stdLongMonth, drop 7 layout)
        else if negb (startsWithLowerCase (drop 3 layout))
             then Some ("", stdMonth, drop 3 layout) else None
      else None
    else if b =? 77 (* M *) then
      if hasPrefix "Mon" layout then
        if hasPrefix "Monday" layout then Some ("", stdLongWeekDay, drop 6 layout)
        else if negb (startsWithLowerCase (drop 3 layout))
             then Some ("", stdWeekDay, drop 3 layout)
             else None
      else if hasPrefix "MST" layout then Some ("", stdTZ, drop 3 layout)
      else None
    else if b =? 48 (* 0 *) then
      if hasPrefix "01" layout then Some ("", stdZeroMonth, drop 2 layout)
      else if hasPrefix "02" layout then Some ("", stdZeroDay, drop 2 layout)
      else if hasPrefix "03" layout then Some ("", stdZeroHour12, drop 2 layout)
      else if hasPrefix "04" layout then Some ("", stdZeroMinute, drop 2 layout)
      else if hasPrefix "05" layout then Some ("", stdZeroSecond, drop 2 layout)
      else if hasPrefix "06" layout then Some ("", stdYear, drop 2 layout)
      else if hasPrefix "002" layout then Some ("", stdZeroYearDay, drop 3 layout)
      else None
    else if b =? 49 (* 1 *) then
      if hasPrefix "15" layout then Some ("", stdHour, drop 2 layout)
      else Some ("", stdNumMonth, rest)
    else if b =? 50 (* 2 *) then
      if hasPrefix "2006" layout then Some ("", stdLongYear, drop 4 layout)
      else Some ("", stdDay, rest)
    else if b =? 95 (* _ *) then
      if hasPrefix "_2" layout then
        if hasPrefix "_2006" layout then Some ("_", stdLongYear, drop 5 layout)
        else Some ("", stdUnderDay, drop 2 layout)
      else if hasPrefix "__2" layout then Some ("", stdUnderYearDay, drop 3 layout)
      else None
    else if b =? 51 (* 3 *) then Some ("", stdHour12, rest)
    else if b =? 52 (* 4 *) then Some ("", stdMinute, rest)
    else if b =? 53 (* 5 *) then Some ("", stdSecond, rest)
    else if b =? 80 (* P *) then
      if hasPrefix "PM" layout then Some ("", stdPM, drop 2 layout) else None
    else if b =? 112 (* p *) then
      if hasPrefix "pm" layout then Some ("", stdpm, drop 2 layout) else None
    else if b =? 45 (* - *) then
      if hasPrefix "-070000" layout then Some ("", stdNumSecondsTz, drop 7 layout)
      else if hasPrefix "-07:00:00" layout then Some ("", stdNumColonSecondsTZ, drop 9 layout)
      else if hasPrefix "-0700" layout then Some ("", stdNumTZ, drop 5 layout)
      else if hasPrefix "-07:00" layout then Some ("", stdNumColonTZ, drop 6 layout)
      else if hasPrefix "-07" layout then Some ("", stdNumShortTZ, drop 3 layout)
      else None
    else if b =? 90 (* Z *) then
      if hasPrefix "Z070000" layout then Some ("", stdISO8601SecondsTZ, drop 7 layout)
      else if hasPrefix "Z07:00:00" layout then Some ("", stdISO8601ColonSecondsTZ, drop 9 layout)
      else if hasPrefix "Z0700" layout then Some ("", stdISO8601TZ, drop 5 layout)
      else if hasPrefix "Z07:00" layout then Some ("", stdISO8601ColonTZ, drop 6 layout)
      else if hasPrefix "Z07" layout then Some ("", stdISO8601ShortTZ, drop 3 layout)
      else None
    else if (b =? 46) || (b =? 44) (* . , *) then
      match rest with
      | String ch _ =>
        if (byte ch =? 48) || (byte ch =? 57) then
          let j := runOf ch rest in
          if negb (isDigit rest j) then
            Some ("", (if byte ch =? 57 then stdFracSecond9 else stdFracSecond0),
                  drop j rest)
          else None
        else None
      | EmptyString => None
      end
    else None
  end.

(** [nextStdChunk]: the leading literal text, the first standard
    element ([None] for Go's [0]) and the rest of the layout. *)
Fixpoint nextStdChunk (layout : string) : string * option std * string :=
  match stdAt layout with
  | Some (lit, k, suffix) => (lit, Some k, suffix)
  | None =>
    match layout with
    | EmptyString => ("", None, "")
    | String c rest =>
      let '(p, k, suffix) := nextStdChunk rest in (String c p, k, suffix)
    end
  end.

Fixpoint cutspace (s : string) : string :=
  match s with
  | String c s' => if byte c =? 32 then cutspace s' else s
  | EmptyString => s
  end.

(** [skip(value, prefix)]: a space of the layout matches a run of
    spaces of the value (or its end), any other byte matches itself. *)
Fixpoint skip (fuel : nat) (value prefix : string) : option string :=
  match prefix with
  | EmptyString => Some value
  | String pc prefix' =>
    match fuel with
    | O => None
    | S fuel' =>
      if byte pc =? 32 then
        match value with
        | String vc _ =>
          if negb (byte vc =? 32) then None
          else skip fuel' (cutspace value) (cutspace prefix)
        | EmptyString => skip fuel' (cutspace value) (cutspace prefix)
        end
      else
        match value with
        | String vc value' =>
          if Ascii.eqb vc pc then skip fuel' value' prefix' else None
        | EmptyString => None
        end
    end
  end.

(** [getnum(s, fixed)]: one or two digits, exactly two when [fixed]. *)
Definition getnum (s : string) (fixed : bool) : option (Z * string) :=
  match s with
  | String c0 s1 =>
    if isDigitChar c0 then
      match s1 with
      | String c1 s2 =>
        if isDigitChar c1
        then Some (digitVal c0 * 10 + digitVal c1, s2)
        else if fixed then None else Some (digitVal c0, s1)
      | EmptyString => if fixed then None else Some (digitVal c0, s1)
      end
    else None
  | EmptyString => None
  end.

(** [leadingInt(s)] without the overflow test: the callers below only
    compare the result with small bounds or pass at most nine digits. *)
Fixpoint leadingInt (acc : Z) (s : string) : Z * string :=
  match s with
  | String c s' =>
    if isDigitChar c then leadingInt (acc * 10 + digitVal c) s' else (acc, s)
  | EmptyString => (acc, s)
  end.

(** [atoi(s)]: an optional sign and digits only. *)
Definition atoi (s : string) : option Z :=
  let '(neg, body) :=
    match s with
    | String c s' =>
      if byte c =? 45 then (true, s')
      else if byte c =? 43 then (false, s') else (false, s)
    | EmptyString => (false, s)
    end in
  let '(q, rem) := leadingInt 0 body in
  match rem with
  | EmptyString => Some (if neg then - q else q)
  | String _ _ => None
  end.

Definition lower (c : ascii) : Z := Z.lor (byte c) 32.

(** [match(s1, s2)]: equal up to the case of letters; the strings have
    the same length at every call. *)
Fixpoint match_ (s1 s2 : string) : bool :=
  match s1, s2 with
  | String c1 r1, String c2 r2 =>
    (if Ascii.eqb c1 c2 then true
     else (lower c1 =? lower c2) && (97 <=? lower c1) && (lower c1 <=? 122))
    && match_ r1 r2
  | _, _ => true
  end.

(** [lookup(tab, val)]: index of the first name of [tab] that starts
    [val], and the rest of [val]. *)
Fixpoint lookup (tab : list string) (i : Z) (val : string) : option (Z * string) :=
  match tab with
  | [] => None
  | v :: tab' =>
    let n := String.length v in
    if (n <=? String.length val)%nat && match_ (take n val) v
    then Some (i, drop n val)
    else lookup tab' (i + 1) val
  end.

Definition shortDayNames : list string :=
  ["Sun"; "Mon"; "Tue"; "Wed"; "Thu"; "Fri"; "Sat"].

Definition shortMonthNames : list string :=
  ["Jan"; "Feb"; "Mar"; "Apr"; "May"; "Jun";
   "Jul"; "Aug"; "Sep"; "Oct"; "Nov"; "Dec"].

Definition commaOrPeriod (c : ascii) : bool := (byte c =? 46) || (byte c =? 44).

(** Number of leading digits of [s]. *)
Fixpoint digitRun (s : string) : nat :=
  match s with
  | String c s' => if isDigitChar c then S (digitRun s') else O
  | EmptyString => O
  end.

(** [parseNanoseconds(value, nbytes)]: [value[0]] is the separator;
    at most nine digits count. *)
Definition parseNanoseconds (value : string) (nbytes : nat) : option Z :=
  match value with
  | String c _ =>
    if commaOrPeriod c then
      let nb := Nat.min nbytes 10 in
      match atoi (drop 1 (take nb value)) with
      | Some ns => if ns <? 0 then None else Some (ns * 10 ^ (Z.of_nat (10 - nb)))
      | None => None
      end
    else None
  | EmptyString => None
  end.

(** [parseSignedOffset(value)]: length of a sign and an hour below 24,
    [0] when there is none. *)
Definition parseSignedOffset (value : string) : nat :=
  match value with
  | String sign body =>
    if (byte sign =? 45) || (byte sign =? 43) then
      let '(x, rem) := leadingInt 0 body in
      if (String.length rem =? String.length body)%nat then O
      else if 23 <? x then O
      else (String.length value - String.length rem)%nat
    else O
  | EmptyString => O
  end.

Definition parseGMT (value : string) : nat :=
  let v := drop 3 value in
  match v with
  | EmptyString => 3%nat
  | _ => (3 + parseSignedOffset v)%nat
  end.

Definition isUpper (c : ascii) : bool := (65 <=? byte c) && (byte c <=? 90).

(** Number of leading upper-case letters, counted up to six. *)
Fixpoint upperRun (fuel : nat) (s : string) : nat :=
  match fuel, s with
  | S fuel', String c s' => if isUpper c then S (upperRun fuel' s') else O
  | _, _ => O
  end.

(** [parseTimeZone(value)]: length of a time zone abbreviation. *)
Definition parseTimeZone (value : string) : option nat :=
  if (String.length value <? 3)%nat then None
  else if hasPrefix "ChST" value || hasPrefix "MeST" value then Some 4%nat
  else if hasPrefix "GMT" value then Some (parseGMT value)
  else if hasPrefix "+" value || hasPrefix "-" value then
    let n := parseSignedOffset value in
    if (0 <? n)%nat then Some n else None
  else
    match upperRun 6 value with
    | 5%nat => if hasPrefix "T" (drop 4 value) then Some 5%nat else None
    | 4%nat => if hasPrefix "T" (drop 3 value) || hasPrefix "WITA" value
               then Some 4%nat else None
    | 3%nat => Some 3%nat
    | _ => None
    end.

Definition isLeap (year : Z) : bool :=
  (year mod 4 =? 0) && (negb (year mod 100 =? 0) || (year mod 400 =? 0)).

Definition daysIn (month year : Z) : Z :=
  if (month =? 2) then (if isLeap year then 29 else 28)
  else if (month =? 4) || (month =? 6) || (month =? 9) || (month =? 11) then 30
  else 31.

(** Days from 1970-01-01 to the given civil date of the proleptic
    Gregorian calendar. *)
Definition daysSinceEpoch (year month day : Z) : Z :=
  let y := if month <=? 2 then year - 1 else year in
  let era := y / 400 in
  let yoe := y - era * 400 in
  let mp := (month + 9) mod 12 in
  let doy := (153 * mp + 2) / 5 + day - 1 in
  let doe := yoe * 365 + yoe / 4 - yoe / 100 + doy in
  era * 146097 + doe - 719468.

(** [Date(year, month, day, hour, min, sec, nsec, UTC)] for fields that
    are in range, which [parse] has checked when it calls it. *)
Definition Date (year month day hour min sec ns : Z) : Time :=
  mkTime (daysSinceEpoch year month day * 86400 + hour * 3600 + min * 60 + sec) ns.

Definition addSec (t : Time) (d : Z) : Time := mkTime (unixSec t + d) (nsec t).

(** The variables of [parse]: the time being constructed. *)
Record Fields : Type := mkFields {
  f_year : Z; f_month : Z; f_day : Z;
  f_hour : Z; f_min : Z; f_sec : Z; f_nsec : Z;
  f_utc : bool;            (* [z == UTC] *)
  f_zoneOffset : Z;        (* [-1] when unset *)
  f_zoneName : string
}.

Definition initFields : Fields :=
  mkFields 0 (-1) (-1) 0 0 0 0 false (-1) "".

(** The numeric zone elements [-0700] and [-07:00]: sign, hours and
    minutes, with the lenient range test of the source. *)
Definition numTZ (colon : bool) (value : string) : option (Z * string) :=
  let need := if colon then 6%nat else 5%nat in
  if (String.length value <? need)%nat then None
  else if colon && negb (hasPrefix ":" (drop 3 value)) then None
  else
    let sign := take 1 value in
    let hour := take 2 (drop 1 value) in
    let mins := take 2 (drop (if colon then 4 else 3) value) in
    match getnum hour true with
    | Some (hr, _) =>
      match getnum mins true with
      | Some (mm, _) =>
        if (24 <? hr) || (60 <? mm) then None
        else
          let off := (hr * 60 + mm) * 60 in
          if String.eqb sign "+" then Some (off, drop need value)
          else if String.eqb sign "-" then Some (- off, drop need value)
          else None
      | None => None
      end
    | None => None
    end.

(** One turn of the [switch] of [parse]: element [k] against [value],
    with [layout] the rest of the layout after the element. *)
Definition parseStd (k : std) (layout value : string) (f : Fields)
  : option (Fields * string) :=
  let num_tz colon :=
    match numTZ colon value with
    | Some (off, v) =>
      Some (mkFields (f_year f) (f_month f) (f_day f) (f_hour f) (f_min f)
              (f_sec f) (f_nsec f) (f_utc f) off (f_zoneName f), v)
    | None => None
    end in
  match k with
  | stdLongYear =>
    if (String.length value <? 4)%nat || negb (isDigit value 0) then None
    else
      match atoi (take 4 value) with
      | Some y =>
        Some (mkFields y (f_month f) (f_day f) (f_hour f) (f_min f) (f_sec f)
                (f_nsec f) (f_utc f) (f_zoneOffset f) (f_zoneName f),
              drop 4 value)
      | None => None
      end
  | stdMonth =>
    match lookup shortMonthNames 0 value with
    | Some (m, v) =>
      Some (mkFields (f_year f) (m + 1) (f_day f) (f_hour f) (f_min f) (f_sec f)
              (f_nsec f) (f_utc f) (f_zoneOffset f) (f_zoneName f), v)
    | None => None
    end
  | stdZeroMonth =>
    match getnum value true with
    | Some (m, v) =>
      if (m <=? 0) || (12 <? m) then None
      else
        Some (mkFields (f_year f) m (f_day f) (f_hour f) (f_min f) (f_sec f)
                (f_nsec f) (f_utc f) (f_zoneOffset f) (f_zoneName f), v)
    | None => None
    end
  | stdWeekDay =>
    match lookup shortDayNames 0 value with
    | Some (_, v) => Some (f, v)
    | None => None
    end
  | stdDay | stdZeroDay =>
    match getnum value (match k with stdZeroDay => true | _ => false end) with
    | Some (d, v) =>
      Some (mkFields (f_year f) (f_month f) d (f_hour f) (f_min f) (f_sec f)
              (f_nsec f) (f_utc f) (f_zoneOffset f) (f_zoneName f), v)
    | None => None
    end
  | stdHour =>
    match getnum value false with
    | Some (h, v) =>
      if (h <? 0) || (24 <=? h) then None
      else
        Some (mkFields (f_year f) (f_month f) (f_day f) h (f_min f) (f_sec f)
                (f_nsec f) (f_utc f) (f_zoneOffset f) (f_zoneName f), v)
    | None => None
    end
  | stdZeroMinute =>
    match getnum value true with
    | Some (m, v) =>
      if (m <? 0) || (60 <=? m) then None
      else
        Some (mkFields (f_year f) (f_month f) (f_day f) (f_hour f) m (f_sec f)
                (f_nsec f) (f_utc f) (f_zoneOffset f) (f_zoneName f), v)
    | None => None
    end
  | stdZeroSecond =>
    match getnum value true with
    | Some (s, v) =>
      if (s <? 0) || (60 <=? s) then None
      else
        let f' := mkFields (f_year f) (f_month f) (f_day f) (f_hour f) (f_min f) s
                    (f_nsec f) (f_utc f) (f_zoneOffset f) (f_zoneName f) in
        match v with
        | String c0 v1 =>
          if (2 <=? String.length v)%nat && commaOrPeriod c0 && isDigit v 1 then
            match snd (fst (nextStdChunk layout)) with
            | Some stdFracSecond0 | Some stdFracSecond9 => Some (f', v)
            | _ =>
              let n := S (digitRun v1) in
              match parseNanoseconds v n with
              | Some ns =>
                Some (mkFields (f_year f) (f_month f) (f_day f) (f_hour f) (f_min f) s
                        ns (f_utc f) (f_zoneOffset f) (f_zoneName f),
                      drop n v)
              | None => None
              end
            end
          else Some (f', v)
        | EmptyString => Some (f', v)
        end
    | None => None
    end
  | stdISO8601ColonTZ =>
    if hasPrefix "Z" value then
      Some (mkFields (f_year f) (f_month f) (f_day f) (f_hour f) (f_min f) (f_sec f)
              (f_nsec f) true (f_zoneOffset f) (f_zoneName f), drop 1 value)
    else num_tz true
  | stdNumTZ => num_tz false
  | stdTZ =>
    if hasPrefix "UTC" value then
      Some (mkFields (f_year f) (f_month f) (f_day f) (f_hour f) (f_min f) (f_sec f)
              (f_nsec f) true (f_zoneOffset f) (f_zoneName f), drop 3 value)
    else
      match parseTimeZone value with
      | Some n =>
        Some (mkFields (f_year f) (f_month f) (f_day f) (f_hour f) (f_min f) (f_sec f)
                (f_nsec f) (f_utc f) (f_zoneOffset f) (take n value), drop n value)
      | None => None
      end
  | _ => None
  end.

(** The [for] loop of [parse]; every turn shortens the layout, so
    [S (length layout)] turns are enough. *)
Fixpoint parseLoop (fuel : nat) (layout value : string) (f : Fields)
  : option Fields :=
  match fuel with
  | O => None
  | S fuel' =>
    let '(prefix, k, suffix) := nextStdChunk layout in
    match skip (S (String.length prefix)) value prefix with
    | None => None
    | Some value1 =>
      match k with
      | None =>
        match value1 with
        | EmptyString => Some f
        | String _ _ => None    (* extra text *)
        end
      | Some k =>
        match parseStd k suffix value1 f with
        | Some (f', value2) => parseLoop fuel' suffix value2 f'
        | None => None
        end
      end
    end
  end.

Section Local.
(** [local.lookupName(name, unix)]: the offset of the abbreviation
    [name] in the machine's local time zone, when it has one. *)
Variable lookupName : string -> Z -> option Z.

(** What [parse] does after its loop: defaults, the day-of-month
    check and the choice of the zone. *)
Definition finish (f : Fields) : option Time :=
  let month := if f_month f <? 0 then 1 else f_month f in
  let day := if f_day f <? 0 then 1 else f_day f in
  if (day <? 1) || (daysIn month (f_year f) <? day) then None
  else
    let t := Date (f_year f) month day (f_hour f) (f_min f) (f_sec f) (f_nsec f) in
    if f_utc f then Some t
    else if negb (f_zoneOffset f =? -1) then Some (addSec t (- f_zoneOffset f))
    else if negb (String.eqb (f_zoneName f) "") then
      match lookupName (f_zoneName f) (unixSec t) with
      | Some offset => Some (addSec t (- offset))
      | None => Some t
      end
    else Some t.

(** [time.Parse(layout, value)]; [None] is a non-nil error. *)
Definition Parse (layout value : string) : option Time :=
  match parseLoop (S (String.length layout)) layout value initFields with
  | Some f => finish f
  | None => None
  end.
End Local.

Definition RFC1123 : string := "Mon, 02 Jan 2006 15:04:05 MST".
Definition RFC1123Z : string := "Mon, 02 Jan 2006 15:04:05 -0700".

End GoTime.

(* ================================================================== *)
(** * Package [net/http] and [context]: what a request carries *)
(* ================================================================== *)

Module http.

(** A [context.Context] as far as a request depends on it: its
    deadline, if it has one, and whether it can be cancelled at all. *)
Record Context : Type := mkContext {
  ctx_deadline : option Z;
  ctx_cancelable : bool
}.

(** [context.Background()]: never cancelled, no deadline. *)
Definition Background : Context := mkContext None false.

Definition Header : Type := list (string * string).

(** [Header.Set(key, value)] for a key in canonical form. *)
Fixpoint Header_Set (h : Header) (key value : string) : Header :=
  match h with
  | [] => [(key, value)]
  | (k, v) :: h' =>
    if String.eqb k key then (key, value) :: h' else (k, v) :: Header_Set h' key value
  end.

Fixpoint Header_Get (h : Header) (key : string) : option string :=
  match h with
  | [] => None
  | (k, v) :: h' => if String.eqb k key then Some v else Header_Get h' key
  end.

Record Request : Type := mkRequest {
  Method : string;
  URL : string;
  Hdr : Header;
  Ctx : Context
}.

(** [http.Client]: only its [Timeout] matters here; zero means that
    the client sets no timeout. *)
Record Client : Type := mkClient { Timeout : Z }.

(** A response: the status code and what reading the body to its end
    gives, the bytes or a read error. *)
Record Response : Type := mkResponse {
  StatusCode : Z;
  Body : string + string
}.

(** One call of [client.Do]: the response or a transport error. *)
Definition RoundTrip : Type := Client -> Request -> Response + string.

(** A request is bounded in time when the client has a timeout or the
    context of the request has a deadline. *)
Definition bounded (c : Client) (r : Request) : bool :=
  (0 <? Timeout c) ||
  match ctx_deadline (Ctx r) with Some _ => true | None => false end.

End http.

(* ================================================================== *)
(** * Package [rss] ([internal/rss/rss.go]) *)
(* ================================================================== *)

Module rss.
Import GoString.

Record RSSItem : Type := mkRSSItem {
  Title : string;
  Link : string;
  Description : string;
  PubDate : string
}.

Record RSSFeed : Type := mkRSSFeed {
  Channel_Title : string;
  Channel_Link : string;
  Channel_Description : string;
  Channel_Item : list RSSItem
}.

(** The places an error of [FetchFeed] can come from. *)
Inductive FetchError : Type :=
| ErrNewRequest (msg : string)     (* [http.NewRequestWithContext] *)
| ErrDo (msg : string)             (* [client.Do]: the network *)
| ErrReadAll (msg : string)        (* [io.ReadAll] of the body *)
| ErrUnmarshal (msg : string).     (* [xml.Unmarshal]: the document *)

Definition Error (e : FetchError) : string :=
  match e with
  | ErrNewRequest m | ErrDo m | ErrReadAll m | ErrUnmarshal m => m
  end.



(** The list [formats] of [ParsePubDate], in its order. *)
Definition formats : list string :=
  [ GoTime.RFC1123Z;
    GoTime.RFC1123;
    "Mon, 2 Jan 2006 15:04:05 -0700";
    "Mon, 02 Jan 2006 15:04:05 -0700";
    "2006-01-02T15:04:05Z07:00";
    "2006-01-02T15:04:05Z";
    "2006-01-02 15:04:05" ].

Section Calls.
(** The library calls of the package, as the reader sees them. *)
Variable time_Parse : string -> string -> option GoTime.Time.
Variable NewRequest_err : string -> option string.
Variable xml_Unmarshal : string -> RSSFeed + string.
Variable html_UnescapeString : string -> string.

(** The [for _, format := range formats] loop: the first layout
    that parses decides. *)
Fixpoint tryFormats (fs : list string) (value : string) : option GoTime.Time :=
  match fs with
  | [] => None
  | format :: fs' =>
    match time_Parse format value with
    | Some t => Some t
    | None => tryFormats fs' value
    end
  end.

(** [(item *RSSItem) ParsePubDate() (time.Time, error)]; the error
    is [None] for [nil]. *)
Definition ParsePubDate (item : RSSItem) : GoTime.Time * option string :=
  if String.eqb (PubDate item) "" then (GoTime.zeroTime, None)
  else
    match tryFormats formats (PubDate item) with
    | Some t => (t, None)
    | None => (GoTime.zeroTime, None)
    end.

Definition unescapeItem (it : RSSItem) : RSSItem :=
  mkRSSItem (html_UnescapeString (Title it)) (Link it)
            (html_UnescapeString (Description it)) (PubDate it).

Definition unescapeFeed (feed : RSSFeed) : RSSFeed :=
  mkRSSFeed (html_UnescapeString (Channel_Title feed)) (Channel_Link feed)
            (html_UnescapeString (Channel_Description feed))
            (map unescapeItem (Channel_Item feed)).

(** [FetchFeed(ctx, feedURL)].  [do] is what the one call of
    [client.Do] answers; the first component of the result lists
    the calls of [client.Do] that were made. *)
Definition FetchFeed (do : http.RoundTrip) (ctx : http.Context) (feedURL : string)
  : list (http.Client * http.Request) * (RSSFeed + FetchError) :=
  match NewRequest_err feedURL with
  | Some err => ([], inr (ErrNewRequest err))
  | None =>
    let req := http.mkRequest "GET" feedURL [] ctx in
    let req := http.mkRequest (http.Method req) (http.URL req)
                 (http.Header_Set (http.Hdr req) "User-Agent" "gator")
                 (http.Ctx req) in
    let client := http.mkClient 0 in
    match do client req with
    | inr err => ([(client, req)], inr (ErrDo err))
    | inl resp =>
      match http.Body resp with
      | inr err => ([(client, req)], inr (ErrReadAll err))
      | inl body =>
        match xml_Unmarshal body with
        | inr err => ([(client, req)], inr (ErrUnmarshal err))
        | inl feed => ([(client, req)], inl (unescapeFeed feed))
        end
      end
    end
  end.
End Calls.

End rss.

(* ================================================================== *)
(** * The storage collaborator ([sql/queries], package [database]) *)
(* ================================================================== *)

Module database.
Import GoString.

Definition UUID : Type := N.

(** A [timestamp] column: microseconds since the epoch. *)
Definition Timestamp : Type := Z.

Definition toTimestamp (t : GoTime.Time) : Timestamp :=
  GoTime.unixSec t * 1000000 + GoTime.nsec t / 1000.

Record NullString : Type := mkNullString { String_ : string; NS_Valid : bool }.
Record NullTime : Type := mkNullTime { Time_ : GoTime.Time; NT_Valid : bool }.

(** A row of [feeds]: the columns named by [CreateFeed] and
    [MarkFeedFetched]. *)
Module Feed.
Record t : Type := mk {
  ID : UUID;
  CreatedAt : Timestamp;
  UpdatedAt : Timestamp;
  Name : string;
  Url : string;
  UserID : UUID;
  LastFetchedAt : option Timestamp     (* [None] is SQL [NULL] *)
}.
End Feed.

(** A row of [posts]: the columns named by [CreatePost]. *)
Module Post.
Record t : Type := mk {
  ID : UUID;
  CreatedAt : Timestamp;
  UpdatedAt : Timestamp;
  Title : string;
  Url : string;
  Description : option string;
  PublishedAt : option Timestamp;
  FeedID : UUID
}.
End Post.

Module CreatePostParams.
Record t : Type := mk {
  ID : UUID;
  CreatedAt : Timestamp;
  UpdatedAt : Timestamp;
  Title : string;
  Url : string;
  Description : NullString;
  PublishedAt : NullTime;
  FeedID : UUID
}.
End CreatePostParams.

Record Tables : Type := mkTables {
  feeds : list Feed.t;
  posts : list Post.t
}.

(** The statements on [feeds] and [posts] that the loop and its
    selectors send. *)
Inductive Query : Type :=
| QMarkFeedFetched (id : UUID)
| QGetNextFeedsToFetch (limit : Z)
| QCreatePost (arg : CreatePostParams.t)
| QGetNextFeedToFetch.

(** The message of the driver for a violation of the constraint
    [posts_url_key]. *)
Definition dupPostsUrl : string :=
  "pq: duplicate key value violates unique constraint "
    ++ dquote ++ "posts_url_key" ++ dquote.

Definition negativeLimit : string := "pq: LIMIT must not be negative".

(** [UPDATE feeds SET last_fetched_at = NOW(), updated_at = NOW()
     WHERE id = $1] *)
Definition markRow (now : Timestamp) (id : UUID) (f : Feed.t) : Feed.t :=
  if N.eqb (Feed.ID f) id
  then Feed.mk (Feed.ID f) (Feed.CreatedAt f) now (Feed.Name f) (Feed.Url f)
               (Feed.UserID f) (Some now)
  else f.

Definition sqlMarkFeedFetched (now : Timestamp) (id : UUID) (d : Tables) : Tables :=
  mkTables (map (markRow now id) (feeds d)) (posts d).

(** [ORDER BY last_fetched_at ASC NULLS FIRST] *)
Definition nullsFirst_leb (a b : option Timestamp) : bool :=
  match a, b with
  | None, _ => true
  | Some _, None => false
  | Some x, Some y => x <=? y
  end.

Definition staler (f g : Feed.t) : bool :=
  nullsFirst_leb (Feed.LastFetchedAt f) (Feed.LastFetchedAt g).

Fixpoint insertByStaleness (f : Feed.t) (l : list Feed.t) : list Feed.t :=
  match l with
  | [] => [f]
  | g :: l' => if staler f g then f :: l else g :: insertByStaleness f l'
  end.

(** Rows with equal keys keep their table order; SQL leaves the order
    of ties open, and no property below depends on it. *)
Fixpoint orderByLastFetched (l : list Feed.t) : list Feed.t :=
  match l with
  | [] => []
  | f :: l' => insertByStaleness f (orderByLastFetched l')
  end.

(** [SELECT * FROM feeds ORDER BY last_fetched_at ASC NULLS FIRST
     LIMIT $1]; the server refuses a negative limit. *)
Definition sqlGetNextFeedsToFetch (limit : Z) (d : Tables) : list Feed.t + string :=
  if limit <? 0 then inr negativeLimit
  else inl (firstn (Z.to_nat limit) (orderByLastFetched (feeds d))).

Definition toOptionString (s : NullString) : option string :=
  if NS_Valid s then Some (String_ s) else None.

Definition toOptionTime (t : NullTime) : option Timestamp :=
  if NT_Valid t then Some (toTimestamp (Time_ t)) else None.

Definition rowOf (arg : CreatePostParams.t) : Post.t :=
  Post.mk (CreatePostParams.ID arg) (CreatePostParams.CreatedAt arg)
          (CreatePostParams.UpdatedAt arg) (CreatePostParams.Title arg)
          (CreatePostParams.Url arg)
          (toOptionString (CreatePostParams.Description arg))
          (toOptionTime (CreatePostParams.PublishedAt arg))
          (CreatePostParams.FeedID arg).

Definition hasUrl (u : string) (p : Post.t) : bool := String.eqb (Post.Url p) u.

(** Modelled from the spec: the schema of [posts] (the migrations
    under [sql/schema] are not part of the sources).  The column
    [url] carries the uniqueness constraint that the driver reports
    as [posts_url_key], the name [scrapeFeed] compares with.

    [INSERT INTO posts (...) VALUES ($1, ..., $8) RETURNING *] *)
Definition sqlCreatePost (arg : CreatePostParams.t) (d : Tables)
  : (Post.t + string) * Tables :=
  if existsb (hasUrl (CreatePostParams.Url arg)) (posts d)
  then (inr dupPostsUrl, d)
  else (inl (rowOf arg), mkTables (feeds d) (posts d ++ [rowOf arg])).

End database.

(* ================================================================== *)
(** * The world the engine runs in *)
(* ================================================================== *)

(** Everything outside the program is an oracle.  The answers that can
    change from one call to the next (storage faults, clocks, fresh
    identifiers, the network) are indexed by the sequence number of the
    call; the library functions are plain functions. *)
Record Env : Type := mkEnv {
  db_fault : nat -> option string;          (* the driver fails the statement *)
  db_now : nat -> database.Timestamp;       (* [NOW()] of the statement *)
  time_Now : nat -> database.Timestamp;     (* [time.Now().UTC()] *)
  uuid_New : nat -> database.UUID;          (* [uuid.New()] *)
  client_Do : nat -> http.RoundTrip;        (* [client.Do(req)] *)
  NewRequest_err : string -> option string; (* [http.NewRequestWithContext] *)
  xml_Unmarshal : string -> rss.RSSFeed + string;
  html_UnescapeString : string -> string;
  item_PubDate : rss.RSSItem -> GoTime.Time; (* [item.PubDate] as [main.go] reads it *)
  time_ParseDuration : string -> Z + string;
  strconv_Atoi : string -> Z + string;
  go_picks : nat -> list nat                (* the Go scheduler, see [runTick] *)
}.

(** The lines the engine prints, one constructor per format string. *)
Inductive LogLine : Type :=
| ErrMarking (name err : string)       (* Error marking feed %s as fetched: %v *)
| ErrFetching (name err : string)      (* Error fetching feed %s: %v *)
| FoundPosts (n : nat) (name : string) (* Found %d posts in %s *)
| ErrCreatingPost (title err : string) (* Error creating post %s: %v *)
| ErrGettingFeeds (err : string)       (* Error getting feeds: %v *)
| NoFeedsToFetch                       (* No feeds to fetch *)
| FetchingFeeds (n : nat)              (* Fetching %d feeds concurrently *)
| CollectingFeeds (every c : Z).       (* Collecting feeds every %s with concurrency %d *)

(** What the engine does to the outside, in the order it does it. *)
Inductive Event : Type :=
| EvQuery (q : database.Query)
| EvDo (c : http.Client) (r : http.Request)
| EvPrint (l : LogLine)
| EvGo (feed : database.Feed.t)       (* [wg.Add(1); go scrapeFeed(s, feed, &wg)] *)
| EvDone (feed : database.Feed.t)     (* the deferred [wg.Done()] *)
| EvWait                              (* [wg.Wait()] has returned *)
| EvTick.                             (* [<-ticker.C] *)

Record World : Type := mkWorld {
  tables : database.Tables;
  trace : list Event;
  seq : nat
}.

(** Computations that read and change the world. *)
Definition M (A : Type) : Type := World -> A * World.

Definition ret {A : Type} (a : A) : M A := fun w => (a, w).

Definition bind {A B : Type} (c : M A) (k : A -> M B) : M B :=
  fun w => let (a, w') := c w in k a w'.

Declare Scope gator_scope.
Delimit Scope gator_scope with gator.
Notation "x <- c ;; k" := (bind c (fun x => k))
  (at level 61, c at next level, right associativity) : gator_scope.
Notation "c ;; k" := (bind c (fun _ => k))
  (at level 61, right associativity) : gator_scope.
Local Open Scope gator_scope.

Definition emit (e : Event) : M unit :=
  fun w => (tt, mkWorld (tables w) (trace w ++ [e]) (seq w)).

(** The sequence number of the next call to the outside. *)
Definition fresh : M nat :=
  fun w => (seq w, mkWorld (tables w) (trace w) (S (seq w))).

(** [for _, x := range xs { body }] *)
Fixpoint forEach {A : Type} (xs : list A) (body : A -> M unit) : M unit :=
  match xs with
  | [] => ret tt
  | x :: xs' => body x ;; forEach xs' body
  end.

Definition Printf (l : LogLine) : M unit := emit (EvPrint l).

(** Go's conversion [int32(x)] of an [int]. *)
Definition int32 (x : Z) : Z := (x + 2 ^ 31) mod 2 ^ 32 - 2 ^ 31.

(* ================================================================== *)
(** * Package [main] ([main.go]): the aggregation engine *)
(* ================================================================== *)

Module main.
Import database.

(** A goroutine of [scrapeFeed] between two of its calls to the
    outside. *)
Inductive Job : Type :=
| JMark (feed : Feed.t)                              (* started *)
| JFetch (feed : Feed.t)                             (* the feed is marked *)
| JStore (feed : Feed.t) (items : list rss.RSSItem)  (* in the loop over the items *)
| JDone (feed : Feed.t).                             (* at its [return] *)

Definition feedOf (j : Job) : Feed.t :=
  match j with
  | JMark feed | JFetch feed | JStore feed _ | JDone feed => feed
  end.

Section Engine.
Variable env : Env.

(** One statement sent through [s.db]: the driver may fail it, and a
    failed statement changes nothing. *)
Definition statement {A : Type} (q : Query)
    (run : nat -> Tables -> (A + string) * Tables) : M (A + string) :=
  n <- fresh ;;
  emit (EvQuery q) ;;
  fun w =>
    match db_fault env n with
    | Some msg => (inr msg, w)
    | None =>
      let (r, d) := run n (tables w) in (r, mkWorld d (trace w) (seq w))
    end.

(** [s.db.MarkFeedFetched(ctx, id) error] *)
Definition MarkFeedFetched (id : UUID) : M (option string) :=
  r <- statement (QMarkFeedFetched id)
         (fun n d => (inl tt, sqlMarkFeedFetched (db_now env n) id d)) ;;
  ret (match r with inl _ => None | inr err => Some err end).

(** [s.db.GetNextFeedsToFetch(ctx, limit) ([]Feed, error)] *)
Definition GetNextFeedsToFetch (limit : Z) : M (list Feed.t + string) :=
  statement (QGetNextFeedsToFetch limit)
    (fun _ d => (sqlGetNextFeedsToFetch limit d, d)).

(** [s.db.CreatePost(ctx, arg) (Post, error)] *)
Definition CreatePost (arg : CreatePostParams.t) : M (Post.t + string) :=
  statement (QCreatePost arg) (fun _ d => sqlCreatePost arg d).

Definition uuidNew : M UUID := n <- fresh ;; ret (uuid_New env n).

Definition timeNowUTC : M Timestamp := n <- fresh ;; ret (time_Now env n).

(** [rss.FetchFeed(ctx, url)] run against the network of the world. *)
Definition FetchFeed (ctx : http.Context) (feedURL : string)
  : M (rss.RSSFeed + rss.FetchError) :=
  n <- fresh ;;
  let (calls, r) :=
    rss.FetchFeed (NewRequest_err env) (xml_Unmarshal env)
      (html_UnescapeString env) (client_Do env n) ctx feedURL in
  forEach calls (fun cr => emit (EvDo (fst cr) (snd cr))) ;;
  ret r.

(** The time [scrapeFeed] reads as [item.PubDate].  [main.go] reads
    the field as a [time.Time] and calls no parser, while the [rss]
    package of the sources declares it a string: what the field holds
    when [main.go] reads it is left to the world. *)
Definition pubDate (item : rss.RSSItem) : GoTime.Time :=
  item_PubDate env item.

(** The body of the loop over [rssFeed.Channel.Item]. *)
Definition storeItem (feed : Feed.t) (item : rss.RSSItem) : M unit :=
  id <- uuidNew ;;
  createdAt <- timeNowUTC ;;
  updatedAt <- timeNowUTC ;;
  r <- CreatePost
         (CreatePostParams.mk id createdAt updatedAt
            (rss.Title item)
            (rss.Link item)
            (mkNullString (rss.Description item)
               (negb (String.eqb (rss.Description item) "")))
            (mkNullTime (pubDate item) (negb (GoTime.IsZero (pubDate item))))
            (Feed.ID feed)) ;;
  match r with
  | inr err =>
    (* Ignore duplicate URL errors *)
    if negb (String.eqb err dupPostsUrl)
    then Printf (ErrCreatingPost (rss.Title item) err)
    else ret tt
  | inl _ => ret tt
  end.

(** The store step: the loop of [scrapeFeed] over the items. *)
Definition storeItems (feed : Feed.t) (items : list rss.RSSItem) : M unit :=
  forEach items (storeItem feed).

(** The rest of [scrapeFeed] once the feed is marked: fetch the feed
    and save its posts. *)
Definition fetchAndStore (feed : Feed.t) : M unit :=
  (* Fetch the feed *)
  r <- FetchFeed http.Background (Feed.Url feed) ;;
  match r with
  | inr e => Printf (ErrFetching (Feed.Name feed) (rss.Error e))
  | inl rssFeed =>
    (* Save posts to database *)
    Printf (FoundPosts (List.length (rss.Channel_Item rssFeed)) (Feed.Name feed)) ;;
    storeItems feed (rss.Channel_Item rssFeed)
  end.

(** [scrapeFeed(s, feed, wg)] without its deferred [wg.Done()]. *)
Definition scrapeFeedBody (feed : Feed.t) : M unit :=
  (* Mark it as fetched *)
  err <- MarkFeedFetched (Feed.ID feed) ;;
  match err with
  | Some e => Printf (ErrMarking (Feed.Name feed) e)
  | None => fetchAndStore feed
  end.

(** [scrapeFeed(s, feed, wg)]; it returns nothing. *)
Definition scrapeFeed (feed : Feed.t) : M unit :=
  scrapeFeedBody feed ;; emit (EvDone feed).

(** One step of the goroutine [j]: its next statement or request with
    what the goroutine does on its own around it (the reads of
    [uuid.New()] and [time.Now()] before an insert, the line it prints
    about the outcome), and where it is then; [None] when it has
    returned.  The statements and requests of different goroutines
    interleave step by step. *)
Definition jobStep (j : Job) : M (option Job) :=
  match j with
  | JMark feed =>
    (* Mark it as fetched *)
    err <- MarkFeedFetched (Feed.ID feed) ;;
    match err with
    | Some e => Printf (ErrMarking (Feed.Name feed) e) ;; ret (Some (JDone feed))
    | None => ret (Some (JFetch feed))
    end
  | JFetch feed =>
    (* Fetch the feed *)
    r <- FetchFeed http.Background (Feed.Url feed) ;;
    match r with
    | inr e =>
      Printf (ErrFetching (Feed.Name feed) (rss.Error e)) ;; ret (Some (JDone feed))
    | inl rssFeed =>
      Printf (FoundPosts (List.length (rss.Channel_Item rssFeed)) (Feed.Name feed)) ;;
      ret (Some (JStore feed (rss.Channel_Item rssFeed)))
    end
  | JStore feed (item :: rest) =>
    storeItem feed item ;; ret (Some (JStore feed rest))
  | JStore feed [] => emit (EvDone feed) ;; ret None
  | JDone feed => emit (EvDone feed) ;; ret None
  end.

(** The goroutine [j] from where it is to its return, without another
    goroutine in between. *)
Definition finish (j : Job) : M unit :=
  match j with
  | JMark feed => scrapeFeed feed
  | JFetch feed => fetchAndStore feed ;; emit (EvDone feed)
  | JStore feed items => storeItems feed items ;; emit (EvDone feed)
  | JDone feed => emit (EvDone feed)
  end.

(** One step of the goroutine number [i] of those started and not yet
    returned, if there is one. *)
Fixpoint stepAt (i : nat) (jobs : list Job) {struct jobs} : M (list Job) :=
  match jobs, i with
  | [], _ => ret []
  | j :: rest, O =>
    o <- jobStep j ;;
    ret (match o with Some j' => j' :: rest | None => rest end)
  | j :: rest, S i' => rest' <- stepAt i' rest ;; ret (j :: rest')
  end.

(** [wg.Add(1); go scrapeFeed(s, feed, &wg)]: the goroutine of [feed]
    joins those started, with its first call still to make. *)
Definition goStart (feed : Feed.t) (jobs : list Job) : M (list Job) :=
  emit (EvGo feed) ;; ret (jobs ++ [JMark feed])%list.

(** The rest of the loop [for _, feed := range feeds], run without a
    goroutine in between. *)
Fixpoint startAll (todo : list Feed.t) (jobs : list Job) : M (list Job) :=
  match todo with
  | [] => ret jobs
  | feed :: todo' => jobs' <- goStart feed jobs ;; startAll todo' jobs'
  end.

(** [for _, feed := range feeds { wg.Add(1); go scrapeFeed(s, feed, &wg) }]
    with the goroutines it starts, up to the return of [wg.Wait()].
    [todo] are the feeds the loop has not reached, [jobs] the
    goroutines started and not yet returned.  The Go scheduler is the
    list [picks]: pick [0] lets the loop start its next goroutine,
    pick [i + 1] lets goroutine [i] make its next call to the outside;
    a pick that names nothing is skipped.  When the picks are used up
    the loop starts the goroutines left, and all run to their return
    one after another. *)
Fixpoint runTick (picks : list nat) (todo : list Feed.t) (jobs : list Job) : M unit :=
  match picks with
  | [] => jobs' <- startAll todo jobs ;; forEach jobs' finish
  | O :: picks' =>
    match todo with
    | feed :: todo' => jobs' <- goStart feed jobs ;; runTick picks' todo' jobs'
    | [] => runTick picks' [] jobs
    end
  | S i :: picks' => jobs' <- stepAt i jobs ;; runTick picks' todo jobs'
  end.

(** The picks of the Go scheduler for the tick that begins now. *)
Definition goSchedule : M (list nat) := fun w => (go_picks env (seq w), w).

(** [scrapeFeeds(s, concurrency)] *)
Definition scrapeFeeds (concurrency : Z) : M unit :=
  r <- GetNextFeedsToFetch (int32 concurrency) ;;
  match r with
  | inr err => Printf (ErrGettingFeeds err)
  | inl feeds =>
    if (List.length feeds =? 0)%nat then Printf NoFeedsToFetch
    else
      Printf (FetchingFeeds (List.length feeds)) ;;
      picks <- goSchedule ;;
      runTick picks feeds [] ;;
      emit EvWait
  end.

(** [for ; ; <-ticker.C { scrapeFeeds(s, concurrency) }], cut after
    [ticks] turns: the loop itself has no exit. *)
Fixpoint aggLoop (ticks : nat) (concurrency : Z) : M unit :=
  match ticks with
  | O => ret tt
  | S ticks' =>
    scrapeFeeds concurrency ;; emit EvTick ;; aggLoop ticks' concurrency
  end.

Inductive AggResult : Type :=
| AggError (msg : string)     (* returned before the loop *)
| AggPanic                    (* [time.NewTicker] of a non-positive duration *)
| AggLooping.                 (* still in the loop after [ticks] turns *)

(** The concurrency [handlerAgg] settles on: the default, or the
    second argument when it is a positive number. *)
Definition aggConcurrency (args : list string) : Z + string :=
  match args with
  | _ :: a1 :: _ =>
    match strconv_Atoi env a1 with
    | inl c => if 0 <? c then inl c
               else inr ("invalid concurrency value: " ++ a1)
    | inr _ => inr ("invalid concurrency value: " ++ a1)
    end
  | _ => inl 5
  end.

(** [handlerAgg(s, cmd)], its loop cut after [ticks] turns. *)
Definition handlerAgg (args : list string) (ticks : nat) : M AggResult :=
  match args with
  | [] => ret (AggError "time_between_reqs is required")
  | a0 :: _ =>
    match time_ParseDuration env a0 with
    | inr err => ret (AggError ("invalid duration: " ++ err))
    | inl timeBetweenRequests =>
      match aggConcurrency args with
      | inr err => ret (AggError err)
      | inl concurrency =>
        Printf (CollectingFeeds timeBetweenRequests concurrency) ;;
        if timeBetweenRequests <=? 0 then ret AggPanic
        else aggLoop ticks concurrency ;; ret AggLooping
      end
    end
  end.

End Engine.

(** The feeds a run of [scrapeFeeds] started workers for. *)
Fixpoint dispatched (tr : list Event) : list Feed.t :=
  match tr with
  | [] => []
  | EvGo feed :: tr' => feed :: dispatched tr'
  | _ :: tr' => dispatched tr'
  end.

Fixpoint queries (tr : list Event) : list Query :=
  match tr with
  | [] => []
  | EvQuery q :: tr' => q :: queries tr'
  | _ :: tr' => queries tr'
  end.

Fixpoint requests (tr : list Event) : list (http.Client * http.Request) :=
  match tr with
  | [] => []
  | EvDo c r :: tr' => (c, r) :: requests tr'
  | _ :: tr' => requests tr'
  end.

Fixpoint printed (tr : list Event) : list LogLine :=
  match tr with
  | [] => []
  | EvPrint l :: tr' => l :: printed tr'
  | _ :: tr' => printed tr'
  end.

(** The feeds whose workers have returned. *)
Fixpoint returned (tr : list Event) : list Feed.t :=
  match tr with
  | [] => []
  | EvDone feed :: tr' => feed :: returned tr'
  | _ :: tr' => returned tr'
  end.

End main.

(* ================================================================== *)
(** * The aggregation loop at the level of goroutines *)
(* ================================================================== *)

(** [handlerAgg] and [scrapeFeeds] start goroutines, wait for them on a
    [sync.WaitGroup] and then receive from the channel of a
    [time.Ticker].  This module gives the transition system of that
    code: the main goroutine with its program counter, the workers in
    flight, the counter of the wait group, the wall clock and the
    ticker.  What a worker does inside is in [main.scrapeFeed]; here a
    worker only runs and returns.

    The ticker is Go's: it fires every [d] after its creation, its
    channel holds one tick, and a tick that finds the channel full is
    dropped. *)

Module Sched.
Import database.

(** Where the main goroutine is. *)
Inductive PC : Type :=
| Selecting                       (* [s.db.GetNextFeedsToFetch] *)
| Spawning (rest : list UUID)     (* in [for _, feed := range feeds] *)
| Waiting                         (* in [wg.Wait()] *)
| Receiving.                      (* in [<-ticker.C] *)

Record State : Type := mk {
  now : Z;                        (* the wall clock *)
  pc : PC;
  turn : nat;                     (* turns of the loop begun so far *)
  began : Z;                      (* when the current turn began *)
  returned : Z;                   (* when [scrapeFeeds] last returned *)
  wg : nat;                       (* the counter of the wait group *)
  inflight : list (nat * UUID);   (* workers running: turn and feed *)
  fired : nat;                    (* times the ticker has fired *)
  buffered : bool                 (* [ticker.C] holds a tick *)
}.

Inductive Action : Type :=
| Pass (dt : Z)                   (* time passes *)
| Fire                            (* the ticker fires *)
| Select (feeds : list UUID)      (* the selector answers *)
| Go                              (* [wg.Add(1); go scrapeFeed(...)] *)
| EndRange                        (* the [range] loop is over *)
| Done (k : nat) (feed : UUID)    (* a worker returns: [wg.Done()] *)
| Join                            (* [wg.Wait()] returns *)
| Recv.                           (* [<-ticker.C] returns *)

Definition worker_eqb (a b : nat * UUID) : bool :=
  Nat.eqb (fst a) (fst b) && N.eqb (snd a) (snd b).

Fixpoint removeWorker (x : nat * UUID) (l : list (nat * UUID)) : list (nat * UUID) :=
  match l with
  | [] => []
  | y :: l' => if worker_eqb x y then l' else y :: removeWorker x l'
  end.

Section Ticker.
Variable t0 : Z.                (* when [time.NewTicker] was called *)
Variable d : Z.                 (* [timeBetweenRequests] *)
Variable C : nat.               (* [concurrency] *)

Definition nextFire (s : State) : Z := t0 + d * (Z.of_nat (fired s) + 1).

(** The loop runs its body first: the first turn begins at once. *)
Definition init : State := mk t0 Selecting 1 t0 t0 0 [] 0 false.

Definition step (a : Action) (s : State) : option State :=
  match a with
  | Pass dt =>
    if (0 <=? dt) && (now s + dt <=? nextFire s)
    then Some (mk (now s + dt) (pc s) (turn s) (began s) (returned s) (wg s)
                  (inflight s) (fired s) (buffered s))
    else None
  | Fire =>
    if now s =? nextFire s
    then Some (mk (now s) (pc s) (turn s) (began s) (returned s) (wg s)
                  (inflight s) (S (fired s)) true)
    else None
  | Select feeds =>
    match pc s with
    | Selecting =>
      if (List.length feeds <=? C)%nat then
        match feeds with
        | [] => Some (mk (now s) Receiving (turn s) (began s) (now s) (wg s)
                         (inflight s) (fired s) (buffered s))
        | _ => Some (mk (now s) (Spawning feeds) (turn s) (began s) (returned s)
                        (wg s) (inflight s) (fired s) (buffered s))
        end
      else None
    | _ => None
    end
  | Go =>
    match pc s with
    | Spawning (feed :: rest) =>
      Some (mk (now s) (Spawning rest) (turn s) (began s) (returned s) (S (wg s))
               (inflight s ++ [(turn s, feed)]) (fired s) (buffered s))
    | _ => None
    end
  | EndRange =>
    match pc s with
    | Spawning [] =>
      Some (mk (now s) Waiting (turn s) (began s) (returned s) (wg s)
               (inflight s) (fired s) (buffered s))
    | _ => None
    end
  | Done k feed =>
    if existsb (worker_eqb (k, feed)) (inflight s)
    then Some (mk (now s) (pc s) (turn s) (began s) (returned s) (Nat.pred (wg s))
                  (removeWorker (k, feed) (inflight s)) (fired s) (buffered s))
    else None
  | Join =>
    match pc s, wg s with
    | Waiting, O =>
      Some (mk (now s) Receiving (turn s) (began s) (now s) (wg s)
               (inflight s) (fired s) (buffered s))
    | _, _ => None
    end
  | Recv =>
    match pc s with
    | Receiving =>
      if buffered s
      then Some (mk (now s) Selecting (S (turn s)) (now s) (returned s) (wg s)
                    (inflight s) (fired s) false)
      else None
    | _ => None
    end
  end.

Fixpoint run (acts : list Action) (s : State) : option State :=
  match acts with
  | [] => Some s
  | a :: acts' =>
    match step a s with
    | Some s' => run acts' s'
    | None => None
    end
  end.

Definition reachable (s : State) : Prop :=
  exists acts, run acts init = Some s.

(** The feeds still to be started in the current turn. *)
Definition pending (s : State) : list UUID :=
  match pc s with
  | Spawning rest => rest
  | _ => []
  end.

End Ticker.

End Sched.

(* ================================================================== *)
(** * Fixtures *)
(* ================================================================== *)

Module Fixtures.
Import database.

(** Three feeds as the selection scenario has them, two hours after
    the epoch: [A] never fetched, [B] fetched an hour ago, [C] five
    minutes ago. *)
Definition feedA : Feed.t := Feed.mk 1%N 10 10 "A" "http://a.example/rss" 100%N None.
Definition feedB : Feed.t :=
  Feed.mk 2%N 20 3600000000 "B" "http://b.example/rss" 100%N (Some 3600000000).
Definition feedC : Feed.t :=
  Feed.mk 3%N 30 6900000000 "C" "http://c.example/rss" 100%N (Some 6900000000).

Definition item (n : string) : rss.RSSItem :=
  rss.mkRSSItem ("post " ++ n) ("http://a.example/" ++ n) ""
                "Mon, 02 Jan 2006 15:04:05 -0700".

Definition feed3 : rss.RSSFeed :=
  rss.mkRSSFeed "A" "http://a.example" "" [item "1"; item "2"; item "3"].

Definition postOf (id : UUID) (it : rss.RSSItem) : Post.t :=
  Post.mk id 0 0 (rss.Title it) (rss.Link it) None None 1%N.

(** A quiet world: storage never fails, every URL is accepted, the
    network answers every request with status 200 and a body that
    decodes to [feed3]; [main.go] reads as the date of an item what
    [ParsePubDate] makes of its string, and the goroutines of a tick
    run one after another in the order they were started. *)
Definition env0 : Env :=
  mkEnv (fun _ => None)
        (fun n => 7200000000 + Z.of_nat n)
        (fun n => 7200000000 + Z.of_nat n)
        (fun n => (1000 + N.of_nat n)%N)
        (fun _ _ _ => inl (http.mkResponse 200 (inl "<rss>3 items</rss>")))
        (fun _ => None)
        (fun body => if String.eqb body "<rss>3 items</rss>" then inl feed3
                     else inr "EOF")
        (fun s => s)
        (fun it => fst (rss.ParsePubDate (GoTime.Parse (fun _ _ => None)) it))
        (fun s => if String.eqb s "30s" then inl 30000000000
                  else inr "time: invalid duration")
        (fun s => if String.eqb s "3" then inl 3
                  else inr "strconv.Atoi: parsing: invalid syntax")
        (fun _ => []).

Definition tables0 : Tables := mkTables [feedC; feedA; feedB] [].

Definition w0 : World := mkWorld tables0 [] 0.

(** The network answering 404 with the body of [feed3], and answering
    500 with a page that is no XML document. *)
Definition do404 : http.RoundTrip :=
  fun _ _ => inl (http.mkResponse 404 (inl "<rss>3 items</rss>")).


(** The quiet world with the network down. *)
Definition envDown : Env :=
  mkEnv (db_fault env0) (db_now env0) (time_Now env0) (uuid_New env0)
        (fun _ _ _ => inr "dial tcp: connection refused")
        (NewRequest_err env0) (xml_Unmarshal env0) (html_UnescapeString env0)
        (item_PubDate env0) (time_ParseDuration env0) (strconv_Atoi env0)
        (go_picks env0).

(** The quiet world with storage failing its first statement. *)
Definition envFault : Env :=
  mkEnv (fun n => match n with O => Some "pq: connection reset" | _ => None end)
        (db_now env0) (time_Now env0) (uuid_New env0)
        (client_Do env0)
        (NewRequest_err env0) (xml_Unmarshal env0) (html_UnescapeString env0)
        (item_PubDate env0) (time_ParseDuration env0) (strconv_Atoi env0)
        (go_picks env0).

(** The quiet world with a scheduler that starts both goroutines of a
    tick of two, then lets the second run to its return before the
    first makes a call. *)
Definition envRace : Env :=
  mkEnv (db_fault env0) (db_now env0) (time_Now env0) (uuid_New env0)
        (client_Do env0)
        (NewRequest_err env0) (xml_Unmarshal env0) (html_UnescapeString env0)
        (item_PubDate env0) (time_ParseDuration env0) (strconv_Atoi env0)
        (fun _ => [0; 0; 2; 2; 2; 2; 2; 2; 1]%nat).

(** A fourth feed, never fetched like [A], and a table in which the two
    tie for the stalest. *)
Definition feedD : Feed.t := Feed.mk 4%N 40 40 "D" "http://d.example/rss" 100%N None.

Definition wTie : World := mkWorld (mkTables [feedA; feedB; feedD] []) [] 0.

(** A description of 160 bytes. *)
Definition longText : string :=
  "0123456789abcdefghijklmnopqrstuvwxyz0123" ++
  "4567890123456789abcdefghijklmnopqrstuvwx" ++
  "yz012345678901234567890123456789abcdefgh" ++
  "ijklmnopqrstuvwxyz0123456789ABCDEFGHIJKL".

(** Two feeds: [A] never fetched, [B] fetched an hour ago. *)
Definition wAB : World := mkWorld (mkTables [feedA; feedB] []) [] 0.

(** Storage that already holds the post of the second item. *)
Definition w1 : World :=
  mkWorld (mkTables [feedC; feedA; feedB] [postOf 7%N (item "2")]) [] 0.

End Fixtures.

(* ================================================================== *)
(** * Vocabulary of the properties *)
(* ================================================================== *)

Module Spec.
Import database.

(** Ordered by last-fetched ascending, never-fetched feeds first. *)
Definition ascNullsFirst (l : list Feed.t) : Prop :=
  StronglySorted (fun f g => staler f g = true) l.

(** The number of stored posts with canonical URL [u]. *)
Definition countUrl (u : string) (ps : list Post.t) : nat :=
  List.length (filter (hasUrl u) ps).

(** No two posts share a canonical URL. *)
Definition urlsUnique (ps : list Post.t) : Prop :=
  forall u, (countUrl u ps <= 1)%nat.

(** The feed identities are a key of [feeds]. *)
Definition idsUnique (fs : list Feed.t) : Prop := NoDup (map Feed.ID fs).

(** Storage only gains posts, and keeps their URLs unique if they were. *)
Definition postsGrow (d d' : Tables) : Prop :=
  (urlsUnique (posts d) -> urlsUnique (posts d')) /\
  (forall u, (countUrl u (posts d) <= countUrl u (posts d'))%nat).

(** What feed creation sets and the worker must leave alone. *)
Definition frameOf (f : Feed.t) : UUID * string * string * UUID * Timestamp :=
  (Feed.ID f, Feed.Url f, Feed.Name f, Feed.UserID f, Feed.CreatedAt f).

Definition sameFrame (d d' : Tables) : Prop :=
  map frameOf (feeds d') = map frameOf (feeds d).

(** [g] was fetched strictly less recently than [f]. *)
Definition strictlyStaler (f g : Feed.t) : bool := negb (staler f g).

(** How many feeds of [l] were fetched strictly less recently than [f]. *)
Definition stalerCount (f : Feed.t) (l : list Feed.t) : nat :=
  List.length (filter (strictlyStaler f) l).

(** [f] is the least recently fetched feed of [l]: none is staler. *)
Definition leastRecentlyFetched (l : list Feed.t) (f : Feed.t) : Prop :=
  forall g, In g l -> staler f g = true.

Definition sameFeeds (d d' : Tables) : Prop := feeds d' = feeds d.

(** The canonical URLs of the inserts among the statements [qs]. *)
Definition insertedUrls (qs : list Query) : list string :=
  flat_map (fun q => match q with QCreatePost a => [CreatePostParams.Url a] | _ => [] end) qs.

(** The lines the store step owes for [items] when its first call has
    sequence number [n]: one for each item whose insert the driver
    failed with a message other than the uniqueness violation. *)
Fixpoint otherErrors (env : Env) (items : list rss.RSSItem) (n : nat) : list LogLine :=
  match items with
  | [] => []
  | item :: rest =>
    (match db_fault env (3 + n) with
     | Some msg =>
       if negb (String.eqb msg dupPostsUrl)
       then [ErrCreatingPost (rss.Title item) msg] else []
     | None => []
     end ++ otherErrors env rest (4 + n))%list
  end.

End Spec.

(** The arguments [scrapeFeed] builds for the insert of [item] when the
    next call has sequence number [n]. *)
Definition paramsAt (env : Env) (feed : database.Feed.t) (item : rss.RSSItem) (n : nat)
  : database.CreatePostParams.t :=
  database.CreatePostParams.mk
    (uuid_New env n) (time_Now env (S n)) (time_Now env (S (S n)))
    (rss.Title item) (rss.Link item)
    (database.mkNullString (rss.Description item)
       (negb (String.eqb (rss.Description item) "")))
    (database.mkNullTime (main.pubDate env item)
       (negb (GoTime.IsZero (main.pubDate env item))))
    (database.Feed.ID feed).

(** What [rss.FetchFeed] answers the worker of a feed with URL [url]
    when its fetch is call [n]. *)
Definition fetchOutcome (env : Env) (n : nat) (url : string)
  : rss.RSSFeed + rss.FetchError :=
  snd (rss.FetchFeed (NewRequest_err env) (xml_Unmarshal env)
         (html_UnescapeString env) (client_Do env n) http.Background url).

Definition fetchCalls (env : Env) (n : nat) (url : string)
  : list (http.Client * http.Request) :=
  fst (rss.FetchFeed (NewRequest_err env) (xml_Unmarshal env)
         (html_UnescapeString env) (client_Do env n) http.Background url).


(** The request [FetchFeed] builds for [feedURL] under [ctx]. *)
Definition feedRequest (ctx : http.Context) (feedURL : string) : http.Request :=
  http.mkRequest "GET" feedURL [("User-Agent", "gator")] ctx.

(** What holds in every state of the aggregation loop with ticker
    period [d] created at [t0] and concurrency [C]. *)
Definition loopInv (t0 d : Z) (C : nat) (s : Sched.State) : Prop :=
  (* the wait group counts the workers in flight *)
  Sched.wg s = List.length (Sched.inflight s) /\
  (* every worker in flight belongs to the current turn *)
  Forall (fun x => fst x = Sched.turn s) (Sched.inflight s) /\
  (* started and still to start, a turn has at most [C] workers *)
  (List.length (Sched.inflight s) + List.length (Sched.pending s) <= C)%nat /\
  (* no worker is in flight when a turn is selected or awaited *)
  match Sched.pc s with
  | Sched.Selecting | Sched.Receiving => Sched.inflight s = []
  | _ => True
  end /\
  (* the ticker fires on the grid [t0 + k * d] *)
  (t0 + d * Z.of_nat (Sched.fired s) <= Sched.now s
   <= t0 + d * (Z.of_nat (Sched.fired s) + 1)) /\
  (* one turn at the start, then at most one per firing *)
  (Sched.turn s + (if Sched.buffered s then 1 else 0) <= Sched.fired s + 1)%nat /\
  (* turn [k] begins no earlier than [k - 1] periods after [t0] *)
  (t0 + d * (Z.of_nat (Sched.turn s) - 1) <= Sched.began s <= Sched.now s) /\
  (* a turn begins when the one before has returned *)
  Sched.returned s <= Sched.now s /\
  match Sched.pc s with
  | Sched.Receiving => Sched.began s <= Sched.returned s
  | _ => Sched.returned s <= Sched.began s
  end.

(** A schedule in which the first turn overruns a period of 10: its
    one worker returns at time 12, after the ticker fired at 10. *)
Definition overrun : list Sched.Action :=
  [Sched.Select [1%N]; Sched.Go; Sched.EndRange;
   Sched.Pass 10; Sched.Fire; Sched.Pass 2;
   Sched.Done 1 1%N; Sched.Join; Sched.Recv].

(** The state that [overrun] ends in, for a ticker created at 0: the
    second turn begins at 12, when the first has just returned. *)
Definition overrunEnd : Sched.State :=
  Sched.mk 12 Sched.Selecting 2 12 12 0 [] 1 false.

(** The feeds the tick run in world [w] starts workers for. *)
Definition newlyDispatched (env : Env) (C : Z) (w : World) : list database.Feed.t :=
  skipn (List.length (main.dispatched (trace w)))
        (main.dispatched (trace (snd (main.scrapeFeeds env C w)))).

(** A relation between the tables before and after a computation. *)
Definition preserves {A : Type} (R : database.Tables -> database.Tables -> Prop)
    (c : M A) : Prop :=
  forall w, R (tables w) (tables (snd (c w))).

(** What a computation adds to the trace, and what it may add. *)
Definition appends {A : Type} (P : Event -> Prop) (c : M A) : Prop :=
  forall w, exists evs, trace (snd (c w)) = (trace w ++ evs)%list /\ Forall P evs.

Definition notDo (e : Event) : Prop :=
  match e with EvDo _ _ => False | _ => True end.

(* ================================================================== *)
(** * The other statements of [sql/queries] *)
(* ================================================================== *)

Module queries.
Import database.

(** [sql.ErrNoRows], what a [:one] query gives for an empty result. *)
Definition errNoRows : string := "sql: no rows in result set".

(** What [ORDER BY last_fetched_at ASC NULLS FIRST] asks of the order
    [ord] in which the database hands over the rows: the same rows,
    ascending by the key; rows with equal keys come as the database
    likes. *)
Definition ordersByLastFetched (ord : list Feed.t -> list Feed.t) : Prop :=
  forall l, Permutation (ord l) l /\ Spec.ascNullsFirst (ord l).

(** [SELECT * FROM feeds ORDER BY last_fetched_at ASC NULLS FIRST
     LIMIT 1], a [:one] query: the first row in the order [ord] of the
    database, or [sql.ErrNoRows]. *)
Definition sqlGetNextFeedToFetch (ord : list Feed.t -> list Feed.t) (d : Tables)
  : Feed.t + string :=
  match firstn 1 (ord (feeds d)) with
  | f :: _ => inl f
  | [] => inr errNoRows
  end.

(** [q.GetNextFeedToFetch(ctx) (Feed, error)]: the statement goes
    through the driver like every other. *)
Definition GetNextFeedToFetch (env : Env) (ord : list Feed.t -> list Feed.t)
  : M (Feed.t + string) :=
  main.statement env QGetNextFeedToFetch
    (fun _ d => (sqlGetNextFeedToFetch ord d, d)).

(** [SELECT * FROM posts WHERE url = $1], a [:one] query. *)
Definition sqlGetPostByURL (url : string) (d : Tables) : Post.t + string :=
  match filter (hasUrl url) (posts d) with
  | p :: _ => inl p
  | [] => inr errNoRows
  end.

End queries.

(* ================================================================== *)
(** * More vocabulary *)
(* ================================================================== *)

Module More.
Import database.

(** How many feeds of [l] are at least as stale as [g] ([g] itself
    counts when it is in [l]). *)
Definition noFresherCount (g : Feed.t) (l : list Feed.t) : nat :=
  List.length (filter (fun h => staler h g) l).

(** The feeds of the mark-fetched updates among the statements [qs]. *)
Definition markedIds (qs : list Query) : list UUID :=
  flat_map (fun q => match q with QMarkFeedFetched id => [id] | _ => [] end) qs.


(** What the tick run in world [w] adds to the trace. *)
Definition tickEvents (env : Env) (C : Z) (w : World) : list Event :=
  skipn (List.length (trace w)) (trace (snd (main.scrapeFeeds env C w))).

End More.

Module Fair.
Import database.

(** A computation never takes the sequence of calls back. *)
Definition advances {A : Type} (c : M A) : Prop :=
  forall w, (seq w <= seq (snd (c w)))%nat.


(** From [w] on [NOW()] is later than every stored fetch time. *)
Definition clockAhead (env : Env) (w : World) : Prop :=
  forall n f t, (seq w <= n)%nat -> In f (feeds (tables w)) ->
    Feed.LastFetchedAt f = Some t -> t < db_now env n.

(** From [w] on [NOW()] grows from one statement to the next. *)
Definition clockRuns (env : Env) (w : World) : Prop :=
  forall m n, (seq w <= m < n)%nat -> db_now env m < db_now env n.

End Fair.

Module Ledger.
Import database.


(** Events of a goroutine between its update and its return: an
    insert, a line, a request. *)
Definition inner (e : Event) : Prop :=
  match e with
  | EvQuery (QCreatePost _) | EvPrint _ | EvDo _ _ => True
  | _ => False
  end.

(** The update a goroutine has still to send. *)
Definition owed (j : main.Job) : list UUID :=
  match j with
  | main.JMark feed => [Feed.ID feed]
  | _ => []
  end.

(** The stored posts are kept, in their order. *)
Definition postsKept (d d' : Tables) : Prop :=
  exists new, posts d' = (posts d ++ new)%list.

End Ledger.

Module Cases.

(** Events of a loop whose ticks select nothing: the selector, lines
    and receives from the ticker. *)
Definition idle (e : Event) : Prop :=
  match e with
  | EvQuery (database.QGetNextFeedsToFetch _) | EvPrint _ | EvTick => True
  | _ => False
  end.

(** The quiet world on a platform whose [int] has 64 bits:
    [strconv.Atoi] accepts a number beyond the range of [int32]. *)
Definition envWide : Env :=
  mkEnv (db_fault Fixtures.env0) (db_now Fixtures.env0) (time_Now Fixtures.env0)
        (uuid_New Fixtures.env0) (client_Do Fixtures.env0)
        (NewRequest_err Fixtures.env0) (xml_Unmarshal Fixtures.env0)
        (html_UnescapeString Fixtures.env0) (item_PubDate Fixtures.env0)
        (time_ParseDuration Fixtures.env0)
        (fun s => if String.eqb s "4294967296" then inl 4294967296
                  else strconv_Atoi Fixtures.env0 s)
        (go_picks Fixtures.env0).

(** The list [formats] of [ParsePubDate] without its fourth entry. *)
Definition formatsButFourth : list string :=
  (firstn 3 rss.formats ++ skipn 4 rss.formats)%list.

End Cases.

(* ================================================================== *)
(** * Package [main] ([main.go]): the commands of a logged-in user *)
(* ================================================================== *)

Module cli.
Import GoString database.

(** The fields of [database.User] that the commands read. *)
Module User.
Record t : Type := mk {
  ID : UUID;
  Name : string
}.
End User.

(** A row of [bookmarks]: the columns named by [CreateBookmark]. *)
Module Bookmark.
Record t : Type := mk {
  ID : UUID;
  CreatedAt : Timestamp;
  UpdatedAt : Timestamp;
  UserID : UUID;
  PostID : UUID
}.
End Bookmark.

(** A row of [feed_follows]: the columns named by [CreateFeedFollow]. *)
Module FeedFollow.
Record t : Type := mk {
  ID : UUID;
  CreatedAt : Timestamp;
  UpdatedAt : Timestamp;
  UserID : UUID;
  FeedID : UUID
}.
End FeedFollow.

(** The tables of the engine with those of the commands. *)
Record Store : Type := mkStore {
  base : Tables;
  feed_follows : list FeedFollow.t;
  bookmarks : list Bookmark.t
}.

(** [WHERE user_id = $1 AND post_id = $2] *)
Definition isBookmark (user post : UUID) (b : Bookmark.t) : bool :=
  N.eqb (Bookmark.UserID b) user && N.eqb (Bookmark.PostID b) post.

(** [SELECT EXISTS(SELECT 1 FROM bookmarks
     WHERE user_id = $1 AND post_id = $2) AS is_bookmarked] *)
Definition sqlIsPostBookmarked (user post : UUID) (st : Store) : bool :=
  existsb (isBookmark user post) (bookmarks st).

(** [INSERT INTO bookmarks (id, created_at, updated_at, user_id, post_id)
     VALUES ($1, $2, $3, $4, $5) RETURNING *].  What the schema may
    refuse is left to the driver, which can fail any statement. *)
Definition sqlCreateBookmark (arg : Bookmark.t) (st : Store) : Bookmark.t * Store :=
  (arg, mkStore (base st) (feed_follows st) (bookmarks st ++ [arg])).

(** [DELETE FROM bookmarks WHERE user_id = $1 AND post_id = $2] *)
Definition sqlDeleteBookmark (user post : UUID) (st : Store) : Store :=
  mkStore (base st) (feed_follows st)
          (filter (fun b => negb (isBookmark user post b)) (bookmarks st)).

(** [feed_follows.feed_id = feeds.id AND feed_follows.user_id = $1
     AND feeds.url = $2], for some row of [feeds]. *)
Definition followsUrl (fs : list Feed.t) (user : UUID) (url : string)
    (ff : FeedFollow.t) : bool :=
  existsb (fun f => N.eqb (FeedFollow.FeedID ff) (Feed.ID f)
                    && N.eqb (FeedFollow.UserID ff) user
                    && String.eqb (Feed.Url f) url) fs.

(** [DELETE FROM feed_follows USING feeds
     WHERE feed_follows.feed_id = feeds.id
       AND feed_follows.user_id = $1 AND feeds.url = $2] *)
Definition sqlDeleteFeedFollow (user : UUID) (url : string) (st : Store) : Store :=
  mkStore (base st)
          (filter (fun ff => negb (followsUrl (feeds (base st)) user url ff))
                  (feed_follows st))
          (bookmarks st).

(** A row of [GetPostsForUser]: [posts.*, feeds.name AS feed_name]. *)
Module PostRow.
Record t : Type := mk {
  Post_ : Post.t;
  FeedName : string
}.
End PostRow.

(** [FROM posts
     INNER JOIN feeds ON posts.feed_id = feeds.id
     INNER JOIN feed_follows ON feeds.id = feed_follows.feed_id
     WHERE feed_follows.user_id = $1] *)
Definition postsOfUser (user : UUID) (st : Store) : list PostRow.t :=
  flat_map (fun p =>
    flat_map (fun f =>
      if N.eqb (Post.FeedID p) (Feed.ID f) then
        flat_map (fun ff =>
          if N.eqb (Feed.ID f) (FeedFollow.FeedID ff)
             && N.eqb (FeedFollow.UserID ff) user
          then [PostRow.mk p (Feed.Name f)] else [])
          (feed_follows st)
      else [])
      (feeds (base st)))
    (posts (base st)).

(** [ORDER BY posts.published_at DESC NULLS LAST, posts.created_at DESC] *)
Definition newerFirst (a b : PostRow.t) : bool :=
  match Post.PublishedAt (PostRow.Post_ a), Post.PublishedAt (PostRow.Post_ b) with
  | Some x, Some y =>
    (y <? x) || ((x =? y) &&
                 (Post.CreatedAt (PostRow.Post_ b) <=? Post.CreatedAt (PostRow.Post_ a)))
  | Some _, None => true
  | None, Some _ => false
  | None, None =>
    Post.CreatedAt (PostRow.Post_ b) <=? Post.CreatedAt (PostRow.Post_ a)
  end.

Section Order.
Context {A : Type}.
Variable before : A -> A -> bool.

Fixpoint insertBy (x : A) (l : list A) : list A :=
  match l with
  | [] => [x]
  | y :: l' => if before x y then x :: l else y :: insertBy x l'
  end.

(** [ORDER BY]: rows with equal keys keep their order; SQL leaves the
    order of ties open, and no property below depends on it. *)
Fixpoint orderBy (l : list A) : list A :=
  match l with
  | [] => []
  | x :: l' => insertBy x (orderBy l')
  end.
End Order.

(** [SELECT posts.*, feeds.name AS feed_name FROM ... WHERE ...
     ORDER BY posts.published_at DESC NULLS LAST, posts.created_at DESC
     LIMIT $2] *)
Definition sqlGetPostsForUser (user : UUID) (limit : Z) (st : Store)
  : list PostRow.t + string :=
  if limit <? 0 then inr negativeLimit
  else inl (firstn (Z.to_nat limit) (orderBy newerFirst (postsOfUser user st))).

(** A row of [GetBookmarksForUser]:
    [posts.*, feeds.name AS feed_name, bookmarks.created_at AS bookmarked_at]. *)
Module BookmarkRow.
Record t : Type := mk {
  Post_ : Post.t;
  FeedName : string;
  BookmarkedAt : Timestamp
}.
End BookmarkRow.

(** [FROM bookmarks
     INNER JOIN posts ON bookmarks.post_id = posts.id
     INNER JOIN feeds ON posts.feed_id = feeds.id
     WHERE bookmarks.user_id = $1] *)
Definition bookmarksOfUser (user : UUID) (st : Store) : list BookmarkRow.t :=
  flat_map (fun b =>
    if N.eqb (Bookmark.UserID b) user then
      flat_map (fun p =>
        if N.eqb (Bookmark.PostID b) (Post.ID p) then
          flat_map (fun f =>
            if N.eqb (Post.FeedID p) (Feed.ID f)
            then [BookmarkRow.mk p (Feed.Name f) (Bookmark.CreatedAt b)] else [])
            (feeds (base st))
        else [])
        (posts (base st))
    else [])
    (bookmarks st).

(** [ORDER BY bookmarks.created_at DESC] *)
Definition bookmarkedLater (a b : BookmarkRow.t) : bool :=
  BookmarkRow.BookmarkedAt b <=? BookmarkRow.BookmarkedAt a.

(** [SELECT ... FROM bookmarks ... WHERE bookmarks.user_id = $1
     ORDER BY bookmarks.created_at DESC LIMIT $2] *)
Definition sqlGetBookmarksForUser (user : UUID) (limit : Z) (st : Store)
  : list BookmarkRow.t + string :=
  if limit <? 0 then inr negativeLimit
  else inl (firstn (Z.to_nat limit)
              (orderBy bookmarkedLater (bookmarksOfUser user st))).

(** The lines the commands print, one constructor per format string. *)
Inductive Line : Type :=
| AlreadyBookmarked                      (* Post is already bookmarked *)
| Bookmarked (title : string)            (* Bookmarked: %s *)
| RemovedBookmark (title : string)       (* Removed bookmark: %s *)
| Unfollowed (name url : string).        (* %s unfollowed %s *)

(** The statements of the commands. *)
Inductive Statement : Type :=
| SGetPostByURL (url : string)
| SIsPostBookmarked (user post : UUID)
| SCreateBookmark (arg : Bookmark.t)
| SDeleteBookmark (user post : UUID)
| SDeleteFeedFollow (user : UUID) (url : string).

(** A run of a command: the tables, what was sent and printed so far,
    and the number of calls to the outside. *)
Record Session : Type := mkSession {
  store : Store;
  sent : list Statement;
  out : list Line;
  calls : nat
}.

Definition Cmd (A : Type) : Type := Session -> A * Session.

Definition pure {A : Type} (a : A) : Cmd A := fun s => (a, s).

Definition andThen {A B : Type} (c : Cmd A) (k : A -> Cmd B) : Cmd B :=
  fun s => let (a, s') := c s in k a s'.

Declare Scope cmd_scope.
Delimit Scope cmd_scope with cmd.
Notation "x <-- c ;;; k" := (andThen c (fun x => k))
  (at level 61, c at next level, right associativity) : cmd_scope.
Notation "c ;;; k" := (andThen c (fun _ => k))
  (at level 61, right associativity) : cmd_scope.
Local Open Scope cmd_scope.

Definition Println (l : Line) : Cmd unit :=
  fun s => (tt, mkSession (store s) (sent s) (out s ++ [l]) (calls s)).

Section Commands.
Variable env : Env.

(** One statement sent through [s.db]: the driver may fail it, and a
    failed statement changes nothing. *)
Definition exec {A : Type} (q : Statement) (run : Store -> (A + string) * Store)
  : Cmd (A + string) :=
  fun s =>
    match db_fault env (calls s) with
    | Some msg =>
      (inr msg, mkSession (store s) (sent s ++ [q]) (out s) (S (calls s)))
    | None =>
      let (r, st) := run (store s) in
      (r, mkSession st (sent s ++ [q]) (out s) (S (calls s)))
    end.

Definition uuidNew : Cmd UUID :=
  fun s => (uuid_New env (calls s),
            mkSession (store s) (sent s) (out s) (S (calls s))).

Definition timeNowUTC : Cmd Timestamp :=
  fun s => (time_Now env (calls s),
            mkSession (store s) (sent s) (out s) (S (calls s))).

(** [s.db.GetPostByURL(ctx, url) (Post, error)] *)
Definition GetPostByURL (url : string) : Cmd (Post.t + string) :=
  exec (SGetPostByURL url)
       (fun st => (queries.sqlGetPostByURL url (base st), st)).

(** [s.db.IsPostBookmarked(ctx, arg) (bool, error)] *)
Definition IsPostBookmarked (user post : UUID) : Cmd (bool + string) :=
  exec (SIsPostBookmarked user post)
       (fun st => (inl (sqlIsPostBookmarked user post st), st)).

(** [s.db.CreateBookmark(ctx, arg) (Bookmark, error)] *)
Definition CreateBookmark (arg : Bookmark.t) : Cmd (Bookmark.t + string) :=
  exec (SCreateBookmark arg)
       (fun st => (inl (fst (sqlCreateBookmark arg st)),
                   snd (sqlCreateBookmark arg st))).

(** [s.db.DeleteBookmark(ctx, arg) error] *)
Definition DeleteBookmark (user post : UUID) : Cmd (unit + string) :=
  exec (SDeleteBookmark user post)
       (fun st => (inl tt, sqlDeleteBookmark user post st)).

(** [s.db.DeleteFeedFollow(ctx, arg) error] *)
Definition DeleteFeedFollow (user : UUID) (url : string) : Cmd (unit + string) :=
  exec (SDeleteFeedFollow user url)
       (fun st => (inl tt, sqlDeleteFeedFollow user url st)).

(** [handlerBookmark(s, cmd, user) error]; [None] is [nil]. *)
Definition handlerBookmark (args : list string) (user : User.t)
  : Cmd (option string) :=
  match args with
  | [] => pure (Some "post URL is required")
  | postURL :: _ =>
    (* Find the post by URL *)
    r <-- GetPostByURL postURL ;;;
    match r with
    | inr err => pure (Some ("couldn't find post: " ++ err))
    | inl post =>
      (* Check if already bookmarked *)
      r <-- IsPostBookmarked (User.ID user) (Post.ID post) ;;;
      match r with
      | inr err => pure (Some ("couldn't check bookmark status: " ++ err))
      | inl isBookmarked =>
        if isBookmarked then
          Println AlreadyBookmarked ;;; pure None
        else
          (* Create bookmark *)
          id <-- uuidNew ;;;
          createdAt <-- timeNowUTC ;;;
          updatedAt <-- timeNowUTC ;;;
          r <-- CreateBookmark
                  (Bookmark.mk id createdAt updatedAt (User.ID user) (Post.ID post)) ;;;
          match r with
          | inr err => pure (Some ("couldn't create bookmark: " ++ err))
          | inl _ => Println (Bookmarked (Post.Title post)) ;;; pure None
          end
      end
    end
  end.

(** [handlerUnbookmark(s, cmd, user) error] *)
Definition handlerUnbookmark (args : list string) (user : User.t)
  : Cmd (option string) :=
  match args with
  | [] => pure (Some "post URL is required")
  | postURL :: _ =>
    (* Find the post by URL *)
    r <-- GetPostByURL postURL ;;;
    match r with
    | inr err => pure (Some ("couldn't find post: " ++ err))
    | inl post =>
      (* Delete bookmark *)
      r <-- DeleteBookmark (User.ID user) (Post.ID post) ;;;
      match r with
      | inr err => pure (Some ("couldn't remove bookmark: " ++ err))
      | inl _ => Println (RemovedBookmark (Post.Title post)) ;;; pure None
      end
    end
  end.

(** [handlerUnfollow(s, cmd, user) error] *)
Definition handlerUnfollow (args : list string) (user : User.t)
  : Cmd (option string) :=
  match args with
  | [] => pure (Some "url is required")
  | url :: _ =>
    (* Delete feed follow *)
    r <-- DeleteFeedFollow (User.ID user) url ;;;
    match r with
    | inr err => pure (Some ("couldn't unfollow feed: " ++ err))
    | inl _ => Println (Unfollowed (User.Name user) url) ;;; pure None
    end
  end.

End Commands.

(** The pairs [(user_id, post_id)] of the bookmarks. *)
Definition bookmarkPairs (st : Store) : list (UUID * UUID) :=
  map (fun b => (Bookmark.UserID b, Bookmark.PostID b)) (bookmarks st).

End cli.

Module Sessions.
Import database cli.

(** The session after user 100 has bookmarked the stored post of the
    second item in the quiet world. *)
Definition bookmarked : Session :=
  snd (handlerBookmark Fixtures.env0 ["http://a.example/2"]
         (User.mk 100%N "kahya")
         (mkSession (mkStore (tables Fixtures.w1) [] []) [] [] 0)).

(** Users 100 and 101 follow feed [A]; user 100 follows [B] too. *)
Definition follows0 : list FeedFollow.t :=
  [FeedFollow.mk 500%N 0 0 100%N 1%N;
   FeedFollow.mk 501%N 0 0 101%N 1%N;
   FeedFollow.mk 502%N 0 0 100%N 2%N].

Definition following : Session :=
  mkSession (mkStore (tables Fixtures.w1) follows0 []) [] [] 0.

(** Four stored posts, in the order they were stored: one without a
    publish date, two published at the same time in feed [A], and a
    more recent one in feed [B]. *)
Definition pUndated : Post.t :=
  Post.mk 11%N 5 5 "undated" "http://a.example/u" None None 1%N.
Definition pOld : Post.t :=
  Post.mk 12%N 1 1 "old" "http://a.example/o" None (Some 100) 1%N.
Definition pNew : Post.t :=
  Post.mk 13%N 2 2 "new" "http://b.example/n" None (Some 200) 2%N.
Definition pOldAgain : Post.t :=
  Post.mk 14%N 3 3 "old again" "http://a.example/l" None (Some 100) 1%N.

Definition reading : Session :=
  mkSession
    (mkStore (mkTables [Fixtures.feedA; Fixtures.feedB]
                       [pUndated; pOld; pNew; pOldAgain])
             follows0 [])
    [] [] 0.

(** The session after user 100 has bookmarked [pOld] and then [pNew]
    in the quiet world. *)
Definition twice : Session :=
  snd (handlerBookmark Fixtures.env0 ["http://b.example/n"]
         (User.mk 100%N "kahya")
         (snd (handlerBookmark Fixtures.env0 ["http://a.example/o"]
                 (User.mk 100%N "kahya") reading))).

End Sessions.

(* ================================================================== *)
(** * The order of a listing *)
(* ================================================================== *)

Module Listed.
Import database cli.

(** [a] is listed before [b] in [rows]. *)
Definition precedes {A : Type} (rows : list A) (a b : A) : Prop :=
  exists l1 l2 l3, rows = (l1 ++ a :: l2 ++ b :: l3)%list.

(** Newest publish date first, posts without one last; of two posts
    with the same publish date, or both with none, the one stored
    later first. *)
Definition newestFirst (rows : list PostRow.t) : Prop :=
  forall a b, precedes rows a b ->
    (forall x y,
       Post.PublishedAt (PostRow.Post_ a) = Some x ->
       Post.PublishedAt (PostRow.Post_ b) = Some y -> y <= x) /\
    (Post.PublishedAt (PostRow.Post_ a) = None ->
     Post.PublishedAt (PostRow.Post_ b) = None) /\
    (Post.PublishedAt (PostRow.Post_ a) = Post.PublishedAt (PostRow.Post_ b) ->
     Post.CreatedAt (PostRow.Post_ b) <= Post.CreatedAt (PostRow.Post_ a)).

(** The bookmark made last first. *)
Definition latestBookmarkFirst (rows : list BookmarkRow.t) : Prop :=
  forall a b, precedes rows a b ->
    BookmarkRow.BookmarkedAt b <= BookmarkRow.BookmarkedAt a.

End Listed.

(* ================================================================== *)
(** * Package [main] ([main.go]): the arguments of [browse] *)
(* ================================================================== *)

Module browse.
Import GoString.

(** [strings.TrimPrefix(s, prefix)] *)
Definition trimPrefix (s prefix : string) : string :=
  if hasPrefix prefix s then drop (String.length prefix) s else s.

(** The four variables the loop over [cmd.args] sets. *)
Record Options : Type := mkOptions {
  limit : Z;            (* an [int32] *)
  offset : Z;           (* an [int32] *)
  sortBy : string;
  feedFilter : string
}.

(** Default values *)
Definition defaults : Options := mkOptions 10 0 "published_desc" "".

Definition validSorts : list string :=
  ["published_desc"; "published"; "title"; "title_desc"; "feed"; "feed_desc"].

Section Args.
Variable env : Env.

(** One turn of [for i, arg := range cmd.args]; [None] is the
    [return nil] of [--help]. *)
Definition parseArg (i : nat) (arg : string) (o : Options) : option Options :=
  if hasPrefix "--limit=" arg then
    match strconv_Atoi env (trimPrefix arg "--limit=") with
    | inl l =>
      if 0 <? l then Some (mkOptions (int32 l) (offset o) (sortBy o) (feedFilter o))
      else Some o
    | inr _ => Some o
    end
  else if hasPrefix "--offset=" arg then
    match strconv_Atoi env (trimPrefix arg "--offset=") with
    | inl n =>
      if 0 <=? n then Some (mkOptions (limit o) (int32 n) (sortBy o) (feedFilter o))
      else Some o
    | inr _ => Some o
    end
  else if hasPrefix "--sort=" arg then
    Some (mkOptions (limit o) (offset o) (trimPrefix arg "--sort=") (feedFilter o))
  else if hasPrefix "--feed=" arg then
    Some (mkOptions (limit o) (offset o) (sortBy o) (trimPrefix arg "--feed="))
  else if String.eqb arg "--help" then None
  else if (i =? 0)%nat then
    (* First argument without flag is treated as limit for backward
       compatibility *)
    match strconv_Atoi env arg with
    | inl l =>
      if 0 <? l then Some (mkOptions (int32 l) (offset o) (sortBy o) (feedFilter o))
      else Some o
    | inr _ => Some o
    end
  else Some o.

Fixpoint parseArgs (i : nat) (args : list string) (o : Options) : option Options :=
  match args with
  | [] => Some o
  | arg :: rest =>
    match parseArg i arg o with
    | None => None
    | Some o' => parseArgs (S i) rest o'
    end
  end.

(** What [handlerBrowse] has settled when it reaches the query. *)
Inductive Parsed : Type :=
| Help                       (* the usage was printed, [nil] returned *)
| Invalid (err : string)     (* the error of the sort option *)
| Query (o : Options).       (* [GetPostsForUserWithPagination] is sent *)

Definition browseArgs (args : list string) : Parsed :=
  match parseArgs 0 args defaults with
  | None => Help
  | Some o =>
    (* Validate sort option *)
    if existsb (String.eqb (sortBy o)) validSorts then Query o
    else Invalid ("invalid sort option: " ++ sortBy o
                  ++ ". Valid options: published_desc, published, title, "
                  ++ "title_desc, feed, feed_desc")
  end.

End Args.

(** An argument that none of the branches for an option takes. *)
Definition bare (arg : string) : bool :=
  negb (hasPrefix "--limit=" arg) && negb (hasPrefix "--offset=" arg)
  && negb (hasPrefix "--sort=" arg) && negb (hasPrefix "--feed=" arg)
  && negb (String.eqb arg "--help").

(** A number the loop does not take.  [arg] stands where a limit or an
    offset is read, as the argument number [i], and [strconv.Atoi]
    fails on it, or gives a limit that is not positive, or an offset
    that is negative. *)
Definition refusedNumber (env : Env) (i : nat) (arg : string) : Prop :=
  (hasPrefix "--limit=" arg = true /\
   forall l, strconv_Atoi env (trimPrefix arg "--limit=") = inl l -> l <= 0) \/
  (hasPrefix "--offset=" arg = true /\
   forall n, strconv_Atoi env (trimPrefix arg "--offset=") = inl n -> n < 0) \/
  (bare arg = true /\ i = 0%nat /\
   forall l, strconv_Atoi env arg = inl l -> l <= 0).

(** [if len(description) > max { description = description[:keep] + "..." }] *)
Definition clip (max keep : nat) (description : string) : string :=
  if (max <? String.length description)%nat
  then take keep description ++ "..."
  else description.

(** The descriptions [browse], [search] and [bookmarks] print, and
    those of the terminal UI. *)
Definition clipListed : string -> string := clip 150 147.
Definition clipTUI : string -> string := clip 100 97.

End browse.

Module Monotone.
Import database Fair.

(** A relation between the world before and after a computation. *)
Definition steps {A : Type} (R : World -> World -> Prop) (c : M A) : Prop :=
  forall w, R w (snd (c w)).

(** [b] is no earlier than [a]; a feed once fetched stays fetched. *)
Definition notEarlier (a b : option Timestamp) : Prop :=
  match a, b with
  | None, _ => True
  | Some x, Some y => x <= y
  | Some _, None => False
  end.

(** The same feeds in the same order, none fetched earlier than it
    was. *)
Definition sameOrLater (d d' : Tables) : Prop :=
  Forall2 (fun f f' => Feed.ID f' = Feed.ID f /\
                       notEarlier (Feed.LastFetchedAt f) (Feed.LastFetchedAt f'))
          (feeds d) (feeds d').

(** What a computation keeps when the clock of the database runs
    ahead of the stored fetch times. *)
Definition onward (env : Env) (w w' : World) : Prop :=
  (seq w <= seq w')%nat /\
  (clockRuns env w -> clockAhead env w ->
   clockAhead env w' /\ sameOrLater (tables w) (tables w')).


End Monotone.

Module Turn.
Import Sched.

(** What the steps of the body of the loop leave alone. *)
Definition sameTick (s s' : State) : Prop :=
  now s' = now s /\ fired s' = fired s /\ turn s' = turn s /\
  buffered s' = buffered s.

End Turn.

(* ================================================================== *)
(** * Properties *)
(* ================================================================== *)

Local Open Scope list_scope.


Module SelectorFacts.
Import database Spec.

Lemma staler_refl f : staler f f = true.
Proof.
  unfold staler, nullsFirst_leb.
  destruct (Feed.LastFetchedAt f); [apply Z.leb_refl | reflexivity].
Qed.

Lemma staler_total f g : staler f g = true \/ staler g f = true.
Proof.
  unfold staler, nullsFirst_leb.
  destruct (Feed.LastFetchedAt f), (Feed.LastFetchedAt g); auto.
  destruct (Z.leb_spec t t0); [left | right]; auto.
  apply Z.leb_le; lia.
Qed.

Lemma staler_trans f g h :
  staler f g = true -> staler g h = true -> staler f h = true.
Proof.
  unfold staler, nullsFirst_leb.
  destruct (Feed.LastFetchedAt f), (Feed.LastFetchedAt g),
           (Feed.LastFetchedAt h); try easy.
  rewrite !Z.leb_le. lia.
Qed.

Lemma insertByStaleness_perm f l :
  Permutation (insertByStaleness f l) (f :: l).
Proof.
  induction l as [| g l IH]; simpl.
  - apply Permutation_refl.
  - destruct (staler f g).
    + apply Permutation_refl.
    + eapply perm_trans; [apply perm_skip, IH | apply perm_swap].
Qed.

Lemma orderByLastFetched_perm l : Permutation (orderByLastFetched l) l.
Proof.
  induction l as [| f l IH]; simpl.
  - constructor.
  - eapply perm_trans; [apply insertByStaleness_perm | now apply perm_skip].
Qed.

Lemma insertByStaleness_sorted f l :
  ascNullsFirst l -> ascNullsFirst (insertByStaleness f l).
Proof.
  unfold ascNullsFirst.
  induction l as [| g l IH]; simpl; intros Hs.
  - constructor; [constructor | constructor].
  - inversion Hs as [| ? ? Hs' Hall]; subst.
    destruct (staler f g) eqn:E.
    + constructor; [assumption |].
      constructor; [assumption |].
      eapply Forall_impl; [| exact Hall].
      intros h Hh. eapply staler_trans; eauto.
    + constructor; [now apply IH |].
      assert (Hgf : staler g f = true)
        by (destruct (staler_total f g); congruence).
      eapply Permutation_Forall.
      * apply Permutation_sym, insertByStaleness_perm.
      * constructor; assumption.
Qed.

Lemma orderByLastFetched_sorted l : ascNullsFirst (orderByLastFetched l).
Proof.
  induction l as [| f l IH]; simpl.
  - constructor.
  - now apply insertByStaleness_sorted.
Qed.

Lemma sorted_firstn n l : ascNullsFirst l -> ascNullsFirst (firstn n l).
Proof.
  unfold ascNullsFirst. revert n.
  induction l as [| f l IH]; intros [| n] Hs; simpl; try constructor.
  - inversion Hs; subst. now apply IH.
  - inversion Hs as [| ? ? _ Hall]; subst.
    rewrite Forall_forall in *. intros g Hg. apply Hall.
    eapply (In_nth_error) in Hg. destruct Hg as [k Hk].
    revert n k Hk. clear. induction l as [| a l IH]; intros [| n] k Hk;
      simpl in *; try (destruct k; discriminate).
    destruct k; simpl in Hk.
    + left; congruence.
    + right; eauto.
Qed.

Lemma sorted_split n l f g :
  ascNullsFirst l -> In f (firstn n l) -> In g (skipn n l) ->
  staler f g = true.
Proof.
  unfold ascNullsFirst. revert n.
  induction l as [| a l IH]; intros [| n] Hs Hf Hg; simpl in *; try easy.
  inversion Hs as [| ? ? Hs' Hall]; subst.
  destruct Hf as [-> | Hf].
  - rewrite Forall_forall in Hall. apply Hall.
    rewrite <- (firstn_skipn n l). apply in_or_app. now right.
  - eapply IH; eauto.
Qed.

End SelectorFacts.

(** ** Running the monad *)

Module Run.
Import database main.

Lemma statement_run {A : Type} env (q : Query)
    (run : nat -> Tables -> (A + string) * Tables) (w : World) :
  statement env q run w =
  match db_fault env (seq w) with
  | Some msg =>
    (inr msg, mkWorld (tables w) (trace w ++ [EvQuery q]) (S (seq w)))
  | None =>
    (fst (run (seq w) (tables w)),
     mkWorld (snd (run (seq w) (tables w))) (trace w ++ [EvQuery q]) (S (seq w)))
  end.
Proof.
  unfold statement, bind, fresh, emit; simpl.
  destruct (db_fault env (seq w)); [reflexivity |].
  destruct (run (seq w) (tables w)); reflexivity.
Qed.

Lemma GetNextFeedsToFetch_run env limit w :
  GetNextFeedsToFetch env limit w =
  (match db_fault env (seq w) with
   | Some msg => inr msg
   | None => sqlGetNextFeedsToFetch limit (tables w)
   end,
   mkWorld (tables w) (trace w ++ [EvQuery (QGetNextFeedsToFetch limit)])
           (S (seq w))).
Proof.
  unfold GetNextFeedsToFetch. rewrite statement_run.
  destruct (db_fault env (seq w)); simpl; reflexivity.
Qed.

Lemma MarkFeedFetched_run env id w :
  MarkFeedFetched env id w =
  match db_fault env (seq w) with
  | Some msg =>
    (Some msg,
     mkWorld (tables w) (trace w ++ [EvQuery (QMarkFeedFetched id)]) (S (seq w)))
  | None =>
    (None,
     mkWorld (sqlMarkFeedFetched (db_now env (seq w)) id (tables w))
             (trace w ++ [EvQuery (QMarkFeedFetched id)]) (S (seq w)))
  end.
Proof.
  unfold MarkFeedFetched, bind. rewrite statement_run.
  destruct (db_fault env (seq w)); reflexivity.
Qed.

Lemma CreatePost_run env arg w :
  CreatePost env arg w =
  match db_fault env (seq w) with
  | Some msg =>
    (inr msg, mkWorld (tables w) (trace w ++ [EvQuery (QCreatePost arg)]) (S (seq w)))
  | None =>
    (fst (sqlCreatePost arg (tables w)),
     mkWorld (snd (sqlCreatePost arg (tables w)))
             (trace w ++ [EvQuery (QCreatePost arg)]) (S (seq w)))
  end.
Proof. unfold CreatePost. apply statement_run. Qed.

End Run.

Module ListFacts.

Lemma perm3_cases {A : Type} (a b c : A) (l : list A) :
  Permutation l [a; b; c] ->
  l = [a; b; c] \/ l = [a; c; b] \/ l = [b; a; c] \/
  l = [b; c; a] \/ l = [c; a; b] \/ l = [c; b; a].
Proof.
  intros P.
  assert (L := Permutation_length P).
  destruct l as [| x [| y [| z [| ? ?]]]]; try discriminate.
  assert (Hx : In x [a; b; c])
    by (eapply Permutation_in; [exact P | now left]).
  destruct Hx as [<- | [<- | [<- | []]]].
  - apply Permutation_cons_inv in P.
    apply Permutation_sym, Permutation_length_2_inv in P.
    destruct P as [E | E]; injection E as -> ->; auto.
  - assert (P' : Permutation [y; z] [a; c]).
    { apply (Permutation_cons_inv (a := b)).
      eapply perm_trans; [exact P | apply perm_swap]. }
    apply Permutation_sym, Permutation_length_2_inv in P'.
    destruct P' as [E | E]; injection E as -> ->; auto 10.
  - assert (P' : Permutation [y; z] [a; b]).
    { apply (Permutation_cons_inv (a := c)).
      eapply perm_trans; [exact P |].
      eapply perm_trans; [apply perm_skip, perm_swap | apply perm_swap]. }
    apply Permutation_sym, Permutation_length_2_inv in P'.
    destruct P' as [E | E]; injection E as -> ->; auto 10.
Qed.

End ListFacts.

Module Selector.
Import database main Spec SelectorFacts.

(** The stalest-first scenario for any three feeds: [A] never fetched,
    [B] fetched before [C]; in whatever order the table holds them,
    limit 2 selects [A] and then [B]. *)
Lemma select_two_of_three (A B C : Feed.t) (tb tc : Timestamp) (d : Tables) :
  Feed.LastFetchedAt A = None ->
  Feed.LastFetchedAt B = Some tb ->
  Feed.LastFetchedAt C = Some tc ->
  tb < tc ->
  Permutation (feeds d) [A; B; C] ->
  sqlGetNextFeedsToFetch 2 d = inl [A; B].
Proof.
  intros HA HB HC Hlt P.
  assert (Ebc : (tb <=? tc) = true) by (apply Z.leb_le; lia).
  assert (Ecb : (tc <=? tb) = false) by (apply Z.leb_gt; lia).
  unfold sqlGetNextFeedsToFetch; simpl.
  apply ListFacts.perm3_cases in P.
  destruct P as [E | [E | [E | [E | [E | E]]]]]; rewrite E; simpl;
    unfold staler; rewrite ?HA, ?HB, ?HC; simpl;
    rewrite ?Ebc, ?Ecb; simpl;
    unfold staler; rewrite ?HA, ?HB, ?HC; simpl;
    rewrite ?Ebc, ?Ecb; simpl; reflexivity.
Qed.

(** C4.  For every feed table and every limit the Freshness Selector
  ([GetNextFeedsToFetch]), when storage answers the statement, refuses
  a negative limit and otherwise returns a sequence of at most [limit]
  feeds, ordered by last-fetched ascending with the never-fetched
  feeds first, made of the stalest feeds of the table (every feed left
  out is no staler than any feed returned); it reads without writing,
  and an empty table gives the empty sequence.  In particular, for the
  feeds A (never fetched), B (fetched an hour ago) and C (fetched five
  minutes ago), stored in any order, limit 2 returns exactly A then
  B. *)
Theorem selector_stalest_first (env : Env) (limit : Z) (w : World) :
  db_fault env (seq w) = None ->
  (limit < 0 -> fst (GetNextFeedsToFetch env limit w) = inr negativeLimit) /\
  (0 <= limit ->
   exists fs,
     fst (GetNextFeedsToFetch env limit w) = inl fs /\
     Z.of_nat (List.length fs) <= limit /\
     ascNullsFirst fs /\
     (exists rest,
        Permutation (feeds (tables w)) (fs ++ rest) /\
        forall f g, In f fs -> In g rest -> staler f g = true) /\
     (feeds (tables w) = [] -> fs = [])) /\
  tables (snd (GetNextFeedsToFetch env limit w)) = tables w /\
  (forall A B C tb tc,
     Feed.LastFetchedAt A = None ->
     Feed.LastFetchedAt B = Some tb ->
     Feed.LastFetchedAt C = Some tc ->
     tb < tc ->
     Permutation (feeds (tables w)) [A; B; C] ->
     fst (GetNextFeedsToFetch env 2 w) = inl [A; B]).
Proof.
  intros Hok. rewrite !Run.GetNextFeedsToFetch_run, Hok; simpl.
  repeat split.
  - intros Hneg. unfold sqlGetNextFeedsToFetch.
    destruct (Z.ltb_spec limit 0); [reflexivity | lia].
  - intros Hpos. unfold sqlGetNextFeedsToFetch.
    destruct (Z.ltb_spec limit 0); [lia |].
    set (sorted := orderByLastFetched (feeds (tables w))).
    exists (firstn (Z.to_nat limit) sorted). repeat split.
    + pose proof (firstn_le_length (Z.to_nat limit) sorted). 
      rewrite length_firstn. lia.
    + apply sorted_firstn, orderByLastFetched_sorted.
    + exists (skipn (Z.to_nat limit) sorted). split.
      * rewrite firstn_skipn. apply Permutation_sym, orderByLastFetched_perm.
      * intros f g Hf Hg.
        eapply sorted_split; eauto. apply orderByLastFetched_sorted.
    + intros E. subst sorted. rewrite E. simpl. now rewrite firstn_nil.
  - intros A B C tb tc HA HB HC Hlt P.
    eapply select_two_of_three; eauto.
Qed.

Lemma selector_stalest_first_witness :
  fst (GetNextFeedsToFetch Fixtures.env0 2 Fixtures.w0)
  = inl [Fixtures.feedA; Fixtures.feedB].
Proof.
  refine (proj2 (proj2 (proj2
    (selector_stalest_first Fixtures.env0 2 Fixtures.w0 eq_refl)))
    Fixtures.feedA Fixtures.feedB Fixtures.feedC
    3600000000 6900000000 eq_refl eq_refl eq_refl _ _).
  - reflexivity.
  - simpl. apply Permutation_sym.
    eapply perm_trans; [| apply perm_swap].
    apply perm_skip, perm_swap.
Defined.

End Selector.


(** ** Traces *)

Module TraceFacts.
Import database main.

Lemma appends_ret {A : Type} P (a : A) : appends P (ret a).
Proof. intros w. exists []. simpl. now rewrite app_nil_r. Qed.

Lemma appends_emit (P : Event -> Prop) e : P e -> appends P (emit e).
Proof. intros H w. exists [e]. simpl. auto. Qed.

Lemma appends_fresh P : appends P fresh.
Proof. intros w. exists []. simpl. now rewrite app_nil_r. Qed.

Lemma appends_bind {A B : Type} P (c : M A) (k : A -> M B) :
  appends P c -> (forall a, appends P (k a)) -> appends P (bind c k).
Proof.
  intros Hc Hk w. unfold bind.
  destruct (Hc w) as [e1 [E1 F1]].
  destruct (c w) as [a w1]. simpl in E1.
  destruct (Hk a w1) as [e2 [E2 F2]].
  exists (e1 ++ e2). split.
  - rewrite E2, E1. now rewrite app_assoc.
  - now apply Forall_app.
Qed.

Lemma appends_forEach {A : Type} P (xs : list A) (body : A -> M unit) :
  (forall x, appends P (body x)) -> appends P (forEach xs body).
Proof.
  intros Hb. induction xs as [| x xs IH]; simpl.
  - apply appends_ret.
  - apply appends_bind; auto.
Qed.

Lemma appends_statement {A : Type} P env q
    (run : nat -> Tables -> (A + string) * Tables) :
  P (EvQuery q) -> appends P (statement env q run).
Proof.
  intros Hq w. rewrite Run.statement_run.
  exists [EvQuery q]. destruct (db_fault env (seq w)); simpl; auto.
Qed.

Lemma dispatched_app a b : dispatched (a ++ b) = dispatched a ++ dispatched b.
Proof.
  induction a as [| e a IH]; simpl; [reflexivity |].
  destruct e; simpl; now rewrite ?IH.
Qed.

Lemma dispatched_go fs : dispatched (map EvGo fs) = fs.
Proof. induction fs; simpl; congruence. Qed.

Lemma forEach_emit {A : Type} (f : A -> Event) (xs : list A) (w : World) :
  forEach xs (fun x => emit (f x)) w =
  (tt, mkWorld (tables w) (trace w ++ map f xs) (seq w)).
Proof.
  revert w. induction xs as [| x xs IH]; intros w; simpl.
  - unfold ret. rewrite app_nil_r. now destruct w.
  - unfold bind. simpl. rewrite IH. simpl. now rewrite <- app_assoc.
Qed.

Lemma uuidNew_appends P env : appends P (uuidNew env).
Proof.
  unfold uuidNew. apply appends_bind; [apply appends_fresh |].
  intros; apply appends_ret.
Qed.

Lemma timeNowUTC_appends P env : appends P (timeNowUTC env).
Proof.
  unfold timeNowUTC. apply appends_bind; [apply appends_fresh |].
  intros; apply appends_ret.
Qed.

Lemma storeItem_appends P env feed item :
  (forall q, P (EvQuery q)) -> (forall l, P (EvPrint l)) ->
  appends P (storeItem env feed item).
Proof.
  intros Hq Hp. unfold storeItem.
  apply appends_bind; [apply uuidNew_appends | intros id].
  apply appends_bind; [apply timeNowUTC_appends | intros createdAt].
  apply appends_bind; [apply timeNowUTC_appends | intros updatedAt].
  apply appends_bind; [apply appends_statement, Hq | intros [p | err]].
  - apply appends_ret.
  - destruct (negb (err =? dupPostsUrl)%string);
      [apply appends_emit, Hp | apply appends_ret].
Qed.

Lemma FetchFeed_appends P env ctx url :
  (forall c r, P (EvDo c r)) -> appends P (main.FetchFeed env ctx url).
Proof.
  intros Hd. unfold main.FetchFeed.
  apply appends_bind; [apply appends_fresh | intros n].
  destruct (rss.FetchFeed _ _ _ _ _ _) as [calls r].
  apply appends_bind; [| intros; apply appends_ret].
  apply appends_forEach. intros [c rq]. apply appends_emit, Hd.
Qed.

End TraceFacts.

(** ** Goroutines *)

Module Goroutines.
Import database main Monotone More Ledger.

Lemma forEach_cons {A : Type} (x : A) (xs : list A) (body : A -> M unit) w :
  forEach (x :: xs) body w = forEach xs body (snd (body x w)).
Proof. simpl. unfold bind. now destruct (body x w) as [[] w1]. Qed.

(** A goroutine run call by call is [scrapeFeed]: its first call and
    then the rest. *)
Lemma finish_jobStep env j w :
  finish env j w =
  match fst (jobStep env j w) with
  | Some j' => finish env j' (snd (jobStep env j w))
  | None => (tt, snd (jobStep env j w))
  end.
Proof.
  destruct j as [feed | feed | feed [| item rest] | feed]; cbn [finish jobStep].
  - unfold scrapeFeed, scrapeFeedBody, bind.
    destruct (MarkFeedFetched env (Feed.ID feed) w) as [[e |] w1]; reflexivity.
  - unfold fetchAndStore, bind.
    destruct (main.FetchFeed env http.Background (Feed.Url feed) w)
      as [[rssFeed | e] w1]; reflexivity.
  - reflexivity.
  - unfold storeItems. cbn [forEach]. unfold bind.
    destruct (storeItem env feed item w) as [[] w1]. reflexivity.
  - reflexivity.
Qed.

(** A goroutine stays with its feed. *)
Lemma jobStep_feed env j w j' :
  fst (jobStep env j w) = Some j' -> feedOf j' = feedOf j.
Proof.
  destruct j as [feed | feed | feed [| item rest] | feed]; cbn [jobStep];
    unfold bind.
  - destruct (MarkFeedFetched env (Feed.ID feed) w) as [[e |] w1]; simpl;
      intros E; injection E as <-; reflexivity.
  - destruct (main.FetchFeed env http.Background (Feed.Url feed) w)
      as [[rssFeed | e] w1]; simpl; intros E; injection E as <-; reflexivity.
  - discriminate.
  - destruct (storeItem env feed item w) as [[] w1]. simpl.
    intros E. injection E as <-. reflexivity.
  - discriminate.
Qed.

(** What holds of every call of a goroutine holds of its run to the
    return. *)
Lemma finish_by_steps env (Q : Job -> World -> World -> Prop) :
  (forall j w,
     match fst (jobStep env j w) with
     | Some j' => forall w', Q j' (snd (jobStep env j w)) w' -> Q j w w'
     | None => Q j w (snd (jobStep env j w))
     end) ->
  forall j w, Q j w (snd (finish env j w)).
Proof.
  intros H.
  assert (Last : forall j w, fst (jobStep env j w) = None ->
                             Q j w (snd (finish env j w))).
  { intros j w E. rewrite finish_jobStep. specialize (H j w).
    rewrite E in *. exact H. }
  assert (Next : forall j w,
            (forall j', fst (jobStep env j w) = Some j' ->
                        Q j' (snd (jobStep env j w))
                          (snd (finish env j' (snd (jobStep env j w))))) ->
            Q j w (snd (finish env j w))).
  { intros j w IH. rewrite finish_jobStep. specialize (H j w).
    destruct (fst (jobStep env j w)) as [j' |]; [| exact H].
    apply H, IH. reflexivity. }
  assert (D : forall feed w, Q (JDone feed) w (snd (finish env (JDone feed) w))).
  { intros feed w. apply Last. reflexivity. }
  assert (S : forall feed items w,
            Q (JStore feed items) w (snd (finish env (JStore feed items) w))).
  { intros feed items. induction items as [| item rest IH]; intros w.
    - apply Last. reflexivity.
    - apply Next. intros j'. cbn [jobStep]. unfold bind.
      destruct (storeItem env feed item w) as [[] w1]. simpl.
      intros E. injection E as <-. apply IH. }
  assert (F : forall feed w, Q (JFetch feed) w (snd (finish env (JFetch feed) w))).
  { intros feed w. apply Next. intros j'. cbn [jobStep]. unfold bind.
    destruct (main.FetchFeed env http.Background (Feed.Url feed) w)
      as [[rssFeed | e] w1]; simpl; intros E; injection E as <-;
      [apply S | apply D]. }
  intros [feed | feed | feed items | feed] w; auto.
  apply Next. intros j'. cbn [jobStep]. unfold bind.
  destruct (MarkFeedFetched env (Feed.ID feed) w) as [[e |] w1]; simpl;
    intros E; injection E as <-; [apply D | apply F].
Qed.

(** With no feed to start and no goroutine running, the picks do
    nothing. *)
Lemma startAll_run todo : forall jobs w,
  startAll todo jobs w =
  (jobs ++ map JMark todo, snd (forEach todo (fun feed => emit (EvGo feed)) w)).
Proof.
  induction todo as [| feed todo IH]; intros jobs w.
  - simpl. now rewrite app_nil_r.
  - cbn [startAll]. rewrite forEach_cons. unfold goStart, bind.
    cbn [emit ret fst snd]. rewrite IH, <- app_assoc. reflexivity.
Qed.

(** Once the picks are used up: the goroutines left are started, then
    all run to their return in the order they were started. *)
Lemma runTick_nil env todo jobs w :
  runTick env [] todo jobs w =
  bind (forEach todo (fun feed => emit (EvGo feed)))
       (fun _ => forEach (jobs ++ map JMark todo) (finish env)) w.
Proof.
  cbn [runTick]. unfold bind. rewrite startAll_run.
  destruct (forEach todo _ w) as [[] w1]. reflexivity.
Qed.

Lemma runTick_go env picks feed todo jobs w :
  runTick env (O :: picks) (feed :: todo) jobs w =
  bind (emit (EvGo feed))
       (fun _ => runTick env picks todo (jobs ++ [JMark feed])) w.
Proof. reflexivity. Qed.

(** *** What every call keeps, the whole loop keeps *)

Section Closed.
Variable env : Env.
Variable R : World -> World -> Prop.
Variable ok : Feed.t -> Prop.
Hypothesis R_refl : forall w, R w w.
Hypothesis R_trans : forall a b c, R a b -> R b c -> R a c.
Hypothesis R_fresh : forall w, R w (snd (fresh w)).
Hypothesis R_print : forall l w, R w (snd (emit (EvPrint l) w)).
Hypothesis R_do : forall c r w, R w (snd (emit (EvDo c r) w)).
Hypothesis R_mark :
  forall feed w, ok feed -> R w (snd (MarkFeedFetched env (Feed.ID feed) w)).
Hypothesis R_create :
  forall feed arg w, ok feed -> CreatePostParams.FeedID arg = Feed.ID feed ->
    R w (snd (CreatePost env arg w)).
Hypothesis R_done : forall feed w, ok feed -> R w (snd (emit (EvDone feed) w)).

Lemma steps_ret {A : Type} (a : A) : steps R (ret a).
Proof. intros w. apply R_refl. Qed.

Lemma steps_bind {A B : Type} (c : M A) (k : A -> M B) :
  steps R c -> (forall a, steps R (k a)) -> steps R (bind c k).
Proof.
  intros Hc Hk w. unfold bind.
  specialize (Hc w). destruct (c w) as [a w1]. simpl in Hc.
  eapply R_trans; [exact Hc | apply Hk].
Qed.

Lemma steps_forEach {A : Type} (xs : list A) (body : A -> M unit) :
  (forall x, In x xs -> steps R (body x)) -> steps R (forEach xs body).
Proof.
  induction xs as [| x xs IH]; intros Hb; simpl.
  - apply steps_ret.
  - apply steps_bind; [apply Hb; now left | intros _].
    apply IH. intros y Hy. apply Hb. now right.
Qed.

Lemma steps_read {A : Type} (f : nat -> A) :
  steps R (bind fresh (fun n => ret (f n))).
Proof. apply steps_bind; [exact R_fresh | intros; apply steps_ret]. Qed.

Lemma steps_FetchFeed ctx url : steps R (main.FetchFeed env ctx url).
Proof.
  unfold main.FetchFeed. apply steps_bind; [exact R_fresh | intros n].
  destruct (rss.FetchFeed _ _ _ _ _ _) as [calls r].
  apply steps_bind; [| intros; apply steps_ret].
  apply steps_forEach. intros cr _ w. apply R_do.
Qed.

Lemma steps_storeItem feed item : ok feed -> steps R (storeItem env feed item).
Proof.
  intros Hok. unfold storeItem.
  apply steps_bind; [apply steps_read | intros id].
  apply steps_bind; [apply steps_read | intros createdAt].
  apply steps_bind; [apply steps_read | intros updatedAt].
  apply steps_bind;
    [intros w; now apply (R_create feed) | intros [p | err]].
  - apply steps_ret.
  - destruct (negb _); [intros w; apply R_print | apply steps_ret].
Qed.

Lemma steps_jobStep j : ok (feedOf j) -> steps R (jobStep env j).
Proof.
  destruct j as [feed | feed | feed [| item rest] | feed]; cbn [feedOf jobStep];
    intros Hok.
  - apply steps_bind; [intros w; now apply R_mark | intros [e |]].
    + apply steps_bind; [intros w; apply R_print | intros; apply steps_ret].
    + apply steps_ret.
  - apply steps_bind; [apply steps_FetchFeed | intros [rssFeed | e]];
      (apply steps_bind; [intros w; apply R_print | intros; apply steps_ret]).
  - apply steps_bind; [intros w; now apply R_done | intros; apply steps_ret].
  - apply steps_bind; [now apply steps_storeItem | intros; apply steps_ret].
  - apply steps_bind; [intros w; now apply R_done | intros; apply steps_ret].
Qed.

Lemma steps_finish j : ok (feedOf j) -> steps R (finish env j).
Proof.
  intros Hok w. revert Hok.
  apply (finish_by_steps env (fun j w w' => ok (feedOf j) -> R w w')).
  clear j w. intros j w.
  destruct (fst (jobStep env j w)) as [j' |] eqn:E.
  - intros w' IH Hok. eapply R_trans; [exact (steps_jobStep j Hok w) |].
    apply IH. now rewrite (jobStep_feed env j w j' E).
  - intros Hok. exact (steps_jobStep j Hok w).
Qed.

Lemma steps_scrapeFeed feed : ok feed -> steps R (scrapeFeed env feed).
Proof. intros Hok. now apply (steps_finish (JMark feed)). Qed.

Lemma steps_stepAt i : forall jobs w,
  Forall (fun j => ok (feedOf j)) jobs ->
  R w (snd (stepAt env i jobs w)) /\
  Forall (fun j => ok (feedOf j)) (fst (stepAt env i jobs w)).
Proof.
  intros jobs. revert i.
  induction jobs as [| j rest IH]; intros i w Hj; [split; [apply R_refl | constructor] |].
  inversion Hj as [| ? ? Hok Hrest]; subst.
  destruct i as [| i]; cbn [stepAt]; unfold bind.
  - pose proof (steps_jobStep j Hok w) as S.
    pose proof (jobStep_feed env j w) as Fd.
    destruct (jobStep env j w) as [[j' |] w1]; simpl in *; split; auto.
    constructor; [| exact Hrest]. now rewrite (Fd j' eq_refl).
  - destruct (IH i w Hrest) as [S F].
    destruct (stepAt env i rest w) as [rest' w1]. simpl in *.
    split; [exact S | now constructor].
Qed.

Hypothesis R_go : forall feed w, ok feed -> R w (snd (emit (EvGo feed) w)).

Lemma steps_runTick picks : forall todo jobs,
  Forall ok todo -> Forall (fun j => ok (feedOf j)) jobs ->
  steps R (runTick env picks todo jobs).
Proof.
  induction picks as [| [| i] picks IH]; intros todo jobs Ht Hj;
    [intros w; rewrite runTick_nil; revert w;
     match goal with |- forall w, R w (snd (?c w)) => change (steps R c) end
    | destruct todo as [| feed todo'];
      [| intros w; rewrite runTick_go; revert w;
         match goal with |- forall w, R w (snd (?c w)) => change (steps R c) end]
    | cbn [runTick]].
  - apply steps_bind; [| intros _].
    + apply steps_forEach. intros feed Hf w. apply R_go.
      rewrite Forall_forall in Ht. now apply Ht.
    + apply steps_forEach. intros j Hin. apply steps_finish.
      apply in_app_or in Hin. destruct Hin as [Hin | Hin].
      * rewrite Forall_forall in Hj. now apply Hj.
      * apply in_map_iff in Hin. destruct Hin as [feed [<- Hf]].
        rewrite Forall_forall in Ht. now apply Ht.
  - now apply IH.
  - inversion Ht; subst.
    apply steps_bind; [intros w; now apply R_go | intros _].
    apply IH; [assumption |]. apply Forall_app. split; [exact Hj |].
    now repeat constructor.
  - intros w. unfold bind.
    destruct (steps_stepAt i jobs w Hj) as [S F].
    destruct (stepAt env i jobs w) as [jobs' w1]. simpl in *.
    eapply R_trans; [exact S | now apply IH].
Qed.

Hypothesis R_select : forall limit w, R w (snd (GetNextFeedsToFetch env limit w)).
Hypothesis R_wait : forall w, R w (snd (emit EvWait w)).

(** A tick, when [ok] holds of the feeds it selects. *)
Lemma steps_tick C w :
  (forall fs, fst (GetNextFeedsToFetch env (int32 C) w) = inl fs -> Forall ok fs) ->
  R w (snd (scrapeFeeds env C w)).
Proof.
  intros Hsel. unfold scrapeFeeds. unfold bind at 1.
  pose proof (R_select (int32 C) w) as S.
  destruct (GetNextFeedsToFetch env (int32 C) w) as [[fs | err] w1];
    cbn [fst snd] in *;
    (eapply R_trans; [exact S |]); [| apply R_print].
  specialize (Hsel fs eq_refl).
  destruct (_ =? _)%nat; [apply R_print |].
  match goal with |- R _ (snd (?c w1)) => assert (K : steps R c) end;
    [| apply K].
  apply steps_bind; [intros w'; apply R_print | intros _].
  apply steps_bind; [intros w'; apply R_refl | intros picks].
  apply steps_bind; [| intros _ w'; apply R_wait].
  apply steps_runTick; [exact Hsel | constructor].
Qed.

Hypothesis ok_all : forall feed, ok feed.

Lemma steps_scrapeFeeds C : steps R (scrapeFeeds env C).
Proof.
  intros w. apply steps_tick. intros fs _.
  apply Forall_forall. intros; apply ok_all.
Qed.

Hypothesis R_tick : forall w, R w (snd (emit EvTick w)).

Lemma steps_aggLoop n C : steps R (aggLoop env n C).
Proof.
  induction n as [| n IH]; simpl.
  - apply steps_ret.
  - apply steps_bind; [apply steps_scrapeFeeds | intros _].
    apply steps_bind; [intros w; apply R_tick | intros _; exact IH].
Qed.

End Closed.

(** *** The events of a tick *)

Lemma returned_app a b : returned (a ++ b) = returned a ++ returned b.
Proof.
  induction a as [| e a IH]; simpl; [reflexivity |].
  destruct e; simpl; now rewrite ?IH.
Qed.

Lemma marked_app a b :
  markedIds (queries (a ++ b)) = markedIds (queries a) ++ markedIds (queries b).
Proof.
  induction a as [| e a IH]; simpl; [reflexivity |].
  destruct e as [[id | limit | arg |] | | | | | |]; simpl; now rewrite ?IH.
Qed.

Lemma inner_silent evs :
  Forall inner evs ->
  dispatched evs = [] /\ returned evs = [] /\ markedIds (queries evs) = [].
Proof.
  induction 1 as [| e evs He _ IH]; [auto |].
  destruct e as [[id | limit | arg |] | | | | | |]; simpl in *; tauto.
Qed.

Lemma storeItem_inner env feed item : appends inner (storeItem env feed item).
Proof.
  unfold storeItem.
  apply TraceFacts.appends_bind; [apply TraceFacts.uuidNew_appends | intros id].
  apply TraceFacts.appends_bind; [apply TraceFacts.timeNowUTC_appends | intros c].
  apply TraceFacts.appends_bind; [apply TraceFacts.timeNowUTC_appends | intros u].
  apply TraceFacts.appends_bind;
    [apply TraceFacts.appends_statement; exact I | intros [p | err]].
  - apply TraceFacts.appends_ret.
  - destruct (negb (err =? dupPostsUrl)%string);
      [apply TraceFacts.appends_emit; exact I | apply TraceFacts.appends_ret].
Qed.

(** What one call of a goroutine adds to the trace: no start of a
    goroutine, the update if that is the call, and the return if that
    is what it comes to. *)
Lemma jobStep_ledger env j w :
  exists evs,
    trace (snd (jobStep env j w)) = trace w ++ evs /\
    dispatched evs = [] /\
    match fst (jobStep env j w) with
    | Some j' =>
      returned evs = [] /\ markedIds (queries evs) ++ owed j' = owed j
    | None =>
      returned evs = [feedOf j] /\ markedIds (queries evs) = owed j
    end.
Proof.
  destruct j as [feed | feed | feed [| item rest] | feed]; cbn [jobStep].
  - unfold bind. rewrite Run.MarkFeedFetched_run.
    destruct (db_fault env (seq w)) as [msg |].
    + exists [EvQuery (QMarkFeedFetched (Feed.ID feed));
              EvPrint (ErrMarking (Feed.Name feed) msg)].
      unfold Printf, emit, ret. simpl. rewrite <- app_assoc. auto.
    + exists [EvQuery (QMarkFeedFetched (Feed.ID feed))]. simpl. auto.
  - unfold bind.
    destruct (TraceFacts.FetchFeed_appends inner env http.Background
                (Feed.Url feed) (fun _ _ => I) w) as [evs [T F]].
    destruct (inner_silent evs F) as [D [Rt Mk]].
    destruct (main.FetchFeed env http.Background (Feed.Url feed) w)
      as [[rssFeed | e] w1]; cbn [snd] in T; unfold Printf, emit, ret;
      cbn [fst snd trace];
      (eexists (evs ++ [EvPrint _]); rewrite T, <- app_assoc;
       split; [reflexivity |];
       rewrite TraceFacts.dispatched_app, returned_app, marked_app, D, Rt, Mk;
       simpl; auto).
  - exists [EvDone feed]. simpl. auto.
  - unfold bind.
    destruct (storeItem_inner env feed item w) as [evs [T F]].
    destruct (inner_silent evs F) as [D [Rt Mk]].
    destruct (storeItem env feed item w) as [[] w1]. cbn [fst snd ret] in *.
    exists evs. rewrite Mk. auto.
  - exists [EvDone feed]. simpl. auto.
Qed.

(** What a goroutine adds to the trace from where it is to its
    return: the update it has still to send, and its return. *)
Lemma finish_ledger env j w :
  exists evs,
    trace (snd (finish env j w)) = trace w ++ evs /\
    dispatched evs = [] /\
    returned evs = [feedOf j] /\
    markedIds (queries evs) = owed j.
Proof.
  apply (finish_by_steps env (fun j w w' =>
           exists evs,
             trace w' = trace w ++ evs /\ dispatched evs = [] /\
             returned evs = [feedOf j] /\ markedIds (queries evs) = owed j)).
  clear j w. intros j w.
  destruct (jobStep_ledger env j w) as [e1 [T1 [D1 L1]]].
  pose proof (jobStep_feed env j w) as Fd.
  destruct (fst (jobStep env j w)) as [j' |].
  - intros w' [e2 [T2 [D2 [R2 M2]]]]. destruct L1 as [R1 M1].
    exists (e1 ++ e2). rewrite T2, T1, <- app_assoc.
    rewrite TraceFacts.dispatched_app, returned_app, marked_app.
    rewrite D1, D2, R1, R2, M2, M1, (Fd j' eq_refl). auto.
  - destruct L1 as [R1 M1]. exists e1. auto.
Qed.

Lemma drain_ledger env js : forall w,
  exists evs,
    trace (snd (forEach js (finish env) w)) = trace w ++ evs /\
    dispatched evs = [] /\
    returned evs = map feedOf js /\
    markedIds (queries evs) = flat_map owed js.
Proof.
  induction js as [| j js IH]; intros w.
  - exists []. simpl. rewrite app_nil_r. auto.
  - rewrite forEach_cons.
    destruct (finish_ledger env j w) as [e1 [T1 [D1 [R1 M1]]]].
    destruct (IH (snd (finish env j w))) as [e2 [T2 [D2 [R2 M2]]]].
    exists (e1 ++ e2). rewrite T2, T1, <- app_assoc.
    rewrite TraceFacts.dispatched_app, returned_app, marked_app.
    rewrite D1, D2, R1, R2, M1, M2. auto.
Qed.

Lemma stepAt_ledger env : forall jobs i w,
  exists evs,
    trace (snd (stepAt env i jobs w)) = trace w ++ evs /\
    dispatched evs = [] /\
    Permutation (returned evs ++ map feedOf (fst (stepAt env i jobs w)))
                (map feedOf jobs) /\
    Permutation (markedIds (queries evs) ++ flat_map owed (fst (stepAt env i jobs w)))
                (flat_map owed jobs).
Proof.
  induction jobs as [| j rest IH]; intros i w.
  - exists []. simpl. rewrite app_nil_r. auto.
  - destruct i as [| i]; cbn [stepAt]; unfold bind.
    + destruct (jobStep_ledger env j w) as [evs [T [D L]]].
      pose proof (jobStep_feed env j w) as Fd.
      destruct (jobStep env j w) as [[j' |] w1]; cbn [fst snd ret] in *;
        exists evs; destruct L as [Rt Mk]; rewrite Rt;
        (split; [exact T | split; [exact D |]]).
      * cbn [map flat_map app]. rewrite (Fd j' eq_refl), app_assoc, Mk. auto.
      * cbn [map flat_map app]. rewrite Mk. auto.
    + destruct (IH i w) as [evs [T [D [Pr Pm]]]].
      destruct (stepAt env i rest w) as [rest' w1]. cbn [fst snd ret] in *.
      exists evs. split; [exact T | split; [exact D |]].
      cbn [map flat_map]. split.
      * apply Permutation_sym, Permutation_cons_app, Permutation_sym, Pr.
      * rewrite app_assoc.
        rewrite (Permutation_app_comm (markedIds (queries evs)) (owed j)).
        rewrite <- app_assoc. now apply Permutation_app_head.
Qed.

(** What the loop and its goroutines add to the trace, whatever the
    picks: the goroutines are started for the feeds in their order,
    each goroutine started or running returns once, and each sends
    the update it has still to send once. *)
Lemma runTick_ledger env picks : forall todo jobs w,
  exists evs,
    trace (snd (runTick env picks todo jobs w)) = trace w ++ evs /\
    dispatched evs = todo /\
    Permutation (returned evs) (map feedOf jobs ++ todo) /\
    Permutation (markedIds (queries evs)) (flat_map owed jobs ++ map Feed.ID todo).
Proof.
  induction picks as [| [| i] picks IH]; intros todo jobs w;
    [rewrite runTick_nil
    | destruct todo as [| feed todo']; [| rewrite runTick_go]
    | cbn [runTick]].
  - unfold bind. rewrite TraceFacts.forEach_emit.
    match goal with |- context [forEach ?js (finish env) ?w1] =>
      destruct (drain_ledger env js w1) as [evs [T [D [Rt Mk]]]]
    end.
    cbn [trace] in T. exists (map EvGo todo ++ evs).
    rewrite T, <- app_assoc. split; [reflexivity |].
    rewrite TraceFacts.dispatched_app, returned_app, marked_app.
    rewrite TraceFacts.dispatched_go, D, Rt, Mk, app_nil_r.
    assert (G : returned (map EvGo todo) = [] /\
                markedIds (queries (map EvGo todo)) = []).
    { clear. induction todo; simpl; auto. }
    destruct G as [-> ->]. cbn [app].
    rewrite map_app, flat_map_app, map_map. cbn [feedOf].
    rewrite map_id. split; [reflexivity | split; [reflexivity |]].
    replace (flat_map owed (map JMark todo)) with (map Feed.ID todo);
      [reflexivity |].
    clear. induction todo as [| f l IH]; simpl; [reflexivity | now rewrite <- IH].
  - apply IH.
  - unfold bind. cbn [emit].
    match goal with |- context [runTick env picks todo' ?js ?w1] =>
      destruct (IH todo' js w1) as [evs [T [D [Pr Pm]]]]
    end.
    cbn [trace] in T. exists (EvGo feed :: evs).
    rewrite T, <- app_assoc. split; [reflexivity |].
    cbn [dispatched returned queries]. rewrite D.
    split; [reflexivity |]. split.
    + rewrite Pr, map_app, <- app_assoc. reflexivity.
    + rewrite Pm, flat_map_app, <- app_assoc. reflexivity.
  - unfold bind.
    destruct (stepAt_ledger env jobs i w) as [e1 [T1 [D1 [Pr1 Pm1]]]].
    destruct (stepAt env i jobs w) as [jobs' w1]. cbn [fst snd] in *.
    destruct (IH todo jobs' w1) as [e2 [T2 [D2 [Pr2 Pm2]]]].
    exists (e1 ++ e2). rewrite T2, T1, <- app_assoc.
    rewrite TraceFacts.dispatched_app, returned_app, marked_app, D1, D2.
    split; [reflexivity | split; [reflexivity |]]. split.
    + rewrite Pr2, app_assoc. now apply Permutation_app_tail.
    + rewrite Pm2, app_assoc. now apply Permutation_app_tail.
Qed.

End Goroutines.

(** ** The tick: [scrapeFeeds] *)

Module Tick.
Import database main Spec More.

Lemma int32_le (x : Z) : - 2 ^ 31 <= x -> int32 x <= x.
Proof.
  intros H. unfold int32.
  rewrite Z.mod_eq by lia.
  assert (0 <= (x + 2 ^ 31) / 2 ^ 32) by (apply Z.div_pos; lia).
  lia.
Qed.

(** The concurrency [handlerAgg] runs its loop with is positive. *)
Lemma aggConcurrency_positive env args c :
  aggConcurrency env args = inl c -> 0 < c.
Proof.
  unfold aggConcurrency.
  destruct args as [| a0 [| a1 rest]]; try (intros E; injection E as <-; lia).
  destruct (strconv_Atoi env a1) as [n |]; [| discriminate].
  destruct (Z.ltb_spec 0 n) as [Hn | Hn]; [| discriminate].
  intros E. injection E as <-. exact Hn.
Qed.

(** What the tick run in [w] adds to the trace, read off the trace. *)
Lemma tickEvents_of env C w evs :
  trace (snd (scrapeFeeds env C w)) = trace w ++ evs ->
  tickEvents env C w = evs.
Proof.
  intros E. unfold tickEvents.
  now rewrite E, skipn_app, skipn_all, Nat.sub_diag.
Qed.

(** What [scrapeFeeds] does once the selector has answered [fs],
    whatever the scheduler does: it starts the goroutines of the
    feeds in their order, each of them sends the update of its feed
    and returns, once, and then [wg.Wait()] returns. *)
Lemma scrapeFeeds_selected env C w fs :
  fst (GetNextFeedsToFetch env (int32 C) w) = inl fs ->
  fs <> [] ->
  exists evs,
    trace (snd (scrapeFeeds env C w)) =
      trace w ++ [EvQuery (QGetNextFeedsToFetch (int32 C));
                  EvPrint (FetchingFeeds (List.length fs))]
              ++ evs ++ [EvWait] /\
    dispatched evs = fs /\
    Permutation (returned evs) fs /\
    Permutation (markedIds (queries evs)) (map Feed.ID fs).
Proof.
  intros Hsel Hne. unfold scrapeFeeds, bind.
  rewrite Run.GetNextFeedsToFetch_run in *. simpl in Hsel. rewrite Hsel.
  destruct fs as [| f fs]; [congruence |].
  cbn [List.length Nat.eqb]. unfold Printf at 1, goSchedule. cbn [emit].
  match goal with |- context [runTick env ?p ?l [] ?w1] =>
    destruct (Goroutines.runTick_ledger env p l [] w1) as [evs [E [D [Pr Pm]]]];
    destruct (runTick env p l [] w1) as [[] w2]
  end.
  cbn [snd trace] in E. exists evs. split; [| auto].
  cbn [emit snd trace]. rewrite E.
  repeat rewrite <- app_assoc. reflexivity.
Qed.

(** The tick when the selector fails or returns no feed. *)
Lemma scrapeFeeds_none env C w :
  (fst (GetNextFeedsToFetch env (int32 C) w) = inl [] \/
   exists err, fst (GetNextFeedsToFetch env (int32 C) w) = inr err) ->
  exists l,
    scrapeFeeds env C w =
    (tt, mkWorld (tables w)
           (trace w ++ [EvQuery (QGetNextFeedsToFetch (int32 C)); EvPrint l])
           (S (seq w))) /\
    (fst (GetNextFeedsToFetch env (int32 C) w) = inl [] -> l = NoFeedsToFetch).
Proof.
  unfold scrapeFeeds, bind. rewrite Run.GetNextFeedsToFetch_run. cbn [fst].
  intros [E | [err E]]; rewrite E; eexists; unfold Printf, emit; simpl;
    rewrite <- app_assoc; (split; [reflexivity |]); auto; discriminate.
Qed.

(** The workers a tick starts are the answer of the selector. *)
Lemma scrapeFeeds_dispatched env C w :
  dispatched (trace (snd (scrapeFeeds env C w))) =
  dispatched (trace w) ++
  match fst (GetNextFeedsToFetch env (int32 C) w) with
  | inl fs => fs
  | inr _ => []
  end.
Proof.
  destruct (fst (GetNextFeedsToFetch env (int32 C) w)) as [[| f fs'] | err] eqn:Hsel.
  - destruct (scrapeFeeds_none env C w) as [l [E _]]; [now left |].
    rewrite E. cbn [snd trace]. rewrite TraceFacts.dispatched_app. simpl.
    reflexivity.
  - destruct (scrapeFeeds_selected env C w (f :: fs') Hsel) as [evs [E [D _]]];
      [discriminate |].
    rewrite E. rewrite !TraceFacts.dispatched_app, D. simpl.
    now rewrite app_nil_r.
  - destruct (scrapeFeeds_none env C w) as [l [E _]]; [right; now exists err |].
    rewrite E. cbn [snd trace]. rewrite TraceFacts.dispatched_app. simpl.
    reflexivity.
Qed.

(** The goroutines of a tick, whatever the scheduler does: those
    started are the feeds selected, in their order; each returns once
    and sends the update of its feed once. *)
Lemma tick_ledger env C w :
  dispatched (tickEvents env C w) =
    match fst (GetNextFeedsToFetch env (int32 C) w) with
    | inl fs => fs
    | inr _ => []
    end /\
  Permutation (returned (tickEvents env C w))
    match fst (GetNextFeedsToFetch env (int32 C) w) with
    | inl fs => fs
    | inr _ => []
    end /\
  Permutation (markedIds (queries (tickEvents env C w)))
    (map Feed.ID
       match fst (GetNextFeedsToFetch env (int32 C) w) with
       | inl fs => fs
       | inr _ => []
       end).
Proof.
  destruct (fst (GetNextFeedsToFetch env (int32 C) w)) as [[| f fs'] | err] eqn:Hsel.
  - destruct (scrapeFeeds_none env C w) as [l [E _]]; [now left |].
    erewrite tickEvents_of by (rewrite E; reflexivity). simpl. auto.
  - destruct (scrapeFeeds_selected env C w (f :: fs') Hsel)
      as [evs [E [D [Pr Pm]]]]; [discriminate |].
    rewrite (tickEvents_of env C w _ E).
    rewrite !TraceFacts.dispatched_app, !Goroutines.returned_app,
      !Goroutines.marked_app, D.
    simpl. rewrite !app_nil_r. auto.
  - destruct (scrapeFeeds_none env C w) as [l [E _]]; [right; now exists err |].
    erewrite tickEvents_of by (rewrite E; reflexivity). simpl. auto.
Qed.

Lemma filter_drops_one {A : Type} (P : A -> bool) (l : list A) (x : A) :
  In x l -> P x = false -> (List.length (filter P l) < List.length l)%nat.
Proof.
  induction l as [| y l IH]; simpl; [tauto |].
  intros [-> | Hin] Hx.
  - rewrite Hx. pose proof (filter_length_le P l). lia.
  - specialize (IH Hin Hx). destruct (P y); simpl; lia.
Qed.

Lemma filter_none {A : Type} (P : A -> bool) (l : list A) :
  (forall x, In x l -> P x = false) -> filter P l = [].
Proof.
  induction l as [| y l IH]; simpl; intros H; [reflexivity |].
  rewrite (H y) by auto. apply IH. auto.
Qed.

Lemma filter_length_perm {A : Type} (P : A -> bool) (l l' : list A) :
  Permutation l l' -> List.length (filter P l) = List.length (filter P l').
Proof.
  induction 1 as [| x l l' _ IH | x y l | l l' l'' _ IH1 _ IH2]; simpl.
  - reflexivity.
  - destruct (P x); simpl; congruence.
  - destruct (P x), (P y); reflexivity.
  - congruence.
Qed.

(** A feed the selector returns has fewer than [limit] feeds strictly
    staler than itself. *)
Lemma selected_few_staler limit d fs f :
  sqlGetNextFeedsToFetch limit d = inl fs ->
  In f fs ->
  Z.of_nat (stalerCount f (feeds d)) < limit.
Proof.
  unfold sqlGetNextFeedsToFetch.
  destruct (Z.ltb_spec limit 0); [discriminate |].
  intros E Hin. injection E as <-.
  set (sorted := orderByLastFetched (feeds d)) in *.
  set (n := Z.to_nat limit) in *.
  assert (P : Permutation (feeds d) (firstn n sorted ++ skipn n sorted)).
  { rewrite firstn_skipn. apply Permutation_sym,
      SelectorFacts.orderByLastFetched_perm. }
  unfold stalerCount.
  rewrite (filter_length_perm (strictlyStaler f) _ _ P).
  rewrite filter_app, length_app.
  rewrite (filter_none (strictlyStaler f) (skipn n sorted)).
  - pose proof (filter_drops_one (strictlyStaler f) (firstn n sorted) f Hin) as D.
    unfold strictlyStaler at 1 in D.
    rewrite SelectorFacts.staler_refl in D. specialize (D eq_refl).
    pose proof (firstn_le_length n sorted).
    rewrite length_firstn in *. simpl. lia.
  - intros g Hg. unfold strictlyStaler.
    rewrite (SelectorFacts.sorted_split n sorted f g); auto.
    apply SelectorFacts.orderByLastFetched_sorted.
Qed.

(** A feed a tick starts a worker for has fewer than [C] feeds strictly
    staler than itself in storage. *)
Lemma dispatched_few_staler env C w fs f :
  0 < C ->
  dispatched (trace (snd (scrapeFeeds env C w))) = dispatched (trace w) ++ fs ->
  In f fs ->
  Z.of_nat (stalerCount f (feeds (tables w))) < C.
Proof.
  intros Hpos E Hin. rewrite scrapeFeeds_dispatched in E.
  apply app_inv_head in E. subst fs.
  rewrite Run.GetNextFeedsToFetch_run in Hin. simpl in Hin.
  destruct (db_fault env (seq w)); [contradiction |].
  destruct (sqlGetNextFeedsToFetch (int32 C) (tables w)) as [fs |] eqn:S;
    [| contradiction].
  pose proof (selected_few_staler _ _ _ _ S Hin).
  pose proof (int32_le C). lia.
Qed.

(** C3.  For every tick of the scheduler with configured concurrency
    [C] (positive, as [handlerAgg] makes sure) over a feed table keyed
    by identity, and whatever the Go scheduler does with the
    goroutines: the workers that [scrapeFeeds] dispatches are exactly
    the feeds the Freshness Selector returned, one worker per feed,
    started in that order: never more than [C] workers, no feed twice.
    Each worker dispatched runs: the workers that return in the tick,
    and the feeds whose update [MarkFeedFetched] is sent in the tick,
    are the feeds selected, each once, in the order the scheduler
    gives them; and when a feed was selected, the tick is the
    selector, the line that counts the feeds, the workers started and
    run to their return, and only then the return of [wg.Wait()].
    When the selector fails nothing is dispatched, and when it returns
    zero feeds nothing is dispatched, storage is left as it was and
    the tick only prints that there are no feeds to fetch. *)
Theorem scrapeFeeds_one_worker_per_selected_feed (env : Env) (C : Z) (w : World) :
  0 < C ->
  idsUnique (feeds (tables w)) ->
  exists fs,
    (fst (GetNextFeedsToFetch env (int32 C) w) = inl fs \/
     fs = [] /\ exists err, fst (GetNextFeedsToFetch env (int32 C) w) = inr err) /\
    dispatched (trace (snd (scrapeFeeds env C w))) = dispatched (trace w) ++ fs /\
    Z.of_nat (List.length fs) <= C /\
    NoDup (map Feed.ID fs) /\
    Permutation (returned (tickEvents env C w)) fs /\
    Permutation (markedIds (queries (tickEvents env C w))) (map Feed.ID fs) /\
    (fs <> [] ->
     exists evs,
       tickEvents env C w =
         [EvQuery (QGetNextFeedsToFetch (int32 C));
          EvPrint (FetchingFeeds (List.length fs))] ++ evs ++ [EvWait] /\
       dispatched evs = fs /\
       Permutation (returned evs) fs /\
       Permutation (markedIds (queries evs)) (map Feed.ID fs)) /\
    (fst (GetNextFeedsToFetch env (int32 C) w) = inl [] ->
     scrapeFeeds env C w =
     (tt, mkWorld (tables w)
            (trace w ++ [EvQuery (QGetNextFeedsToFetch (int32 C));
                         EvPrint NoFeedsToFetch])
            (S (seq w)))).
Proof.
  intros Hpos Hkey.
  assert (Hzero : fst (GetNextFeedsToFetch env (int32 C) w) = inl [] ->
     scrapeFeeds env C w =
     (tt, mkWorld (tables w)
            (trace w ++ [EvQuery (QGetNextFeedsToFetch (int32 C));
                         EvPrint NoFeedsToFetch])
            (S (seq w)))).
  { intros E. unfold scrapeFeeds, bind.
    rewrite Run.GetNextFeedsToFetch_run in *. simpl in E. rewrite E.
    simpl. unfold Printf, emit. simpl. now rewrite <- app_assoc. }
  destruct (tick_ledger env C w) as [_ [Pr Pm]].
  destruct (fst (GetNextFeedsToFetch env (int32 C) w)) as [fs | err] eqn:Hsel.
  - exists fs.
    assert (Hlen : Z.of_nat (List.length fs) <= C /\ NoDup (map Feed.ID fs)).
    { rewrite Run.GetNextFeedsToFetch_run in Hsel. simpl in Hsel.
      destruct (db_fault env (seq w)); [discriminate |].
      unfold sqlGetNextFeedsToFetch in Hsel.
      destruct (Z.ltb_spec (int32 C) 0); [discriminate |].
      injection Hsel as <-. split.
      - rewrite length_firstn. pose proof (int32_le C). lia.
      - rewrite <- firstn_map.
        apply (NoDup_app_remove_r _
                 (skipn (Z.to_nat (int32 C))
                        (map Feed.ID (orderByLastFetched (feeds (tables w)))))).
        rewrite firstn_skipn.
        eapply Permutation_NoDup; [| exact Hkey].
        apply Permutation_map, Permutation_sym,
          SelectorFacts.orderByLastFetched_perm. }
    split; [now left |]. split.
    { rewrite scrapeFeeds_dispatched, Hsel. reflexivity. }
    split; [tauto |]. split; [tauto |].
    split; [exact Pr |]. split; [exact Pm |]. split; [| exact Hzero].
    intros Hne.
    destruct (scrapeFeeds_selected env C w fs Hsel Hne) as [evs [E Rest]].
    exists evs. split; [| exact Rest].
    apply tickEvents_of. exact E.
  - exists []. split; [right; split; [reflexivity | now exists err] |].
    split. { rewrite scrapeFeeds_dispatched, Hsel. reflexivity. }
    split; [simpl; lia |]. split; [constructor |].
    split; [exact Pr |]. split; [exact Pm |].
    split; [congruence | discriminate].
Qed.

Lemma scrapeFeeds_one_worker_per_selected_feed_witness :
  exists fs,
    (fst (GetNextFeedsToFetch Fixtures.envRace (int32 2) Fixtures.w0) = inl fs \/
     fs = [] /\
     exists err,
       fst (GetNextFeedsToFetch Fixtures.envRace (int32 2) Fixtures.w0) = inr err) /\
    dispatched (trace (snd (scrapeFeeds Fixtures.envRace 2 Fixtures.w0))) =
      dispatched (trace Fixtures.w0) ++ fs /\
    Z.of_nat (List.length fs) <= 2 /\
    NoDup (map Feed.ID fs) /\
    Permutation (returned (tickEvents Fixtures.envRace 2 Fixtures.w0)) fs /\
    Permutation (markedIds (queries (tickEvents Fixtures.envRace 2 Fixtures.w0)))
                (map Feed.ID fs) /\
    (fs <> [] ->
     exists evs,
       tickEvents Fixtures.envRace 2 Fixtures.w0 =
         [EvQuery (QGetNextFeedsToFetch (int32 2));
          EvPrint (FetchingFeeds (List.length fs))] ++ evs ++ [EvWait] /\
       dispatched evs = fs /\
       Permutation (returned evs) fs /\
       Permutation (markedIds (queries evs)) (map Feed.ID fs)) /\
    (fst (GetNextFeedsToFetch Fixtures.envRace (int32 2) Fixtures.w0) = inl [] ->
     scrapeFeeds Fixtures.envRace 2 Fixtures.w0 =
     (tt, mkWorld (tables Fixtures.w0)
            (trace Fixtures.w0 ++ [EvQuery (QGetNextFeedsToFetch (int32 2));
                                   EvPrint NoFeedsToFetch])
            (S (seq Fixtures.w0)))).
Proof.
  apply (scrapeFeeds_one_worker_per_selected_feed Fixtures.envRace 2 Fixtures.w0).
  - lia.
  - unfold idsUnique. simpl.
    repeat constructor; simpl; intuition discriminate.
Defined.

(** The tick of two feeds in which the scheduler lets the goroutine
    started second run first: the loop starts [A] then [B], the
    updates are sent for [B] then [A], and [B] returns before [A]. *)
Example goroutines_overtake :
  fst (GetNextFeedsToFetch Fixtures.envRace (int32 2) Fixtures.w0) =
    inl [Fixtures.feedA; Fixtures.feedB] /\
  dispatched (tickEvents Fixtures.envRace 2 Fixtures.w0) =
    [Fixtures.feedA; Fixtures.feedB] /\
  markedIds (queries (tickEvents Fixtures.envRace 2 Fixtures.w0)) = [2%N; 1%N] /\
  returned (tickEvents Fixtures.envRace 2 Fixtures.w0) =
    [Fixtures.feedB; Fixtures.feedA].
Proof. vm_compute. auto. Qed.

End Tick.


(** ** Relations the engine keeps between the tables *)

Module Keeps.
Import database main.

Section Relation.
Variable R : Tables -> Tables -> Prop.
Hypothesis R_refl : forall d, R d d.
Hypothesis R_trans : forall a b c, R a b -> R b c -> R a c.

Lemma preserves_ret {A : Type} (a : A) : preserves R (ret a).
Proof. intros w. apply R_refl. Qed.

Lemma preserves_emit e : preserves R (emit e).
Proof. intros w. apply R_refl. Qed.

Lemma preserves_fresh : preserves R fresh.
Proof. intros w. apply R_refl. Qed.

Lemma preserves_bind {A B : Type} (c : M A) (k : A -> M B) :
  preserves R c -> (forall a, preserves R (k a)) -> preserves R (bind c k).
Proof.
  intros Hc Hk w. unfold bind.
  specialize (Hc w). destruct (c w) as [a w1]. simpl in Hc.
  eapply R_trans; [exact Hc | apply Hk].
Qed.

Lemma preserves_forEach {A : Type} (xs : list A) (body : A -> M unit) :
  (forall x, preserves R (body x)) -> preserves R (forEach xs body).
Proof.
  intros Hb. induction xs as [| x xs IH]; simpl.
  - apply preserves_ret.
  - apply preserves_bind; auto.
Qed.

Lemma preserves_statement {A : Type} env q
    (run : nat -> Tables -> (A + string) * Tables) :
  (forall n d, R d (snd (run n d))) -> preserves R (statement env q run).
Proof.
  intros Hrun w. rewrite Run.statement_run.
  destruct (db_fault env (seq w)); simpl; auto.
Qed.

Lemma preserves_FetchFeed env ctx url : preserves R (main.FetchFeed env ctx url).
Proof.
  unfold main.FetchFeed.
  apply preserves_bind; [apply preserves_fresh | intros n].
  destruct (rss.FetchFeed _ _ _ _ _ _) as [calls r].
  apply preserves_bind; [| intros; apply preserves_ret].
  apply preserves_forEach. intros. apply preserves_emit.
Qed.

Hypothesis R_mark : forall now id d, R d (sqlMarkFeedFetched now id d).
Hypothesis R_create : forall arg d, R d (snd (sqlCreatePost arg d)).

Lemma preserves_storeItem env feed item : preserves R (storeItem env feed item).
Proof.
  unfold storeItem, uuidNew, timeNowUTC.
  apply preserves_bind;
    [apply preserves_bind; [apply preserves_fresh | intros; apply preserves_ret] |].
  intros id.
  apply preserves_bind;
    [apply preserves_bind; [apply preserves_fresh | intros; apply preserves_ret] |].
  intros createdAt.
  apply preserves_bind;
    [apply preserves_bind; [apply preserves_fresh | intros; apply preserves_ret] |].
  intros updatedAt.
  apply preserves_bind; [apply preserves_statement; intros; apply R_create |].
  intros [p | err]; [apply preserves_ret |].
  destruct (negb _); [apply preserves_emit | apply preserves_ret].
Qed.

Lemma preserves_storeItems env feed items : preserves R (storeItems env feed items).
Proof. apply preserves_forEach. intros. apply preserves_storeItem. Qed.

Lemma preserves_scrapeFeed env feed : preserves R (scrapeFeed env feed).
Proof.
  unfold scrapeFeed, scrapeFeedBody, fetchAndStore, MarkFeedFetched.
  apply preserves_bind; [| intros; apply preserves_emit].
  apply preserves_bind.
  - apply preserves_bind; [| intros; apply preserves_ret].
    apply preserves_statement. intros; simpl. apply R_mark.
  - intros [e |]; [apply preserves_emit |].
    apply preserves_bind; [apply preserves_FetchFeed | intros [rssFeed | e]].
    + apply preserves_bind; [apply preserves_emit | intros _].
      apply preserves_storeItems.
    + apply preserves_emit.
Qed.

Lemma preserves_scrapeFeeds env C : preserves R (scrapeFeeds env C).
Proof.
  apply (Goroutines.steps_scrapeFeeds env
           (fun w w' => R (tables w) (tables w')) (fun _ => True));
    try (intros; cbn [emit fresh snd tables]; apply R_refl); auto.
  - intros a b c. apply R_trans.
  - intros feed w _. rewrite Run.MarkFeedFetched_run.
    destruct (db_fault env (seq w)); simpl; auto.
  - intros feed arg w _ _. rewrite Run.CreatePost_run.
    destruct (db_fault env (seq w)); simpl; auto.
  - intros limit w. rewrite Run.GetNextFeedsToFetch_run. simpl. apply R_refl.
Qed.

Lemma preserves_aggLoop env ticks C : preserves R (aggLoop env ticks C).
Proof.
  induction ticks as [| n IH]; simpl.
  - apply preserves_ret.
  - apply preserves_bind; [apply preserves_scrapeFeeds | intros _].
    apply preserves_bind; [apply preserves_emit | intros _; exact IH].
Qed.

End Relation.

End Keeps.


(** ** The store step *)

Module Store.
Import database main Spec.

Lemma countUrl_app u a b :
  countUrl u (a ++ b) = (countUrl u a + countUrl u b)%nat.
Proof. unfold countUrl. now rewrite filter_app, length_app. Qed.

Lemma absent_count u ps : existsb (hasUrl u) ps = false -> countUrl u ps = 0%nat.
Proof.
  unfold countUrl. induction ps as [| p ps IH]; simpl; [reflexivity |].
  destruct (hasUrl u p); simpl; [discriminate | exact IH].
Qed.

Lemma present_count u ps :
  existsb (hasUrl u) ps = true -> (1 <= countUrl u ps)%nat.
Proof.
  unfold countUrl. induction ps as [| p ps IH]; simpl; [discriminate |].
  destruct (hasUrl u p); simpl; [lia | exact IH].
Qed.

Lemma countUrl_row u arg :
  countUrl u [rowOf arg] =
  if String.eqb (CreatePostParams.Url arg) u then 1%nat else 0%nat.
Proof. unfold countUrl, hasUrl. simpl. now destruct (String.eqb _ _). Qed.

Lemma postsGrow_refl d : postsGrow d d.
Proof. split; auto. Qed.

Lemma postsGrow_trans a b c : postsGrow a b -> postsGrow b c -> postsGrow a c.
Proof.
  intros [U1 M1] [U2 M2]. split; [auto |].
  intros u. specialize (M1 u). specialize (M2 u). lia.
Qed.

Lemma postsGrow_mark now id d : postsGrow d (sqlMarkFeedFetched now id d).
Proof. split; simpl; auto. Qed.

Lemma postsGrow_create arg d : postsGrow d (snd (sqlCreatePost arg d)).
Proof.
  unfold sqlCreatePost.
  destruct (existsb _ _) eqn:E; simpl; [apply postsGrow_refl |].
  split.
  - intros U u. cbn [posts]. rewrite countUrl_app, countUrl_row.
    destruct (String.eqb_spec (CreatePostParams.Url arg) u) as [<- |].
    + rewrite (absent_count _ _ E). lia.
    + specialize (U u). lia.
  - intros u. cbn [posts]. rewrite countUrl_app. lia.
Qed.

(** The engine as a whole only adds posts and keeps their URLs unique. *)
Lemma aggLoop_postsGrow env ticks C : preserves postsGrow (aggLoop env ticks C).
Proof.
  apply Keeps.preserves_aggLoop.
  - apply postsGrow_refl.
  - apply postsGrow_trans.
  - apply postsGrow_mark.
  - apply postsGrow_create.
Qed.

Lemma storeItems_postsGrow env feed items :
  preserves postsGrow (storeItems env feed items).
Proof.
  apply Keeps.preserves_storeItems.
  - apply postsGrow_refl.
  - apply postsGrow_trans.
  - apply postsGrow_create.
Qed.

(** One turn of the loop over the items, spelled out. *)
Lemma storeItem_run env feed item w :
  storeItem env feed item w =
  let arg := paramsAt env feed item (seq w) in
  let tr := trace w ++ [EvQuery (QCreatePost arg)] in
  match db_fault env (3 + seq w) with
  | Some msg =>
    (tt, mkWorld (tables w)
           (if negb (String.eqb msg dupPostsUrl)
            then tr ++ [EvPrint (ErrCreatingPost (rss.Title item) msg)] else tr)
           (4 + seq w))
  | None =>
    (tt, mkWorld (snd (sqlCreatePost arg (tables w))) tr (4 + seq w))
  end.
Proof.
  unfold storeItem, uuidNew, timeNowUTC, bind, fresh, ret. cbn [seq tables trace].
  rewrite Run.CreatePost_run. cbn [seq tables trace].
  fold (paramsAt env feed item (seq w)). cbn [Nat.add].
  destruct (db_fault env (S (S (S (seq w))))) as [msg |].
  - destruct (negb (String.eqb msg dupPostsUrl)); reflexivity.
  - cbn zeta. unfold sqlCreatePost.
    destruct (existsb _ _); cbn [fst snd]; [| reflexivity].
    rewrite String.eqb_refl. reflexivity.
Qed.

Lemma queries_app a b : queries (a ++ b) = queries a ++ queries b.
Proof.
  induction a as [| e a IH]; simpl; [reflexivity |].
  destruct e; simpl; now rewrite ?IH.
Qed.

Lemma printed_app a b : printed (a ++ b) = printed a ++ printed b.
Proof.
  induction a as [| e a IH]; simpl; [reflexivity |].
  destruct e; simpl; now rewrite ?IH.
Qed.

(** What one turn adds to the trace and to the sequence number. *)
Lemma storeItem_effects env feed item w :
  exists evs,
    trace (snd (storeItem env feed item w)) = trace w ++ evs /\
    queries evs = [QCreatePost (paramsAt env feed item (seq w))] /\
    printed evs = otherErrors env [item] (seq w) /\
    seq (snd (storeItem env feed item w)) = (4 + seq w)%nat /\
    feeds (tables (snd (storeItem env feed item w))) = feeds (tables w) /\
    (db_fault env (3 + seq w) = None ->
     (1 <= countUrl (rss.Link item)
             (posts (tables (snd (storeItem env feed item w)))))%nat).
Proof.
  rewrite storeItem_run. cbn zeta. cbn [otherErrors].
  destruct (db_fault env (3 + seq w)) as [msg |].
  - destruct (negb (String.eqb msg dupPostsUrl)).
    + exists [EvQuery (QCreatePost (paramsAt env feed item (seq w)));
              EvPrint (ErrCreatingPost (rss.Title item) msg)].
      cbn [snd trace seq tables]. rewrite <- app_assoc.
      repeat split; try reflexivity. discriminate.
    + exists [EvQuery (QCreatePost (paramsAt env feed item (seq w)))].
      cbn [snd trace seq tables]. repeat split; try reflexivity. discriminate.
  - exists [EvQuery (QCreatePost (paramsAt env feed item (seq w)))].
    cbn [snd trace seq tables]. repeat split; try reflexivity.
    + unfold sqlCreatePost. now destruct (existsb _ _).
    + intros _. unfold sqlCreatePost.
      destruct (existsb _ _) eqn:E; cbn [snd posts].
      * now apply present_count.
      * rewrite countUrl_app, countUrl_row. cbn [paramsAt CreatePostParams.Url].
        rewrite String.eqb_refl. lia.
Qed.

Lemma storeItems_effects env feed items : forall w,
  exists evs,
    trace (snd (storeItems env feed items w)) = trace w ++ evs /\
    insertedUrls (queries evs) = map rss.Link items /\
    List.length (queries evs) = List.length items /\
    printed evs = otherErrors env items (seq w) /\
    feeds (tables (snd (storeItems env feed items w))) = feeds (tables w) /\
    (forall k item,
       nth_error items k = Some item ->
       db_fault env (3 + 4 * k + seq w) = None ->
       (1 <= countUrl (rss.Link item)
               (posts (tables (snd (storeItems env feed items w)))))%nat).
Proof.
  induction items as [| x items IH]; intros w.
  - exists []. simpl. rewrite app_nil_r. repeat split; try reflexivity.
    intros [| k] item; discriminate.
  - unfold storeItems in *. cbn [forEach]. unfold bind.
    destruct (storeItem_effects env feed x w) as [e1 [T1 [Q1 [P1 [S1 [F1 C1]]]]]].
    destruct (storeItem env feed x w) as [[] w1]. cbn [snd] in *.
    destruct (IH w1) as [e2 [T2 [Q2 [L2 [P2 [F2 C2]]]]]].
    exists (e1 ++ e2). repeat split.
    + rewrite T2, T1. now rewrite app_assoc.
    + rewrite queries_app, Q1. cbn [app insertedUrls flat_map].
      fold (insertedUrls (queries e2)). rewrite Q2. reflexivity.
    + rewrite queries_app, Q1, length_app, L2. reflexivity.
    + rewrite printed_app, P1, P2, S1. cbn [otherErrors].
      now rewrite app_nil_r.
    + congruence.
    + intros [| k] item Hk Hf.
      * cbn [nth_error] in Hk. injection Hk as ->.
        replace (3 + 4 * 0 + seq w)%nat with (3 + seq w)%nat in Hf by lia.
        specialize (C1 Hf).
        pose proof (storeItems_postsGrow env feed items w1) as [_ G].
        specialize (G (rss.Link item)). unfold storeItems in G. lia.
      * cbn [nth_error] in Hk. apply (C2 k item Hk).
        rewrite S1. rewrite <- Hf. f_equal. lia.
Qed.

Lemma otherErrors_not_duplicate env items : forall n title,
  ~ In (ErrCreatingPost title dupPostsUrl) (otherErrors env items n).
Proof.
  induction items as [| x items IH]; intros n title; simpl; [tauto |].
  rewrite in_app_iff. intros [H | H]; [| now apply IH in H].
  destruct (db_fault env (S (S (S n)))) as [msg |]; [| contradiction].
  destruct (negb (String.eqb msg dupPostsUrl)) eqn:E; [| contradiction].
  destruct H as [H | []]. injection H as _ Hm.
  rewrite Hm, String.eqb_refl in E. discriminate.
Qed.

Lemma otherErrors_quiet env items : forall n,
  (forall k, (k < List.length items)%nat -> db_fault env (3 + 4 * k + n) = None) ->
  otherErrors env items n = [].
Proof.
  induction items as [| x items IH]; intros n H; simpl; [reflexivity |].
  rewrite (IH (S (S (S (S n))))).
  - specialize (H 0%nat). simpl in H. rewrite H by lia. reflexivity.
  - intros k Hk. specialize (H (S k)). simpl in H.
    rewrite <- H by lia. f_equal. lia.
Qed.

(** C1.  For every feed and every sequence of items that the store
    step of the worker processes, over storage whose post URLs are
    unique: the step returns nothing to its caller; it attempts one
    insert per item, in order, keyed by the item's link, whatever the
    earlier inserts did; it prints exactly the lines owed to the items
    whose insert failed with an error other than the uniqueness
    violation on [posts_url_key], so a uniqueness violation prints
    nothing and an answered step prints nothing at all; the post URLs
    stay unique; and an item whose insert storage answered has exactly
    one stored post under its URL, after the step and after any number
    of further ticks of the engine, whatever they insert.  Each
    statement of the engine keeps the URLs unique and the posts it
    found, so this does not depend on the order in which storage
    serves the workers. *)
Theorem store_step_dedups_and_isolates
    (env : Env) (feed : Feed.t) (items : list rss.RSSItem) (w : World) :
  urlsUnique (posts (tables w)) ->
  fst (storeItems env feed items w) = tt /\
  (exists evs,
     trace (snd (storeItems env feed items w)) = trace w ++ evs /\
     insertedUrls (queries evs) = map rss.Link items /\
     List.length (queries evs) = List.length items /\
     printed evs = otherErrors env items (seq w) /\
     (forall title, ~ In (ErrCreatingPost title dupPostsUrl) (printed evs)) /\
     ((forall k, (k < List.length items)%nat ->
                 db_fault env (3 + 4 * k + seq w) = None) ->
      printed evs = [])) /\
  urlsUnique (posts (tables (snd (storeItems env feed items w)))) /\
  (forall k item,
     nth_error items k = Some item ->
     db_fault env (3 + 4 * k + seq w) = None ->
     forall ticks C,
       countUrl (rss.Link item)
         (posts (tables (snd (aggLoop env ticks C
                                (snd (storeItems env feed items w)))))) = 1%nat) /\
  (forall arg d, postsGrow d (snd (sqlCreatePost arg d))) /\
  (forall now id d, postsGrow d (sqlMarkFeedFetched now id d)).
Proof.
  intros U.
  destruct (storeItems_effects env feed items w) as [evs [T [Q [L [P [F Cnt]]]]]].
  pose proof (storeItems_postsGrow env feed items w) as [U' _].
  specialize (U' U).
  repeat split.
  - now destruct (fst (storeItems env feed items w)).
  - exists evs. repeat split; try assumption.
    + intros title. rewrite P. apply otherErrors_not_duplicate.
    + intros Hq. rewrite P. now apply otherErrors_quiet.
  - exact U'.
  - intros k item Hk Hf ticks C.
    specialize (Cnt k item Hk Hf).
    pose proof (aggLoop_postsGrow env ticks C
                  (snd (storeItems env feed items w))) as [U2 G2].
    specialize (U2 U' (rss.Link item)). specialize (G2 (rss.Link item)). lia.
  - apply postsGrow_create.
  - apply postsGrow_create.
  - apply postsGrow_mark.
  - apply postsGrow_mark.
Qed.

Lemma store_step_dedups_and_isolates_witness :
  countUrl (rss.Link (Fixtures.item "2"))
    (posts (tables (snd (aggLoop Fixtures.env0 1 2
       (snd (storeItems Fixtures.env0 Fixtures.feedA
               [Fixtures.item "1"; Fixtures.item "2"; Fixtures.item "3"]
               Fixtures.w1)))))) = 1%nat.
Proof.
  refine (proj1 (proj2 (proj2 (proj2
    (store_step_dedups_and_isolates Fixtures.env0 Fixtures.feedA
       [Fixtures.item "1"; Fixtures.item "2"; Fixtures.item "3"]
       Fixtures.w1 _)))) 1%nat (Fixtures.item "2") eq_refl eq_refl 1%nat 2).
  intros u. unfold countUrl. simpl. destruct (hasUrl u _); simpl; lia.
Defined.

(** The scenario of the store step: the reader returns three items and
    the URL of one of them is already stored; exactly two posts are
    new, nothing is printed and the step returns nothing. *)
Example store_three_items_one_known :
  let r := storeItems Fixtures.env0 Fixtures.feedA
             [Fixtures.item "1"; Fixtures.item "2"; Fixtures.item "3"]
             Fixtures.w1 in
  fst r = tt /\
  map Post.Url (posts (tables (snd r))) =
    ["http://a.example/2"; "http://a.example/1"; "http://a.example/3"]%string /\
  printed (trace (snd r)) = [] /\
  List.length (queries (trace (snd r))) = 3%nat.
Proof. vm_compute. repeat split; reflexivity. Qed.

End Store.

(** ** The fetch worker: [scrapeFeed] *)

Module Worker.
Import database main Spec.

Lemma requests_app a b : requests (a ++ b) = requests a ++ requests b.
Proof.
  induction a as [| e a IH]; simpl; [reflexivity |].
  destruct e; simpl; now rewrite ?IH.
Qed.

(** The worker when storage fails the mark-fetched update. *)
Lemma scrapeFeed_mark_failed env feed w msg :
  db_fault env (seq w) = Some msg ->
  scrapeFeed env feed w =
  (tt, mkWorld (tables w)
         (trace w ++ [EvQuery (QMarkFeedFetched (Feed.ID feed));
                      EvPrint (ErrMarking (Feed.Name feed) msg);
                      EvDone feed])
         (S (seq w))).
Proof.
  intros H. unfold scrapeFeed, scrapeFeedBody, bind.
  rewrite Run.MarkFeedFetched_run, H. unfold Printf, emit. simpl.
  now rewrite <- !app_assoc.
Qed.

(** The worker when storage applies the update: the rest runs in the
    world that already holds the new timestamp. *)
Lemma scrapeFeed_marked env feed w :
  db_fault env (seq w) = None ->
  scrapeFeed env feed w =
  bind (fetchAndStore env feed) (fun _ => emit (EvDone feed))
       (mkWorld (sqlMarkFeedFetched (db_now env (seq w)) (Feed.ID feed) (tables w))
                (trace w ++ [EvQuery (QMarkFeedFetched (Feed.ID feed))])
                (S (seq w))).
Proof.
  intros H. unfold scrapeFeed, scrapeFeedBody, bind.
  rewrite Run.MarkFeedFetched_run, H. reflexivity.
Qed.

Lemma fetchAndStore_sameFeeds env feed : preserves sameFeeds (fetchAndStore env feed).
Proof.
  unfold fetchAndStore.
  apply Keeps.preserves_bind; try (unfold sameFeeds; congruence).
  - apply Keeps.preserves_FetchFeed; unfold sameFeeds; congruence.
  - intros [rssFeed | e].
    + apply Keeps.preserves_bind; try (unfold sameFeeds; congruence).
      * apply Keeps.preserves_emit. reflexivity.
      * intros _. apply Keeps.preserves_storeItems;
          try (unfold sameFeeds; congruence).
        intros arg d. unfold sameFeeds, sqlCreatePost.
        now destruct (existsb _ _).
    + apply Keeps.preserves_emit. reflexivity.
Qed.

(** A failed fetch leaves the world of the worker as the update left
    it, but for the calls made and the line printed. *)
Lemma fetchAndStore_failed env feed w e :
  fetchOutcome env (seq w) (Feed.Url feed) = inr e ->
  fetchAndStore env feed w =
  (tt, mkWorld (tables w)
         (trace w ++ map (fun cr => EvDo (fst cr) (snd cr))
                         (fetchCalls env (seq w) (Feed.Url feed))
                  ++ [EvPrint (ErrFetching (Feed.Name feed) (rss.Error e))])
         (S (seq w))).
Proof.
  unfold fetchOutcome, fetchCalls, fetchAndStore, main.FetchFeed, bind, fresh.
  intros H. cbn [seq tables trace].
  destruct (rss.FetchFeed _ _ _ _ _ _) as [calls r]. cbn [fst snd] in *. subst r.
  rewrite (TraceFacts.forEach_emit (fun cr => EvDo (fst cr) (snd cr))).
  unfold ret, Printf, emit. cbn [seq tables trace].
  now rewrite <- app_assoc.
Qed.

Lemma markRow_frame now id f : frameOf (markRow now id f) = frameOf f.
Proof. unfold markRow. now destruct (N.eqb _ _). Qed.

Lemma markRow_other now id f : Feed.ID f <> id -> markRow now id f = f.
Proof.
  intros H. unfold markRow. destruct (N.eqb_spec (Feed.ID f) id); congruence.
Qed.

Lemma markRow_hit now id f :
  Feed.ID f = id ->
  Feed.LastFetchedAt (markRow now id f) = Some now /\
  Feed.UpdatedAt (markRow now id f) = now.
Proof. intros H. unfold markRow. rewrite H, N.eqb_refl. now split. Qed.

Lemma markRow_id now id f : Feed.ID (markRow now id f) = Feed.ID f.
Proof. unfold markRow. now destruct (N.eqb _ _). Qed.

Lemma sameFrame_refl d : sameFrame d d.
Proof. reflexivity. Qed.

Lemma sameFrame_trans a b c : sameFrame a b -> sameFrame b c -> sameFrame a c.
Proof. unfold sameFrame. congruence. Qed.

Lemma sameFrame_mark now id d : sameFrame d (sqlMarkFeedFetched now id d).
Proof.
  unfold sameFrame, sqlMarkFeedFetched. simpl. rewrite map_map.
  apply map_ext. intros f. apply markRow_frame.
Qed.

Lemma sameFrame_create arg d : sameFrame d (snd (sqlCreatePost arg d)).
Proof. unfold sameFrame, sqlCreatePost. now destruct (existsb _ _). Qed.

(** C8.  For every feed a worker runs on, if storage fails the
    mark-fetched update, the worker makes no HTTP request and attempts
    no insert, leaves the tables as they were, prints the one line that
    reports the failure and returns nothing to its caller. *)
Theorem mark_failure_aborts_worker (env : Env) (feed : Feed.t) (w : World) (msg : string) :
  db_fault env (seq w) = Some msg ->
  fst (scrapeFeed env feed w) = tt /\
  tables (snd (scrapeFeed env feed w)) = tables w /\
  exists evs,
    trace (snd (scrapeFeed env feed w)) = trace w ++ evs /\
    requests evs = [] /\
    queries evs = [QMarkFeedFetched (Feed.ID feed)] /\
    printed evs = [ErrMarking (Feed.Name feed) msg].
Proof.
  intros H. rewrite (scrapeFeed_mark_failed env feed w msg H). simpl.
  repeat split.
  eexists. split; [reflexivity |]. simpl. auto.
Qed.

Lemma mark_failure_aborts_worker_witness :
  fst (scrapeFeed Fixtures.envFault Fixtures.feedA Fixtures.w0) = tt /\
  tables (snd (scrapeFeed Fixtures.envFault Fixtures.feedA Fixtures.w0))
    = tables Fixtures.w0 /\
  exists evs,
    trace (snd (scrapeFeed Fixtures.envFault Fixtures.feedA Fixtures.w0))
      = trace Fixtures.w0 ++ evs /\
    requests evs = [] /\
    queries evs = [QMarkFeedFetched (Feed.ID Fixtures.feedA)] /\
    printed evs = [ErrMarking (Feed.Name Fixtures.feedA) "pq: connection reset"].
Proof.
  apply (mark_failure_aborts_worker Fixtures.envFault Fixtures.feedA Fixtures.w0).
  reflexivity.
Defined.

(** C9.  The mark-fetched update changes, in the rows of the feed it
    names, the last-fetched and updated-at timestamps and nothing else:
    identity, URL, display name, owning user and creation timestamp of
    every feed are as before, every other row is untouched, and no post
    changes.  Every run of the worker, and every run of the engine for
    any number of ticks, leaves these five columns of every feed as
    they were. *)
Theorem worker_changes_only_timestamps :
  (forall now id d,
     sameFrame d (sqlMarkFeedFetched now id d) /\
     posts (sqlMarkFeedFetched now id d) = posts d /\
     (forall f, Feed.ID f <> id -> markRow now id f = f) /\
     (forall f, Feed.ID f = id ->
        Feed.LastFetchedAt (markRow now id f) = Some now /\
        Feed.UpdatedAt (markRow now id f) = now)) /\
  (forall env feed w, sameFrame (tables w) (tables (snd (scrapeFeed env feed w)))) /\
  (forall env ticks C w, sameFrame (tables w) (tables (snd (aggLoop env ticks C w)))).
Proof.
  repeat split.
  - apply sameFrame_mark.
  - now apply markRow_other.
  - now apply markRow_hit.
  - now apply markRow_hit.
  - apply Keeps.preserves_scrapeFeed;
      eauto using sameFrame_refl, sameFrame_trans, sameFrame_mark, sameFrame_create.
  - apply Keeps.preserves_aggLoop;
      eauto using sameFrame_refl, sameFrame_trans, sameFrame_mark, sameFrame_create.
Qed.

Lemma requests_do calls :
  requests (map (fun cr : http.Client * http.Request => EvDo (fst cr) (snd cr)) calls)
  = calls.
Proof. induction calls as [| [c r] calls IH]; simpl; congruence. Qed.

Lemma requests_notDo evs : Forall notDo evs -> requests evs = [].
Proof.
  induction 1 as [| e evs He _ IH]; simpl; [reflexivity |].
  destruct e; simpl in *; auto. contradiction.
Qed.

Lemma FetchFeed_run env url w :
  main.FetchFeed env http.Background url w =
  (fetchOutcome env (seq w) url,
   mkWorld (tables w)
     (trace w ++ map (fun cr => EvDo (fst cr) (snd cr)) (fetchCalls env (seq w) url))
     (S (seq w))).
Proof.
  unfold fetchOutcome, fetchCalls, main.FetchFeed, bind, fresh.
  cbn [seq tables trace].
  destruct (rss.FetchFeed _ _ _ _ _ _) as [calls r]. cbn [fst snd].
  rewrite (TraceFacts.forEach_emit (fun cr => EvDo (fst cr) (snd cr))).
  reflexivity.
Qed.

(** The HTTP calls of the worker are those of its one fetch. *)
Lemma fetchAndStore_requests env feed w :
  exists evs,
    trace (snd (fetchAndStore env feed w)) = trace w ++ evs /\
    requests evs = fetchCalls env (seq w) (Feed.Url feed).
Proof.
  unfold fetchAndStore. unfold bind at 1. rewrite FetchFeed_run.
  set (r := fetchOutcome env (seq w) (Feed.Url feed)).
  set (calls := fetchCalls env (seq w) (Feed.Url feed)).
  set (w1 := mkWorld _ _ _).
  assert (A : appends notDo
                (match r with
                 | inl rssFeed =>
                   bind (Printf (FoundPosts (List.length (rss.Channel_Item rssFeed))
                                   (Feed.Name feed)))
                        (fun _ => storeItems env feed (rss.Channel_Item rssFeed))
                 | inr e => Printf (ErrFetching (Feed.Name feed) (rss.Error e))
                 end)).
  { destruct r as [rssFeed | e]; [| now apply TraceFacts.appends_emit].
    apply TraceFacts.appends_bind; [now apply TraceFacts.appends_emit | intros _].
    apply TraceFacts.appends_forEach. intros.
    apply TraceFacts.storeItem_appends; simpl; auto. }
  destruct (A w1) as [evs [E F]].
  exists (map (fun cr => EvDo (fst cr) (snd cr)) calls ++ evs). split.
  - rewrite E. subst w1. cbn [trace]. now rewrite app_assoc.
  - rewrite requests_app, requests_do, (requests_notDo evs F).
    apply app_nil_r.
Qed.

(** C2, as the code has it.  For every feed a worker runs on, the
    mark-fetched update is the first thing the worker does and the HTTP
    calls of its fetch come after it; if the update succeeds at time
    [t], every row of that feed has last-fetched timestamp [t] when the
    worker returns, whatever the fetch did, and when the fetch fails
    the tables are exactly as the update left them.  A later tick with
    concurrency [C] starts a worker for a feed only if fewer than [C]
    feeds in storage are strictly staler than it, that is only when it
    is again among the [C] least recently fetched feeds. *)
Theorem mark_precedes_fetch (env : Env) (feed : Feed.t) (w : World) :
  db_fault env (seq w) = None ->
  (exists evs,
     trace (snd (scrapeFeed env feed w)) =
       trace w ++ EvQuery (QMarkFeedFetched (Feed.ID feed)) :: evs /\
     requests evs = fetchCalls env (S (seq w)) (Feed.Url feed)) /\
  feeds (tables (snd (scrapeFeed env feed w))) =
    map (markRow (db_now env (seq w)) (Feed.ID feed)) (feeds (tables w)) /\
  (forall f,
     In f (feeds (tables (snd (scrapeFeed env feed w)))) ->
     Feed.ID f = Feed.ID feed ->
     Feed.LastFetchedAt f = Some (db_now env (seq w))) /\
  (forall e,
     fetchOutcome env (S (seq w)) (Feed.Url feed) = inr e ->
     tables (snd (scrapeFeed env feed w)) =
       sqlMarkFeedFetched (db_now env (seq w)) (Feed.ID feed) (tables w)) /\
  (forall env' C w' fs f,
     0 < C ->
     dispatched (trace (snd (scrapeFeeds env' C w'))) = dispatched (trace w') ++ fs ->
     In f fs ->
     Z.of_nat (stalerCount f (feeds (tables w'))) < C).
Proof.
  intros Hok.
  rewrite (scrapeFeed_marked env feed w Hok).
  set (w1 := mkWorld _ _ _).
  assert (Hfeeds : feeds (tables (snd (bind (fetchAndStore env feed)
                                         (fun _ => emit (EvDone feed)) w1)))
                   = map (markRow (db_now env (seq w)) (Feed.ID feed))
                         (feeds (tables w))).
  { unfold bind. pose proof (fetchAndStore_sameFeeds env feed w1) as S.
    destruct (fetchAndStore env feed w1) as [[] w2]. exact S. }
  repeat split.
  - unfold bind.
    destruct (fetchAndStore_requests env feed w1) as [evs [E R]].
    destruct (fetchAndStore env feed w1) as [[] w2]. cbn [snd] in *.
    exists (evs ++ [EvDone feed]). split.
    + cbn [emit snd trace]. rewrite E. subst w1. cbn [trace].
      now rewrite <- !app_assoc.
    + rewrite requests_app, R. subst w1. cbn [seq requests]. apply app_nil_r.
  - exact Hfeeds.
  - intros f Hin Hid. rewrite Hfeeds in Hin.
    apply in_map_iff in Hin. destruct Hin as [g [<- _]].
    rewrite markRow_id in Hid. now apply markRow_hit.
  - intros e He. unfold bind.
    rewrite (fetchAndStore_failed env feed w1 e He). reflexivity.
  - intros env' C w' fs f. apply Tick.dispatched_few_staler.
Qed.

Lemma mark_precedes_fetch_witness :
  Feed.LastFetchedAt (markRow 7200000000 1%N Fixtures.feedA) = Some 7200000000.
Proof.
  refine (proj1 (proj2 (proj2
    (mark_precedes_fetch Fixtures.envDown Fixtures.feedA Fixtures.wAB eq_refl)))
    (markRow 7200000000 1%N Fixtures.feedA) _ eq_refl).
  vm_compute. left. reflexivity.
Defined.

(** C2 as stated fails in its last clause.  Two feeds, concurrency 2,
    the network down: the first tick marks [A] and then [B] and both
    fetches fail; the next tick fetches [B] again although [A] is
    strictly staler, so [B] is not the least recently fetched feed. *)
Lemma refetched_while_another_is_staler :
  let w1 := snd (scrapeFeeds Fixtures.envDown 2 Fixtures.wAB) in
  let A1 := markRow 7200000001 1%N Fixtures.feedA in
  let B1 := markRow 7200000003 2%N Fixtures.feedB in
  feeds (tables w1) = [A1; B1] /\
  printed (trace w1) =
    [FetchingFeeds 2;
     ErrFetching "A" "dial tcp: connection refused";
     ErrFetching "B" "dial tcp: connection refused"] /\
  newlyDispatched Fixtures.envDown 2 w1 = [A1; B1] /\
  Feed.LastFetchedAt B1 = Some 7200000003 /\
  ~ leastRecentlyFetched (feeds (tables w1)) B1.
Proof.
  cbv zeta. split; [vm_compute; reflexivity |].
  split; [vm_compute; reflexivity |].
  split; [vm_compute; reflexivity |].
  split; [vm_compute; reflexivity |].
  intros L.
  specialize (L (markRow 7200000001 1%N Fixtures.feedA)).
  assert (E : staler (markRow 7200000003 2%N Fixtures.feedB)
                     (markRow 7200000001 1%N Fixtures.feedA) = true).
  { apply L. vm_compute. left. reflexivity. }
  vm_compute in E. discriminate.
Qed.

End Worker.


(** ** The feed reader: [rss.FetchFeed] *)

Module Reader.
Import rss.

Section Oracles.
Variable NewRequest_err : string -> option string.
Variable xml_Unmarshal : string -> RSSFeed + string.
Variable html_UnescapeString : string -> string.

Local Abbreviation fetch :=
  (FetchFeed NewRequest_err xml_Unmarshal html_UnescapeString).

(** [FetchFeed] spelled out for a URL the request constructor accepts. *)
Lemma FetchFeed_accepted do ctx url :
  NewRequest_err url = None ->
  fetch do ctx url =
  ([(http.mkClient 0, feedRequest ctx url)],
   match do (http.mkClient 0) (feedRequest ctx url) with
   | inr err => inr (ErrDo err)
   | inl resp =>
     match http.Body resp with
     | inr err => inr (ErrReadAll err)
     | inl body =>
       match xml_Unmarshal body with
       | inr err => inr (ErrUnmarshal err)
       | inl feed => inl (unescapeFeed html_UnescapeString feed)
       end
     end
   end).
Proof.
  intros H. unfold fetch, FetchFeed, feedRequest. rewrite H. simpl.
  destruct (do _ _) as [resp | err]; [| reflexivity].
  destruct (http.Body resp) as [body | err]; [| reflexivity].
  destruct (xml_Unmarshal body); reflexivity.
Qed.

Lemma FetchFeed_refused do ctx url err :
  NewRequest_err url = Some err ->
  fetch do ctx url = ([], inr (ErrNewRequest err)).
Proof. intros H. unfold fetch, FetchFeed. now rewrite H. Qed.

(** C6, as the code has it.  For every URL and every context of the
    caller, the Feed Reader calls [client.Do] at most once: exactly
    once, with a GET request for that URL that carries the caller's
    context and the header [User-Agent: gator], when the request
    constructor accepts the URL, and not at all when it refuses it.
    The client sets no timeout, so the request is bounded in time
    exactly when the caller's context has a deadline; the context the
    worker passes, [context.Background()], has none. *)
Theorem FetchFeed_one_get (do : http.RoundTrip) (ctx : http.Context) (url : string) :
  (NewRequest_err url = None ->
   fst (fetch do ctx url) = [(http.mkClient 0, feedRequest ctx url)] /\
   http.Method (feedRequest ctx url) = "GET"%string /\
   http.URL (feedRequest ctx url) = url /\
   http.Ctx (feedRequest ctx url) = ctx /\
   http.Header_Get (http.Hdr (feedRequest ctx url)) "User-Agent" = Some "gator"%string /\
   http.bounded (http.mkClient 0) (feedRequest ctx url) =
     match http.ctx_deadline ctx with Some _ => true | None => false end) /\
  (forall err, NewRequest_err url = Some err ->
     fetch do ctx url = ([], inr (ErrNewRequest err))) /\
  (List.length (fst (fetch do ctx url)) <= 1)%nat /\
  (forall c r, In (c, r) (fst (fetch do http.Background url)) ->
     http.bounded c r = false).
Proof.
  repeat split.
  - now rewrite FetchFeed_accepted.
  - now apply FetchFeed_refused.
  - destruct (NewRequest_err url) as [err |] eqn:E.
    + rewrite (FetchFeed_refused do ctx url err E). simpl. lia.
    + rewrite (FetchFeed_accepted do ctx url E). simpl. lia.
  - intros c r. destruct (NewRequest_err url) as [err |] eqn:E.
    + rewrite (FetchFeed_refused do http.Background url err E). simpl. tauto.
    + rewrite (FetchFeed_accepted do http.Background url E). simpl.
      intros [H | []]. injection H as <- <-. reflexivity.
Qed.


End Oracles.


(** C6 as stated fails.  The one request of the reader, as the worker
    makes it, under [context.Background()] and through a client
    without timeout, carries no bound in time; so it is not the case
    that every request carries one. *)
Lemma worker_request_is_unbounded :
  fst (FetchFeed (NewRequest_err Fixtures.env0) (xml_Unmarshal Fixtures.env0)
         (html_UnescapeString Fixtures.env0) Fixtures.do404 http.Background
         "http://a.example/rss")
    = [(http.mkClient 0, feedRequest http.Background "http://a.example/rss")] /\
  http.bounded (http.mkClient 0)
    (feedRequest http.Background "http://a.example/rss") = false /\
  ~ (forall (do : http.RoundTrip) (ctx : http.Context) (url : string),
       exists c r,
         fst (FetchFeed (NewRequest_err Fixtures.env0) (xml_Unmarshal Fixtures.env0)
                (html_UnescapeString Fixtures.env0) do ctx url) = [(c, r)] /\
         http.Method r = "GET"%string /\
         http.bounded c r = true /\
         http.Ctx r = ctx /\
         http.Header_Get (http.Hdr r) "User-Agent" <> None).
Proof.
  split; [reflexivity |]. split; [reflexivity |].
  intros H.
  destruct (H Fixtures.do404 http.Background "http://a.example/rss"%string)
    as [c [r [E [_ [B _]]]]].
  vm_compute in E. injection E as <- <-. discriminate B.
Qed.

End Reader.

(** ** Publish dates: [ParsePubDate] *)

Module PubDate.
Import rss.

Section AnyParser.
Variable time_Parse : string -> string -> option GoTime.Time.

Lemma tryFormats_none fs v :
  (forall f, In f fs -> time_Parse f v = None) ->
  tryFormats time_Parse fs v = None.
Proof.
  induction fs as [| f fs IH]; simpl; intros H; [reflexivity |].
  rewrite (H f) by auto. apply IH. auto.
Qed.

Lemma tryFormats_first before f after v t :
  (forall g, In g before -> time_Parse g v = None) ->
  time_Parse f v = Some t ->
  tryFormats time_Parse (before ++ f :: after) v = Some t.
Proof.
  induction before as [| g before IH]; simpl; intros Hb Hf.
  - now rewrite Hf.
  - rewrite (Hb g) by auto. apply IH; auto.
Qed.

Lemma ParsePubDate_no_error item : snd (ParsePubDate time_Parse item) = None.
Proof.
  unfold ParsePubDate. destruct (String.eqb _ _); [reflexivity |].
  now destruct (tryFormats _ _ _).
Qed.

Lemma ParsePubDate_empty item :
  PubDate item = ""%string -> fst (ParsePubDate time_Parse item) = GoTime.zeroTime.
Proof. intros H. unfold ParsePubDate. now rewrite H. Qed.

Lemma ParsePubDate_unrecognised item :
  (forall f, In f formats -> time_Parse f (PubDate item) = None) ->
  fst (ParsePubDate time_Parse item) = GoTime.zeroTime.
Proof.
  intros H. unfold ParsePubDate. destruct (String.eqb _ _); [reflexivity |].
  now rewrite tryFormats_none.
Qed.

Lemma ParsePubDate_first_wins item before f after t :
  PubDate item <> ""%string ->
  formats = before ++ f :: after ->
  (forall g, In g before -> time_Parse g (PubDate item) = None) ->
  time_Parse f (PubDate item) = Some t ->
  fst (ParsePubDate time_Parse item) = t.
Proof.
  intros Hne Hf Hb Ht. unfold ParsePubDate.
  destruct (String.eqb_spec (PubDate item) ""); [contradiction |].
  rewrite Hf. now rewrite (tryFormats_first before f after _ t).
Qed.

End AnyParser.

(** How [nextStdChunk] reads the first format: the weekday, then the
    literal text up to the next element. *)
Example RFC1123Z_first_chunks :
  GoTime.nextStdChunk GoTime.RFC1123Z
    = (""%string, Some GoTime.stdWeekDay, ", 02 Jan 2006 15:04:05 -0700"%string) /\
  GoTime.nextStdChunk ", 02 Jan 2006 15:04:05 -0700"
    = (", "%string, Some GoTime.stdZeroDay, " Jan 2006 15:04:05 -0700"%string) /\
  GoTime.nextStdChunk " -0700" = (" "%string, Some GoTime.stdNumTZ, ""%string) /\
  GoTime.nextStdChunk "" = (""%string, None, ""%string).
Proof. repeat split; reflexivity. Qed.

(** C7.  Publish-date normalisation tries the formats in their order
    and the first that parses decides; it never returns an error, for
    any input and any behaviour of [time.Parse]; the empty string and
    every string that none of the formats parses give the zero
    timestamp.  With Go's [time.Parse], in whatever local time zone,
    the input ["Mon, 02 Jan 2006 15:04:05 -0700"] gives the instant it
    encodes, 22:04:05 UTC on 2 January 2006, Unix time 1136239445, and
    an input such as ["yesterday"] gives the zero timestamp. *)
Theorem ParsePubDate_best_effort :
  (forall time_Parse item, snd (ParsePubDate time_Parse item) = None) /\
  (forall time_Parse item,
     PubDate item = ""%string ->
     fst (ParsePubDate time_Parse item) = GoTime.zeroTime) /\
  (forall time_Parse item,
     (forall f, In f formats -> time_Parse f (PubDate item) = None) ->
     fst (ParsePubDate time_Parse item) = GoTime.zeroTime) /\
  (forall time_Parse item before f after t,
     PubDate item <> ""%string ->
     formats = before ++ f :: after ->
     (forall g, In g before -> time_Parse g (PubDate item) = None) ->
     time_Parse f (PubDate item) = Some t ->
     fst (ParsePubDate time_Parse item) = t) /\
  (forall lookupName title link description,
     ParsePubDate (GoTime.Parse lookupName)
       (mkRSSItem title link description "Mon, 02 Jan 2006 15:04:05 -0700")
     = (GoTime.mkTime 1136239445 0, None) /\
     GoTime.mkTime 1136239445 0 = GoTime.Date 2006 1 2 22 4 5 0 /\
     ParsePubDate (GoTime.Parse lookupName)
       (mkRSSItem title link description "yesterday")
     = (GoTime.zeroTime, None) /\
     ParsePubDate (GoTime.Parse lookupName)
       (mkRSSItem title link description "")
     = (GoTime.zeroTime, None)).
Proof.
  split; [exact ParsePubDate_no_error |].
  split; [exact ParsePubDate_empty |].
  split; [exact ParsePubDate_unrecognised |].
  split; [exact ParsePubDate_first_wins |].
  intros lookupName title link description.
  repeat split; vm_compute; reflexivity.
Qed.

End PubDate.


(** ** The aggregation loop: goroutines, wait group and ticker *)

Module Loop.
Import Sched.

Lemma removeWorker_Forall (P : nat * database.UUID -> Prop) x l :
  Forall P l -> Forall P (removeWorker x l).
Proof.
  induction 1 as [| y l Hy Hl IH]; simpl; [constructor |].
  destruct (worker_eqb x y); [assumption | now constructor].
Qed.

Lemma removeWorker_length x l :
  existsb (worker_eqb x) l = true ->
  List.length (removeWorker x l) = Nat.pred (List.length l).
Proof.
  induction l as [| y l IH]; simpl; [discriminate |].
  destruct (worker_eqb x y); simpl; [reflexivity |].
  intros H. rewrite (IH H). destruct l; [discriminate | reflexivity].
Qed.

Section Invariant.
Variable t0 d : Z.
Variable C : nat.
Hypothesis d_pos : 0 < d.

Lemma init_inv : loopInv t0 d C (init t0).
Proof. unfold loopInv, init, pending; simpl. repeat split; auto; lia. Qed.

Lemma step_inv a s s' :
  loopInv t0 d C s -> step t0 d C a s = Some s' -> loopInv t0 d C s'.
Proof.
  unfold loopInv, pending.
  intros (Iwg & Iturn & Icap & Iidle & Igrid & Irate & Ibegan & Iret & Iord) Hs.
  destruct a; unfold step, nextFire in Hs.
  - (* Pass *)
    destruct (_ && _) eqn:G; [| discriminate]. injection Hs as <-.
    apply andb_prop in G. destruct G as [G1 G2].
    apply Z.leb_le in G1, G2. cbn [now pc turn began returned wg inflight fired buffered List.length] in *.
    repeat split; auto; try lia.
    all: try (destruct (pc s); lia).
  - (* Fire *)
    destruct (Z.eqb_spec (now s) (t0 + d * (Z.of_nat (fired s) + 1)));
      [| discriminate].
    injection Hs as <-. cbn [now pc turn began returned wg inflight fired buffered List.length] in *.
    repeat split; auto; try lia.
    all: try (destruct (buffered s); lia).
  - (* Select *)
    destruct (pc s) eqn:Hpc; try discriminate.
    destruct (Nat.leb_spec (List.length feeds) C); [| discriminate].
    destruct feeds as [| f feeds]; injection Hs as <-;
      cbn [now pc turn began returned wg inflight fired buffered List.length] in *;
      repeat split; auto; try lia.
    all: try (rewrite Iidle; simpl; lia).
  - (* Go *)
    destruct (pc s) as [| [| feed rest] | |] eqn:Hpc; try discriminate.
    injection Hs as <-. cbn [now pc turn began returned wg inflight fired buffered List.length] in *.
    repeat split; auto; try lia.
    all: try (rewrite length_app; simpl; lia).
    all: try (apply Forall_app; split; [assumption | now repeat constructor]).
  - (* EndRange *)
    destruct (pc s) as [| [| feed rest] | |] eqn:Hpc; try discriminate.
    injection Hs as <-. cbn [now pc turn began returned wg inflight fired buffered List.length] in *.
    repeat split; auto; lia.
  - (* Done *)
    destruct (existsb _ _) eqn:G; [| discriminate].
    injection Hs as <-. cbn [now pc turn began returned wg inflight fired buffered List.length] in *.
    pose proof (removeWorker_length _ _ G) as L.
    repeat split; auto; try lia.
    all: try (now apply removeWorker_Forall).
    all: try (destruct (pc s); auto; rewrite Iidle in G; discriminate).
  - (* Join *)
    destruct (pc s) eqn:Hpc; try discriminate.
    destruct (wg s) eqn:Hwg; [| discriminate].
    injection Hs as <-. cbn [now pc turn began returned wg inflight fired buffered List.length] in *.
    repeat split; auto; try lia.
    all: try (destruct (inflight s); [reflexivity | discriminate]).
  - (* Recv *)
    destruct (pc s) eqn:Hpc; try discriminate.
    destruct (buffered s) eqn:Hb; [| discriminate].
    injection Hs as <-. cbn [now pc turn began returned wg inflight fired buffered List.length] in *.
    assert (Z.of_nat (turn s) <= Z.of_nat (fired s)) by lia.
    assert (d * Z.of_nat (turn s) <= d * Z.of_nat (fired s))
      by (apply Z.mul_le_mono_nonneg_l; lia).
    repeat split; auto; try lia.
    all: try (rewrite Iidle; constructor).
    all: try (rewrite Iidle; simpl; lia).
Qed.

Lemma run_inv acts : forall s s',
  loopInv t0 d C s -> run t0 d C acts s = Some s' -> loopInv t0 d C s'.
Proof.
  induction acts as [| a acts IH]; simpl; intros s s' I H.
  - now injection H as <-.
  - destruct (step t0 d C a s) as [s1 |] eqn:E; [| discriminate].
    eapply IH; [eapply step_inv; eauto | exact H].
Qed.

End Invariant.

(** C5, as the code has it.  In every state the aggregation loop can
    reach, with a positive interval [d], a ticker created at [t0] and
    concurrency [C]: the wait group counts the workers in flight; all
    workers in flight belong to the current tick, at most [C] of them,
    and none is in flight while the loop selects feeds or waits for
    the ticker, so the workers of a tick have all returned before any
    worker of the next tick starts and ticks never overlap.  The timer
    is Go's ticker, which fires at the fixed rate of once per interval
    and keeps one tick: tick [k] begins when tick [k - 1] has returned
    and the ticker has fired [k - 1] times, hence no earlier than
    [k - 1] intervals after [t0]. *)
Theorem ticks_never_overlap (t0 d : Z) (C : nat) (s : State) :
  0 < d ->
  reachable t0 d C s ->
  wg s = List.length (inflight s) /\
  Forall (fun x => fst x = turn s) (inflight s) /\
  (List.length (inflight s) <= C)%nat /\
  (pc s = Selecting \/ pc s = Receiving -> inflight s = []) /\
  (turn s <= fired s + 1)%nat /\
  t0 + d * (Z.of_nat (turn s) - 1) <= began s /\
  (pc s <> Receiving -> returned s <= began s).
Proof.
  intros Hd [acts Hrun].
  pose proof (run_inv t0 d C Hd acts _ _ (init_inv t0 d C Hd) Hrun) as I.
  destruct I as (Iwg & Iturn & Icap & Iidle & Igrid & Irate & Ibegan & Iret & Iord).
  split; [exact Iwg |].
  split; [exact Iturn |].
  split; [lia |].
  split; [intros [E | E]; rewrite E in Iidle; exact Iidle |].
  split; [destruct (buffered s); lia |].
  split; [lia |].
  intros Hne. destruct (pc s); auto. congruence.
Qed.

Lemma ticks_never_overlap_witness :
  wg overrunEnd = List.length (inflight overrunEnd) /\
  Forall (fun x => fst x = turn overrunEnd) (inflight overrunEnd) /\
  (List.length (inflight overrunEnd) <= 5)%nat /\
  (pc overrunEnd = Selecting \/ pc overrunEnd = Receiving ->
   inflight overrunEnd = []) /\
  (turn overrunEnd <= fired overrunEnd + 1)%nat /\
  0 + 10 * (Z.of_nat (turn overrunEnd) - 1) <= began overrunEnd /\
  (pc overrunEnd <> Receiving -> returned overrunEnd <= began overrunEnd).
Proof.
  apply (ticks_never_overlap 0 10 5 overrunEnd).
  - reflexivity.
  - exists overrun. vm_compute. reflexivity.
Defined.

(** C5 as stated fails in its timing.  With an interval of 10, the
    first tick begins at 0 and its worker returns at 12, after the
    ticker fired at 10; the loop receives the kept tick at once and the
    second tick begins at 12, not a full interval after the first
    returned. *)
Lemma overrun_is_followed_at_once :
  reachable 0 10 5 overrunEnd /\
  turn overrunEnd = 2%nat /\
  returned overrunEnd = 12 /\
  began overrunEnd = 12 /\
  ~ (forall (t0 d : Z) (C : nat) (s : State),
       0 < d ->
       reachable t0 d C s ->
       pc s = Selecting ->
       (1 < turn s)%nat ->
       returned s + d <= began s).
Proof.
  assert (R : reachable 0 10 5 overrunEnd)
    by (exists overrun; vm_compute; reflexivity).
  split; [exact R |]. repeat (split; [reflexivity |]).
  intros H.
  specialize (H 0 10 5%nat overrunEnd eq_refl R eq_refl).
  assert (L : (1 < turn overrunEnd)%nat) by (simpl; lia).
  specialize (H L). simpl in H. lia.
Qed.

End Loop.

(* ================================================================== *)
(** * Further properties of the engine *)
(* ================================================================== *)

(** ** Who is selected *)

Module Selection.
Import database main Spec More queries.

Lemma sorted_before g l1 l2 :
  ascNullsFirst (l1 ++ g :: l2) -> Forall (fun h => staler h g = true) l1.
Proof.
  unfold ascNullsFirst. induction l1 as [| a l1 IH]; simpl; intros Hs.
  - constructor.
  - inversion Hs as [| ? ? Hs' Hall]; subst. constructor.
    + rewrite Forall_forall in Hall. apply Hall.
      apply in_or_app. right. now left.
    + now apply IH.
Qed.

Lemma filter_all {A : Type} (P : A -> bool) (l : list A) :
  Forall (fun x => P x = true) l -> filter P l = l.
Proof.
  induction 1 as [| x l Hx _ IH]; simpl; [reflexivity |].
  now rewrite Hx, IH.
Qed.

(** A feed with at most [limit] feeds at least as stale as itself is
    among the first [limit] feeds of the order. *)
Lemma few_rivals_in_front (n : nat) (l : list Feed.t) (g : Feed.t) :
  In g l ->
  (noFresherCount g l <= n)%nat ->
  In g (firstn n (orderByLastFetched l)).
Proof.
  intros Hin Hcount.
  pose proof (SelectorFacts.orderByLastFetched_perm l) as P.
  pose proof (SelectorFacts.orderByLastFetched_sorted l) as S.
  assert (Hs : In g (orderByLastFetched l))
    by (eapply Permutation_in; [apply Permutation_sym; exact P | exact Hin]).
  apply in_split in Hs. destruct Hs as [l1 [l2 E]].
  rewrite E in S. pose proof (sorted_before g l1 l2 S) as B.
  assert (L : (List.length l1 < n)%nat).
  { unfold noFresherCount in Hcount.
    rewrite <- (Tick.filter_length_perm _ _ _ P), E in Hcount.
    rewrite filter_app, length_app in Hcount.
    rewrite (filter_all _ l1 B) in Hcount. simpl in Hcount.
    rewrite SelectorFacts.staler_refl in Hcount. simpl in Hcount. lia. }
  rewrite E, firstn_app. apply in_or_app. right.
  destruct (n - List.length l1)%nat as [| k] eqn:D; [lia |].
  simpl. now left.
Qed.

Lemma firstn_all_perm (n : nat) (l : list Feed.t) :
  (List.length l <= n)%nat ->
  Permutation (firstn n (orderByLastFetched l)) l.
Proof.
  intros H. rewrite firstn_all2.
  - apply SelectorFacts.orderByLastFetched_perm.
  - rewrite (Permutation_length (SelectorFacts.orderByLastFetched_perm l)). exact H.
Qed.

Lemma newlyDispatched_answer env C w :
  newlyDispatched env C w =
  match fst (GetNextFeedsToFetch env (int32 C) w) with
  | inl fs => fs
  | inr _ => []
  end.
Proof.
  unfold newlyDispatched.
  rewrite Tick.scrapeFeeds_dispatched, skipn_app, skipn_all, Nat.sub_diag.
  reflexivity.
Qed.

(** When the selector is answered, the tick starts workers for the
    first [C] feeds of the order, if [C] fits the [int32] parameter. *)
Lemma newlyDispatched_in_range env C w :
  db_fault env (seq w) = None ->
  0 < C < 2 ^ 31 ->
  newlyDispatched env C w =
  firstn (Z.to_nat C) (orderByLastFetched (feeds (tables w))).
Proof.
  intros Hok HC. unfold newlyDispatched.
  rewrite Tick.scrapeFeeds_dispatched.
  rewrite skipn_app, skipn_all, Nat.sub_diag. simpl.
  rewrite Run.GetNextFeedsToFetch_run, Hok. simpl.
  assert (E : int32 C = C).
  { unfold int32. rewrite Z.mod_small by lia. lia. }
  rewrite E. unfold sqlGetNextFeedsToFetch.
  destruct (Z.ltb_spec C 0); [lia | reflexivity].
Qed.

Lemma staler_same_key f g :
  staler f g = true -> staler g f = true ->
  Feed.LastFetchedAt f = Feed.LastFetchedAt g.
Proof.
  unfold staler, nullsFirst_leb.
  destruct (Feed.LastFetchedAt f), (Feed.LastFetchedAt g);
    try discriminate; auto.
  intros H1 H2. apply Z.leb_le in H1, H2. f_equal. lia.
Qed.

(** The first row of a sorted permutation is a row none is staler than. *)
Lemma head_least (sorted l : list Feed.t) f rest :
  Permutation sorted l -> ascNullsFirst sorted -> sorted = f :: rest ->
  In f l /\ leastRecentlyFetched l f.
Proof.
  intros P Srt E. subst sorted. split.
  - eapply Permutation_in; [exact P | now left].
  - intros g Hg.
    assert (Hg' : In g (f :: rest))
      by (eapply Permutation_in; [apply Permutation_sym; exact P | exact Hg]).
    destruct Hg' as [<- | Hg']; [apply SelectorFacts.staler_refl |].
    inversion Srt as [| ? ? _ Hall]; subst.
    rewrite Forall_forall in Hall. now apply Hall.
Qed.

(** X1.  The method [GetNextFeedToFetch], in whatever order the database
    hands over rows with equal fetch times.  The statement is sent
    once and changes nothing in storage.  When the driver fails it the
    method returns the error of the driver.  When the driver answers,
    it returns [sql.ErrNoRows] exactly when the feeds table is empty,
    and no other error; the feed it returns otherwise is a row of the
    table that no other row is staler than, and it has the fetch time
    of the one row [GetNextFeedsToFetch] returns for limit 1. *)
Theorem next_feed_is_the_stalest
    (env : Env) (ord : list Feed.t -> list Feed.t) (w : World) :
  ordersByLastFetched ord ->
  tables (snd (GetNextFeedToFetch env ord w)) = tables w /\
  trace (snd (GetNextFeedToFetch env ord w)) =
    trace w ++ [EvQuery QGetNextFeedToFetch] /\
  (forall msg, db_fault env (seq w) = Some msg ->
     fst (GetNextFeedToFetch env ord w) = inr msg) /\
  (db_fault env (seq w) = None ->
   (fst (GetNextFeedToFetch env ord w) = inr errNoRows <->
    feeds (tables w) = []) /\
   (forall err, fst (GetNextFeedToFetch env ord w) = inr err ->
      err = errNoRows) /\
   (forall f, fst (GetNextFeedToFetch env ord w) = inl f ->
      In f (feeds (tables w)) /\
      leastRecentlyFetched (feeds (tables w)) f /\
      exists g,
        sqlGetNextFeedsToFetch 1 (tables w) = inl [g] /\
        Feed.LastFetchedAt g = Feed.LastFetchedAt f)).
Proof.
  intros Hord. unfold GetNextFeedToFetch. rewrite Run.statement_run.
  destruct (db_fault env (seq w)) as [msg |] eqn:F; cbn [fst snd tables trace].
  - repeat split; auto; try discriminate. intros m H. now injection H as <-.
  - split; [reflexivity |]. split; [reflexivity |].
    split; [discriminate |]. intros _.
    destruct (Hord (feeds (tables w))) as [P Srt].
    unfold sqlGetNextFeedToFetch.
    destruct (ord (feeds (tables w))) as [| f rest] eqn:E; cbn [firstn].
    + apply Permutation_nil in P. split; [| split].
      * split; auto.
      * intros err H. now injection H as <-.
      * discriminate.
    + split; [| split].
      * split; [discriminate |]. intros H. rewrite H in P.
        apply Permutation_sym, Permutation_nil in P. discriminate.
      * discriminate.
      * intros f' H. injection H as <-.
        destruct (head_least (f :: rest) (feeds (tables w)) f rest P Srt eq_refl)
          as [Hin Hleast].
        split; [exact Hin |]. split; [exact Hleast |].
        unfold sqlGetNextFeedsToFetch. simpl.
        pose proof (SelectorFacts.orderByLastFetched_perm (feeds (tables w))) as P'.
        pose proof (SelectorFacts.orderByLastFetched_sorted (feeds (tables w))) as S'.
        destruct (orderByLastFetched (feeds (tables w))) as [| g rest'] eqn:E'.
        { apply Permutation_nil in P'.
          rewrite P' in Hin. contradiction. }
        exists g. split; [now destruct rest' |].
        destruct (head_least (g :: rest') (feeds (tables w)) g rest' P' S' eq_refl)
          as [Hin' Hleast'].
        apply staler_same_key; auto.
Qed.

Lemma next_feed_is_the_stalest_witness :
  fst (GetNextFeedToFetch Fixtures.env0 (fun l => orderByLastFetched (rev l))
         Fixtures.wTie) = inl Fixtures.feedD /\
  sqlGetNextFeedsToFetch 1 (tables Fixtures.wTie) = inl [Fixtures.feedA] /\
  leastRecentlyFetched (feeds (tables Fixtures.wTie)) Fixtures.feedD /\
  Feed.LastFetchedAt Fixtures.feedA = Feed.LastFetchedAt Fixtures.feedD.
Proof.
  destruct (next_feed_is_the_stalest Fixtures.env0
              (fun l => orderByLastFetched (rev l)) Fixtures.wTie)
    as [_ [_ [_ H]]].
  - intros l. split.
    + eapply perm_trans; [apply SelectorFacts.orderByLastFetched_perm |].
      apply Permutation_sym, Permutation_rev.
    + apply SelectorFacts.orderByLastFetched_sorted.
  - destruct (H eq_refl) as [_ [_ Row]].
    destruct (Row Fixtures.feedD eq_refl) as [_ [Least [g [Eg Key]]]].
    split; [reflexivity |]. split; [reflexivity |]. split; [exact Least |].
    reflexivity.
Defined.

(** X2.  With at most [C] feeds in storage every tick starts a worker for
    each of them: the workers are the whole table, in the order of
    staleness. *)
Theorem small_table_is_fetched_whole (env : Env) (C : Z) (w : World) :
  db_fault env (seq w) = None ->
  0 < C < 2 ^ 31 ->
  Z.of_nat (List.length (feeds (tables w))) <= C ->
  Permutation (newlyDispatched env C w) (feeds (tables w)) /\
  ascNullsFirst (newlyDispatched env C w).
Proof.
  intros Hok HC Hn. rewrite newlyDispatched_in_range by assumption. split.
  - apply firstn_all_perm. lia.
  - apply SelectorFacts.sorted_firstn, SelectorFacts.orderByLastFetched_sorted.
Qed.

Lemma small_table_is_fetched_whole_witness :
  Permutation (newlyDispatched Fixtures.env0 3 Fixtures.w0)
              (feeds (tables Fixtures.w0)) /\
  ascNullsFirst (newlyDispatched Fixtures.env0 3 Fixtures.w0).
Proof.
  apply (small_table_is_fetched_whole Fixtures.env0 3 Fixtures.w0).
  - reflexivity.
  - lia.
  - simpl. lia.
Defined.

(** X3.  A feed of the table is fetched by the tick whenever at most [C]
    feeds in storage, itself included, are at least as stale as it. *)
Theorem stale_enough_is_fetched (env : Env) (C : Z) (w : World) (g : Feed.t) :
  db_fault env (seq w) = None ->
  0 < C < 2 ^ 31 ->
  In g (feeds (tables w)) ->
  Z.of_nat (noFresherCount g (feeds (tables w))) <= C ->
  In g (newlyDispatched env C w).
Proof.
  intros Hok HC Hin Hcount. rewrite newlyDispatched_in_range by assumption.
  apply few_rivals_in_front; [exact Hin | lia].
Qed.

Lemma stale_enough_is_fetched_witness :
  In Fixtures.feedB (newlyDispatched Fixtures.env0 2 Fixtures.w0).
Proof.
  apply (stale_enough_is_fetched Fixtures.env0 2 Fixtures.w0 Fixtures.feedB).
  - reflexivity.
  - lia.
  - simpl. auto.
  - vm_compute. discriminate.
Defined.

End Selection.

(** ** The sequence of calls *)

Module Clock.
Import database main Fair.

Lemma advances_ret {A : Type} (a : A) : advances (ret a).
Proof. intros w. simpl. lia. Qed.

Lemma advances_emit e : advances (emit e).
Proof. intros w. simpl. lia. Qed.

Lemma advances_fresh : advances fresh.
Proof. intros w. simpl. lia. Qed.

Lemma advances_bind {A B : Type} (c : M A) (k : A -> M B) :
  advances c -> (forall a, advances (k a)) -> advances (bind c k).
Proof.
  intros Hc Hk w. unfold bind.
  specialize (Hc w). destruct (c w) as [a w1]. simpl in Hc.
  specialize (Hk a w1). lia.
Qed.

Lemma advances_forEach {A : Type} (xs : list A) (body : A -> M unit) :
  (forall x, advances (body x)) -> advances (forEach xs body).
Proof.
  intros Hb. induction xs as [| x xs IH]; simpl.
  - apply advances_ret.
  - apply advances_bind; auto.
Qed.

Lemma advances_statement {A : Type} env q
    (run : nat -> Tables -> (A + string) * Tables) :
  advances (statement env q run).
Proof.
  intros w. rewrite Run.statement_run.
  destruct (db_fault env (seq w)); simpl; lia.
Qed.

Lemma advances_FetchFeed env ctx url : advances (main.FetchFeed env ctx url).
Proof.
  unfold main.FetchFeed.
  apply advances_bind; [apply advances_fresh | intros n].
  destruct (rss.FetchFeed _ _ _ _ _ _) as [calls r].
  apply advances_bind; [| intros; apply advances_ret].
  apply advances_forEach. intros. apply advances_emit.
Qed.

Lemma advances_storeItem env feed item : advances (storeItem env feed item).
Proof.
  unfold storeItem, uuidNew, timeNowUTC.
  apply advances_bind;
    [apply advances_bind; [apply advances_fresh | intros; apply advances_ret] |].
  intros id.
  apply advances_bind;
    [apply advances_bind; [apply advances_fresh | intros; apply advances_ret] |].
  intros createdAt.
  apply advances_bind;
    [apply advances_bind; [apply advances_fresh | intros; apply advances_ret] |].
  intros updatedAt.
  apply advances_bind; [apply advances_statement |].
  intros [p | err]; [apply advances_ret |].
  destruct (negb _); [apply advances_emit | apply advances_ret].
Qed.

Lemma advances_fetchAndStore env feed : advances (fetchAndStore env feed).
Proof.
  unfold fetchAndStore.
  apply advances_bind; [apply advances_FetchFeed | intros [rssFeed | e]].
  - apply advances_bind; [apply advances_emit | intros _].
    apply advances_forEach. intros. apply advances_storeItem.
  - apply advances_emit.
Qed.

Lemma advances_scrapeFeed env feed : advances (scrapeFeed env feed).
Proof.
  unfold scrapeFeed, scrapeFeedBody, MarkFeedFetched.
  apply advances_bind; [| intros; apply advances_emit].
  apply advances_bind.
  - apply advances_bind; [| intros; apply advances_ret].
    apply advances_statement.
  - intros [e |]; [apply advances_emit | apply advances_fetchAndStore].
Qed.

Lemma advances_scrapeFeeds env C : advances (scrapeFeeds env C).
Proof.
  apply (Goroutines.steps_scrapeFeeds env
           (fun w w' => (seq w <= seq w')%nat) (fun _ => True));
    try (intros; cbn [emit fresh snd seq]; lia); auto.
  - intros feed w _. apply (advances_bind _ _ (advances_statement env _ _)).
    intros. apply advances_ret.
  - intros feed arg w _ _. apply (advances_statement env).
  - intros limit w. apply (advances_statement env).
Qed.

Lemma advances_aggLoop env ticks C : advances (aggLoop env ticks C).
Proof.
  induction ticks as [| n IH]; simpl.
  - apply advances_ret.
  - apply advances_bind; [apply advances_scrapeFeeds | intros _].
    apply advances_bind; [apply advances_emit | intros _; exact IH].
Qed.

End Clock.

(** ** No feed is left out for ever *)

Module Rotation.
Import database main Spec More Fair Monotone.

















(** The world after the tick and the receive from the ticker. *)
Lemma aggLoop_S env j C w :
  aggLoop env (S j) C w =
  aggLoop env j C
    (mkWorld (tables (snd (scrapeFeeds env C w)))
             (trace (snd (scrapeFeeds env C w)) ++ [EvTick])
             (seq (snd (scrapeFeeds env C w)))).
Proof.
  simpl. unfold bind. destruct (scrapeFeeds env C w) as [[] w1]. reflexivity.
Qed.

Lemma newlyDispatched_same env C w w' :
  tables w' = tables w -> seq w' = seq w ->
  db_fault env (seq w) = None -> 0 < C < 2 ^ 31 ->
  newlyDispatched env C w' = newlyDispatched env C w.
Proof.
  intros Et Es Hok HC.
  rewrite !Selection.newlyDispatched_in_range by (congruence || assumption).
  now rewrite Et.
Qed.






End Rotation.

(** ** What a tick sends and stores *)

Module Audit.
Import database main Spec More Ledger.

(** X6.  Every feed a tick selects has its update sent once in that tick,
    and no other feed has, in whatever order the scheduler lets the
    goroutines run: the identities in the updates sent are those of
    the feeds selected, each as often as it was selected.  Whether the
    update, the fetch or an insert of some goroutine fails changes
    nothing to what the others send. *)
Theorem every_selected_feed_is_marked_once (env : Env) (C : Z) (w : World) :
  Permutation (markedIds (queries (tickEvents env C w)))
              (map Feed.ID (newlyDispatched env C w)).
Proof.
  rewrite Selection.newlyDispatched_answer. apply Tick.tick_ledger.
Qed.

(** X7.  A tick never rewrites or drops a stored post: it appends, and each
    post it appends belongs to a feed it selected. *)
Theorem new_posts_belong_to_selected_feeds (env : Env) (C : Z) (w : World) :
  exists new,
    posts (tables (snd (scrapeFeeds env C w))) = posts (tables w) ++ new /\
    Forall (fun p => In (Post.FeedID p) (map Feed.ID (newlyDispatched env C w))) new.
Proof.
  set (ids := map Feed.ID (newlyDispatched env C w)).
  set (R := fun a b : World => exists new,
              posts (tables b) = posts (tables a) ++ new /\
              Forall (fun p => In (Post.FeedID p) ids) new).
  assert (Same : forall a b, posts (tables b) = posts (tables a) -> R a b).
  { intros a b E. exists []. rewrite E, app_nil_r. auto. }
  apply (Goroutines.steps_tick env R (fun feed => In (Feed.ID feed) ids));
    try (intros; apply Same; reflexivity).
  - intros a b c [n1 [E1 F1]] [n2 [E2 F2]]. exists (n1 ++ n2). split.
    + rewrite E2, E1. now rewrite app_assoc.
    + now apply Forall_app.
  - intros feed a _. apply Same. rewrite Run.MarkFeedFetched_run.
    destruct (db_fault env (seq a)); reflexivity.
  - intros feed arg a Hid Harg. rewrite Run.CreatePost_run.
    destruct (db_fault env (seq a)); cbn [snd tables]; [now apply Same |].
    unfold sqlCreatePost. destruct (existsb _ _); cbn [snd]; [now apply Same |].
    eexists. split; [reflexivity |].
    constructor; [| constructor]. cbn. rewrite Harg. exact Hid.
  - intros limit a. apply Same. rewrite Run.GetNextFeedsToFetch_run. reflexivity.
  - intros fs Hsel. unfold ids.
    rewrite Selection.newlyDispatched_answer, Hsel.
    apply Forall_forall. intros f Hf. now apply in_map.
Qed.

Lemma postsKept_aggLoop env n C : preserves postsKept (aggLoop env n C).
Proof.
  apply Keeps.preserves_aggLoop.
  - intros d. exists []. now rewrite app_nil_r.
  - intros a b c [n1 E1] [n2 E2]. exists (n1 ++ n2).
    now rewrite E2, E1, app_assoc.
  - intros now id d. exists []. simpl. now rewrite app_nil_r.
  - intros arg d. unfold sqlCreatePost.
    destruct (existsb _ _); simpl.
    + exists []. now rewrite app_nil_r.
    + eexists. reflexivity.
Qed.

(** X8.  The first post stored under a URL is the one [GetPostByURL] keeps
    answering, however long the loop runs: a later item with the same
    link neither replaces it nor hides it. *)
Theorem stored_post_stays_the_answer
    (env : Env) (n : nat) (C : Z) (w : World) (url : string) (p : Post.t) :
  queries.sqlGetPostByURL url (tables w) = inl p ->
  queries.sqlGetPostByURL url (tables (snd (aggLoop env n C w))) = inl p.
Proof.
  unfold queries.sqlGetPostByURL.
  destruct (postsKept_aggLoop env n C w) as [new E]. rewrite E, filter_app.
  destruct (filter (hasUrl url) (posts (tables w))) as [| q qs]; simpl.
  - discriminate.
  - auto.
Qed.

Lemma stored_post_stays_the_answer_witness :
  queries.sqlGetPostByURL "http://a.example/2"
    (tables (snd (aggLoop Fixtures.env0 2 3 Fixtures.w1))) =
  inl (Fixtures.postOf 7%N (Fixtures.item "2")).
Proof.
  apply (stored_post_stays_the_answer Fixtures.env0 2 3 Fixtures.w1).
  reflexivity.
Defined.

End Audit.

(** ** The arguments of [agg] *)

Module Agg.
Import database main Spec More Ledger Cases.

Lemma world_eta w : mkWorld (tables w) (trace w) (seq w) = w.
Proof. now destruct w. Qed.

(** A tick whose limit has wrapped to zero or below. *)
Lemma wrapped_tick env C w :
  int32 C <= 0 ->
  exists l,
    snd (scrapeFeeds env C w) =
    mkWorld (tables w)
            (trace w ++ [EvQuery (QGetNextFeedsToFetch (int32 C)); EvPrint l])
            (S (seq w)).
Proof.
  intros H. unfold scrapeFeeds, bind. rewrite Run.GetNextFeedsToFetch_run.
  unfold sqlGetNextFeedsToFetch.
  destruct (db_fault env (seq w)) as [msg |].
  - exists (ErrGettingFeeds msg). unfold Printf, emit. simpl.
    now rewrite <- app_assoc.
  - destruct (Z.ltb_spec (int32 C) 0).
    + exists (ErrGettingFeeds negativeLimit). unfold Printf, emit. simpl.
      now rewrite <- app_assoc.
    + replace (int32 C) with 0 by lia.
      exists NoFeedsToFetch. unfold Printf, emit. simpl.
      now rewrite <- app_assoc.
Qed.

Lemma idle_loop env C :
  int32 C <= 0 ->
  forall n w, exists evs,
    snd (aggLoop env n C w) = mkWorld (tables w) (trace w ++ evs) (n + seq w) /\
    Forall idle evs.
Proof.
  intros H. induction n as [| n IH]; intros w.
  - exists []. simpl. rewrite app_nil_r. split; [now rewrite world_eta | constructor].
  - rewrite Rotation.aggLoop_S.
    destruct (wrapped_tick env C w H) as [l E]. rewrite E. cbn [tables trace seq].
    match goal with |- context [aggLoop env n C ?w1] =>
      destruct (IH w1) as [evs [E1 I1]]
    end.
    rewrite E1. cbn [tables trace seq].
    exists ([EvQuery (QGetNextFeedsToFetch (int32 C)); EvPrint l; EvTick] ++ evs).
    split.
    + rewrite <- !app_assoc. simpl. f_equal. lia.
    + apply Forall_app. split; [repeat constructor | exact I1].
Qed.

(** X9.  [agg] checks that the concurrency is positive as an [int], and
    hands it to the selector as an [int32].  A concurrency that is
    positive and wraps to zero or below is accepted, and the loop then
    runs without ever fetching: every tick sends the selector, prints
    a line and waits for the ticker. *)
Theorem wrapped_concurrency_never_fetches
    (env : Env) (a0 a1 : string) (rest : list string) (d C : Z)
    (n : nat) (w : World) :
  time_ParseDuration env a0 = inl d -> 0 < d ->
  strconv_Atoi env a1 = inl C -> 0 < C -> int32 C <= 0 ->
  fst (handlerAgg env (a0 :: a1 :: rest) n w) = AggLooping /\
  tables (snd (handlerAgg env (a0 :: a1 :: rest) n w)) = tables w /\
  exists evs,
    trace (snd (handlerAgg env (a0 :: a1 :: rest) n w)) = trace w ++ evs /\
    Forall idle evs.
Proof.
  intros Hd Hpos Hc HC Hwrap. unfold handlerAgg, aggConcurrency.
  rewrite Hd, Hc.
  destruct (Z.ltb_spec 0 C); [| lia].
  destruct (Z.leb_spec d 0); [lia |].
  unfold bind, Printf, emit. cbn [tables trace seq].
  match goal with |- context [aggLoop env n C ?w1] =>
    destruct (idle_loop env C Hwrap n w1) as [evs [E I1]];
    destruct (aggLoop env n C w1) as [[] w2]
  end.
  cbn [fst snd ret] in *. subst w2. cbn [tables trace].
  split; [reflexivity | split; [reflexivity |]].
  exists (EvPrint (CollectingFeeds d C) :: evs). split.
  - now rewrite <- app_assoc.
  - constructor; [exact I | exact I1].
Qed.

Lemma wrapped_concurrency_never_fetches_witness :
  fst (handlerAgg envWide ["30s"; "4294967296"] 3 Fixtures.w0) = AggLooping /\
  tables (snd (handlerAgg envWide ["30s"; "4294967296"] 3 Fixtures.w0)) =
    tables Fixtures.w0 /\
  exists evs,
    trace (snd (handlerAgg envWide ["30s"; "4294967296"] 3 Fixtures.w0)) =
      trace Fixtures.w0 ++ evs /\
    Forall idle evs.
Proof.
  apply (wrapped_concurrency_never_fetches envWide "30s" "4294967296" []
           30000000000 4294967296 3 Fixtures.w0).
  - reflexivity.
  - lia.
  - reflexivity.
  - lia.
  - vm_compute. discriminate.
Defined.

(** X10.  [agg] refuses its arguments before it does anything: unless it
    enters the loop it sends no statement and no request and leaves
    the tables alone, and when it returns an error it has not printed
    a line either. *)
Theorem agg_refuses_before_any_effect
    (env : Env) (args : list string) (n : nat) (w : World) :
  fst (handlerAgg env args n w) <> AggLooping ->
  tables (snd (handlerAgg env args n w)) = tables w /\
  queries (trace (snd (handlerAgg env args n w))) = queries (trace w) /\
  requests (trace (snd (handlerAgg env args n w))) = requests (trace w) /\
  seq (snd (handlerAgg env args n w)) = seq w /\
  (forall msg, fst (handlerAgg env args n w) = AggError msg ->
               snd (handlerAgg env args n w) = w).
Proof.
  unfold handlerAgg. intros H.
  destruct args as [| a0 args']; [simpl; auto 6 |].
  destruct (time_ParseDuration env a0) as [d | err]; [| simpl; auto 6].
  destruct (aggConcurrency env (a0 :: args')) as [c | err]; [| simpl; auto 6].
  unfold bind, Printf, emit in *. cbn [tables trace seq] in *.
  destruct (d <=? 0).
  - cbn [ret fst snd tables trace seq].
    rewrite Store.queries_app, Worker.requests_app. simpl.
    rewrite !app_nil_r. repeat split. discriminate.
  - exfalso. apply H.
    match goal with |- context [aggLoop env n c ?w1] =>
      destruct (aggLoop env n c w1) as [[] w2]
    end.
    reflexivity.
Qed.

Lemma agg_refuses_before_any_effect_witness :
  tables (snd (handlerAgg Fixtures.env0 ["30s"; "0"] 3 Fixtures.w0)) =
    tables Fixtures.w0 /\
  queries (trace (snd (handlerAgg Fixtures.env0 ["30s"; "0"] 3 Fixtures.w0))) =
    queries (trace Fixtures.w0) /\
  requests (trace (snd (handlerAgg Fixtures.env0 ["30s"; "0"] 3 Fixtures.w0))) =
    requests (trace Fixtures.w0) /\
  seq (snd (handlerAgg Fixtures.env0 ["30s"; "0"] 3 Fixtures.w0)) =
    seq Fixtures.w0 /\
  (forall msg,
     fst (handlerAgg Fixtures.env0 ["30s"; "0"] 3 Fixtures.w0) = AggError msg ->
     snd (handlerAgg Fixtures.env0 ["30s"; "0"] 3 Fixtures.w0) = Fixtures.w0).
Proof.
  apply (agg_refuses_before_any_effect Fixtures.env0 ["30s"; "0"] 3 Fixtures.w0).
  vm_compute. discriminate.
Defined.

End Agg.

(** ** More on the reader *)

Module Decoded.
Import rss Cases.

(** X11.  The fourth layout of [ParsePubDate] is the first one again: it is
    never the layout that decides, whatever [time.Parse] does, and the
    loop gives the same result without it. *)
Theorem fourth_layout_never_decides
    (time_Parse : string -> string -> option GoTime.Time) (value : string) :
  tryFormats time_Parse formats value =
  tryFormats time_Parse formatsButFourth value.
Proof.
  unfold formats, formatsButFourth, formats, GoTime.RFC1123Z. simpl.
  destruct (time_Parse "Mon, 02 Jan 2006 15:04:05 -0700" value) as [t |];
    [reflexivity |].
  destruct (time_Parse GoTime.RFC1123 value) as [t |]; [reflexivity |].
  destruct (time_Parse "Mon, 2 Jan 2006 15:04:05 -0700" value) as [t |];
    reflexivity.
Qed.

(** X12.  What [FetchFeed] returns is the decoded document with the titles
    and descriptions of the channel and of the items unescaped, and
    nothing else touched: the items are the same in number and order,
    and links and publish dates are as the document has them. *)
Theorem FetchFeed_unescapes_text_only
    (NewRequest_err : string -> option string)
    (xml_Unmarshal : string -> RSSFeed + string)
    (unescape : string -> string)
    (do : http.RoundTrip) (ctx : http.Context) (url : string) (feed : RSSFeed) :
  snd (FetchFeed NewRequest_err xml_Unmarshal unescape do ctx url) = inl feed ->
  exists resp body raw,
    do (http.mkClient 0) (feedRequest ctx url) = inl resp /\
    http.Body resp = inl body /\
    xml_Unmarshal body = inl raw /\
    Channel_Title feed = unescape (Channel_Title raw) /\
    Channel_Description feed = unescape (Channel_Description raw) /\
    Channel_Link feed = Channel_Link raw /\
    map Link (Channel_Item feed) = map Link (Channel_Item raw) /\
    map PubDate (Channel_Item feed) = map PubDate (Channel_Item raw) /\
    map Title (Channel_Item feed) =
      map (fun it => unescape (Title it)) (Channel_Item raw) /\
    map Description (Channel_Item feed) =
      map (fun it => unescape (Description it)) (Channel_Item raw).
Proof.
  unfold FetchFeed.
  destruct (NewRequest_err url) as [err |]; [discriminate |].
  change (http.mkRequest _ _ _ _) with (feedRequest ctx url).
  destruct (do (http.mkClient 0) (feedRequest ctx url)) as [resp | err];
    [| discriminate].
  destruct (http.Body resp) as [body | err] eqn:B; [| discriminate].
  destruct (xml_Unmarshal body) as [raw | err] eqn:U; [| discriminate].
  simpl. intros H. injection H as <-.
  exists resp, body, raw. unfold unescapeFeed. cbn [Channel_Title
    Channel_Description Channel_Link Channel_Item].
  rewrite !map_map. unfold unescapeItem. cbn [Title Link Description PubDate].
  repeat split; auto.
Qed.

Lemma FetchFeed_unescapes_text_only_witness :
  exists resp body raw,
    client_Do Fixtures.env0 0 (http.mkClient 0)
      (feedRequest http.Background "http://a.example/rss") = inl resp /\
    http.Body resp = inl body /\
    xml_Unmarshal Fixtures.env0 body = inl raw /\
    Channel_Title Fixtures.feed3 = Channel_Title raw /\
    Channel_Description Fixtures.feed3 = Channel_Description raw /\
    Channel_Link Fixtures.feed3 = Channel_Link raw /\
    map Link (Channel_Item Fixtures.feed3) = map Link (Channel_Item raw) /\
    map PubDate (Channel_Item Fixtures.feed3) = map PubDate (Channel_Item raw) /\
    map Title (Channel_Item Fixtures.feed3) =
      map (fun it => Title it) (Channel_Item raw) /\
    map Description (Channel_Item Fixtures.feed3) =
      map (fun it => Description it) (Channel_Item raw).
Proof.
  apply (FetchFeed_unescapes_text_only
           (NewRequest_err Fixtures.env0) (xml_Unmarshal Fixtures.env0)
           (fun s => s) (client_Do Fixtures.env0 0) http.Background
           "http://a.example/rss" Fixtures.feed3).
  reflexivity.
Defined.

End Decoded.

(** ** Bookmarks *)

Module Bookmarks.
Import database cli queries.

Ltac run_command :=
  unfold handlerBookmark, handlerUnbookmark, handlerUnfollow, andThen,
    GetPostByURL, IsPostBookmarked, CreateBookmark, DeleteBookmark,
    DeleteFeedFollow, exec, uuidNew, timeNowUTC, Println, pure;
  cbn [store sent out calls fst snd].

Ltac next_case :=
  match goal with
  | |- context [match db_fault ?e ?n with _ => _ end] =>
    destruct (db_fault e n) eqn:?
  | |- context [match sqlGetPostByURL ?u ?d with _ => _ end] =>
    destruct (sqlGetPostByURL u d) eqn:?
  | |- context [if sqlIsPostBookmarked ?u ?p ?st then _ else _] =>
    destruct (sqlIsPostBookmarked u p st) eqn:?
  end; cbn [store sent out calls fst snd].

Lemma not_bookmarked_not_in user post st :
  sqlIsPostBookmarked user post st = false ->
  ~ In (user, post) (bookmarkPairs st).
Proof.
  unfold sqlIsPostBookmarked, bookmarkPairs. intros H Hin.
  apply in_map_iff in Hin. destruct Hin as [b [E Hb]].
  assert (T : existsb (isBookmark user post) (bookmarks st) = true).
  { apply existsb_exists. exists b. split; [exact Hb |].
    unfold isBookmark. injection E as -> ->. now rewrite !N.eqb_refl. }
  congruence.
Qed.

Lemma NoDup_snoc {A : Type} (l : list A) (x : A) :
  NoDup l -> ~ In x l -> NoDup (l ++ [x]).
Proof.
  induction l as [| a l IH]; simpl; intros N H.
  - constructor; [intros [] | constructor].
  - inversion N as [| ? ? Ha N']; subst. constructor.
    + intros Hin. apply in_app_or in Hin. destruct Hin as [Hin | [<- | []]].
      * contradiction.
      * apply H. now left.
    + apply IH; [exact N' |]. intros Hin. apply H. now right.
Qed.

(** X13.  [bookmark] keeps the bookmarks free of duplicates without help
    from the schema: whatever the driver does, a run adds at most one
    row, that row is the caller's, and no user ends up with two
    bookmarks of one post; the other tables are not touched. *)
Theorem bookmark_never_duplicates
    (env : Env) (args : list string) (user : User.t) (s : Session) :
  NoDup (bookmarkPairs (store s)) ->
  NoDup (bookmarkPairs (store (snd (handlerBookmark env args user s)))) /\
  base (store (snd (handlerBookmark env args user s))) = base (store s) /\
  feed_follows (store (snd (handlerBookmark env args user s))) =
    feed_follows (store s) /\
  exists new,
    bookmarks (store (snd (handlerBookmark env args user s))) =
      bookmarks (store s) ++ new /\
    (List.length new <= 1)%nat /\
    Forall (fun b => Bookmark.UserID b = User.ID user) new.
Proof.
  intros N.
  assert (Same : forall s', store s' = store s ->
            NoDup (bookmarkPairs (store s')) /\
            base (store s') = base (store s) /\
            feed_follows (store s') = feed_follows (store s) /\
            exists new,
              bookmarks (store s') = bookmarks (store s) ++ new /\
              (List.length new <= 1)%nat /\
              Forall (fun b => Bookmark.UserID b = User.ID user) new).
  { intros s' E. rewrite E. repeat split; auto.
    exists []. rewrite app_nil_r. repeat split; auto. }
  destruct args as [| url rest]; [now apply Same |].
  run_command. repeat next_case; try (now apply Same).
  unfold sqlCreateBookmark. cbn [fst snd base feed_follows bookmarks].
  split; [| split; [reflexivity | split; [reflexivity |]]].
  - unfold bookmarkPairs. cbn [bookmarks]. rewrite map_app. simpl.
    apply NoDup_snoc; [exact N |].
    now apply not_bookmarked_not_in.
  - eexists. split; [reflexivity |]. split; [simpl; lia |].
    constructor; [reflexivity | constructor].
Qed.

Lemma bookmark_never_duplicates_witness :
  NoDup (bookmarkPairs
           (store (snd (handlerBookmark Fixtures.env0 ["http://a.example/2"]
                          (User.mk 100%N "kahya")
                          (mkSession (mkStore (tables Fixtures.w1) [] []) [] [] 0))))) /\
  base (store (snd (handlerBookmark Fixtures.env0 ["http://a.example/2"]
                      (User.mk 100%N "kahya")
                      (mkSession (mkStore (tables Fixtures.w1) [] []) [] [] 0)))) =
    tables Fixtures.w1 /\
  feed_follows (store (snd (handlerBookmark Fixtures.env0 ["http://a.example/2"]
                      (User.mk 100%N "kahya")
                      (mkSession (mkStore (tables Fixtures.w1) [] []) [] [] 0)))) = [] /\
  exists new,
    bookmarks (store (snd (handlerBookmark Fixtures.env0 ["http://a.example/2"]
                      (User.mk 100%N "kahya")
                      (mkSession (mkStore (tables Fixtures.w1) [] []) [] [] 0)))) =
      [] ++ new /\
    (List.length new <= 1)%nat /\
    Forall (fun b => Bookmark.UserID b = 100%N) new.
Proof.
  apply (bookmark_never_duplicates Fixtures.env0 ["http://a.example/2"]
           (User.mk 100%N "kahya")
           (mkSession (mkStore (tables Fixtures.w1) [] []) [] [] 0)).
  constructor.
Defined.

Lemma store_eta st : mkStore (base st) (feed_follows st) (bookmarks st) = st.
Proof. now destruct st. Qed.

Lemma keeps_unmatched {A : Type} (P : A -> bool) (l : list A) :
  existsb P l = false -> filter (fun x => negb (P x)) l = l.
Proof.
  induction l as [| a l IH]; simpl; [reflexivity |].
  intros H. apply orb_false_iff in H. destruct H as [Ha Hl].
  rewrite Ha. simpl. now rewrite IH.
Qed.

Lemma existsb_filter {A : Type} (P Q : A -> bool) (l : list A) :
  existsb P (filter Q l) = existsb (fun x => P x && Q x) l.
Proof.
  induction l as [| a l IH]; simpl; [reflexivity |].
  destruct (Q a); simpl; rewrite IH.
  - now rewrite andb_true_r.
  - now rewrite andb_false_r.
Qed.

(** A run of [bookmark] that returns no error found the post and
    leaves it bookmarked. *)
Lemma bookmark_succeeded env url rest user s :
  fst (handlerBookmark env (url :: rest) user s) = None ->
  exists post,
    sqlGetPostByURL url (base (store s)) = inl post /\
    base (store (snd (handlerBookmark env (url :: rest) user s))) = base (store s) /\
    sqlIsPostBookmarked (User.ID user) (Post.ID post)
      (store (snd (handlerBookmark env (url :: rest) user s))) = true /\
    (sqlIsPostBookmarked (User.ID user) (Post.ID post) (store s) = false ->
     exists b,
       Bookmark.UserID b = User.ID user /\ Bookmark.PostID b = Post.ID post /\
       store (snd (handlerBookmark env (url :: rest) user s)) =
         mkStore (base (store s)) (feed_follows (store s))
                 (bookmarks (store s) ++ [b])).
Proof.
  run_command. repeat next_case; try discriminate; intros _.
  - eexists. split; [reflexivity |]. split; [reflexivity |].
    split; [assumption | congruence].
  - eexists. split; [reflexivity |]. split; [reflexivity |].
    unfold sqlCreateBookmark, sqlIsPostBookmarked. cbn [fst snd bookmarks].
    split.
    + rewrite existsb_app. simpl. unfold isBookmark at 2. simpl.
      rewrite !N.eqb_refl. simpl. now rewrite orb_true_r.
    + intros _. eexists. split; [| split; [| reflexivity]]; reflexivity.
Qed.

(** X14.  Bookmarking is idempotent: after a run of [bookmark] that reports
    no error, running it again for the same URL changes no table,
    whatever the driver does then; when the driver answers, the second
    run only says that the post is already bookmarked. *)
Theorem bookmark_again_adds_nothing
    (env env' : Env) (url : string) (rest rest' : list string)
    (user : User.t) (s s1 : Session) :
  fst (handlerBookmark env (url :: rest) user s) = None ->
  store s1 = store (snd (handlerBookmark env (url :: rest) user s)) ->
  store (snd (handlerBookmark env' (url :: rest') user s1)) = store s1 /\
  (db_fault env' (calls s1) = None -> db_fault env' (S (calls s1)) = None ->
   fst (handlerBookmark env' (url :: rest') user s1) = None /\
   out (snd (handlerBookmark env' (url :: rest') user s1)) =
     out s1 ++ [AlreadyBookmarked]).
Proof.
  intros Ok E.
  destruct (bookmark_succeeded env url rest user s Ok) as [post [G [B [I _]]]].
  rewrite <- E in B, I. rewrite <- B in G. clear Ok E.
  run_command. rewrite G.
  destruct (db_fault env' (calls s1)); cbn [store sent out calls fst snd].
  - split; [reflexivity | discriminate].
  - destruct (db_fault env' (S (calls s1))); cbn [store sent out calls fst snd].
    + split; [reflexivity | discriminate].
    + rewrite I. cbn [store sent out calls fst snd]. auto.
Qed.

Lemma bookmark_again_adds_nothing_witness :
  store (snd (handlerBookmark Fixtures.envFault ["http://a.example/2"]
                (User.mk 100%N "kahya")
                (snd (handlerBookmark Fixtures.env0 ["http://a.example/2"]
                        (User.mk 100%N "kahya")
                        (mkSession (mkStore (tables Fixtures.w1) [] []) [] [] 0))))) =
  store (snd (handlerBookmark Fixtures.env0 ["http://a.example/2"]
                (User.mk 100%N "kahya")
                (mkSession (mkStore (tables Fixtures.w1) [] []) [] [] 0))).
Proof.
  apply (bookmark_again_adds_nothing Fixtures.env0 Fixtures.envFault
           "http://a.example/2" [] [] (User.mk 100%N "kahya")
           (mkSession (mkStore (tables Fixtures.w1) [] []) [] [] 0)).
  - reflexivity.
  - reflexivity.
Defined.

Lemma existsb_same {A : Type} (P Q : A -> bool) (l : list A) :
  (forall x, P x = Q x) -> existsb P l = existsb Q l.
Proof.
  intros H. induction l as [| a l IH]; simpl; [reflexivity |].
  now rewrite H, IH.
Qed.

Lemma other_pair_kept user post u p b :
  (u, p) <> (user, post) ->
  isBookmark u p b && negb (isBookmark user post b) = isBookmark u p b.
Proof.
  intros H. unfold isBookmark.
  destruct (N.eqb_spec (Bookmark.UserID b) u), (N.eqb_spec (Bookmark.PostID b) p);
    simpl; try reflexivity.
  destruct (N.eqb_spec (Bookmark.UserID b) user),
           (N.eqb_spec (Bookmark.PostID b) post); simpl; try reflexivity.
  exfalso. apply H. congruence.
Qed.

(** X15.  A run of [unbookmark] that reports no error leaves the post of the
    URL not bookmarked by the caller, and is seen by nobody else: what
    any other user has bookmarked, and what the caller has bookmarked
    of other posts, is as before, and so are the other tables. *)
Theorem unbookmark_removes_only_that_bookmark
    (env : Env) (url : string) (rest : list string) (user : User.t) (s : Session) :
  fst (handlerUnbookmark env (url :: rest) user s) = None ->
  exists post,
    sqlGetPostByURL url (base (store s)) = inl post /\
    sqlIsPostBookmarked (User.ID user) (Post.ID post)
      (store (snd (handlerUnbookmark env (url :: rest) user s))) = false /\
    (forall u p, (u, p) <> (User.ID user, Post.ID post) ->
       sqlIsPostBookmarked u p
         (store (snd (handlerUnbookmark env (url :: rest) user s))) =
       sqlIsPostBookmarked u p (store s)) /\
    base (store (snd (handlerUnbookmark env (url :: rest) user s))) =
      base (store s) /\
    feed_follows (store (snd (handlerUnbookmark env (url :: rest) user s))) =
      feed_follows (store s).
Proof.
  run_command.
  destruct (db_fault env (calls s)); cbn [store sent out calls fst snd];
    [discriminate |].
  destruct (sqlGetPostByURL url (base (store s))) as [post | err];
    cbn [store sent out calls fst snd]; [| discriminate].
  destruct (db_fault env (S (calls s))); cbn [store sent out calls fst snd];
    [discriminate |].
  intros _. exists post. split; [reflexivity |].
  unfold sqlDeleteBookmark, sqlIsPostBookmarked. cbn [base feed_follows bookmarks].
  split; [| split; [| split; reflexivity]].
  - rewrite existsb_filter. apply not_true_iff_false. intros H.
    apply existsb_exists in H. destruct H as [b [_ Hb]].
    now destruct (isBookmark (User.ID user) (Post.ID post) b).
  - intros u q Hne. rewrite existsb_filter.
    apply existsb_same. intros b. now apply other_pair_kept.
Qed.

Lemma unbookmark_removes_only_that_bookmark_witness :
  exists post,
    sqlGetPostByURL "http://a.example/2" (tables Fixtures.w1) = inl post /\
    sqlIsPostBookmarked 100%N (Post.ID post)
      (store (snd (handlerUnbookmark Fixtures.env0 ["http://a.example/2"]
                     (User.mk 100%N "kahya") Sessions.bookmarked))) = false /\
    (forall u p, (u, p) <> (100%N, Post.ID post) ->
       sqlIsPostBookmarked u p
         (store (snd (handlerUnbookmark Fixtures.env0 ["http://a.example/2"]
                        (User.mk 100%N "kahya") Sessions.bookmarked))) =
       sqlIsPostBookmarked u p (store Sessions.bookmarked)) /\
    base (store (snd (handlerUnbookmark Fixtures.env0 ["http://a.example/2"]
                        (User.mk 100%N "kahya") Sessions.bookmarked))) =
      tables Fixtures.w1 /\
    feed_follows (store (snd (handlerUnbookmark Fixtures.env0 ["http://a.example/2"]
                        (User.mk 100%N "kahya") Sessions.bookmarked))) = [].
Proof.
  apply (unbookmark_removes_only_that_bookmark Fixtures.env0
           "http://a.example/2" [] (User.mk 100%N "kahya") Sessions.bookmarked).
  reflexivity.
Defined.

(** X16.  [unbookmark] does not look whether the post was bookmarked: for a
    stored post that the caller has not bookmarked it reports the
    removal all the same, and changes nothing. *)
Theorem unbookmark_of_nothing_reports_removal
    (env : Env) (url : string) (rest : list string) (user : User.t)
    (s : Session) (post : Post.t) :
  db_fault env (calls s) = None -> db_fault env (S (calls s)) = None ->
  sqlGetPostByURL url (base (store s)) = inl post ->
  sqlIsPostBookmarked (User.ID user) (Post.ID post) (store s) = false ->
  fst (handlerUnbookmark env (url :: rest) user s) = None /\
  store (snd (handlerUnbookmark env (url :: rest) user s)) = store s /\
  out (snd (handlerUnbookmark env (url :: rest) user s)) =
    out s ++ [RemovedBookmark (Post.Title post)].
Proof.
  intros F1 F2 G I. run_command. rewrite F1, G.
  cbn [store sent out calls fst snd]. rewrite F2.
  cbn [store sent out calls fst snd].
  split; [reflexivity | split; [| reflexivity]].
  unfold sqlDeleteBookmark. unfold sqlIsPostBookmarked in I.
  rewrite (keeps_unmatched _ _ I). apply store_eta.
Qed.

Lemma unbookmark_of_nothing_reports_removal_witness :
  fst (handlerUnbookmark Fixtures.env0 ["http://a.example/2"]
         (User.mk 101%N "holgith") Sessions.bookmarked) = None /\
  store (snd (handlerUnbookmark Fixtures.env0 ["http://a.example/2"]
                (User.mk 101%N "holgith") Sessions.bookmarked)) =
    store Sessions.bookmarked /\
  out (snd (handlerUnbookmark Fixtures.env0 ["http://a.example/2"]
              (User.mk 101%N "holgith") Sessions.bookmarked)) =
    out Sessions.bookmarked ++ [RemovedBookmark "post 2"].
Proof.
  apply (unbookmark_of_nothing_reports_removal Fixtures.env0
           "http://a.example/2" [] (User.mk 101%N "holgith") Sessions.bookmarked
           (Fixtures.postOf 7%N (Fixtures.item "2"))); reflexivity.
Defined.

(** X17.  [bookmark] followed by [unbookmark] of the same URL gives back the
    tables as they were, when the post was not bookmarked before and
    both runs report no error. *)
Theorem bookmark_then_unbookmark_restores
    (env env' : Env) (url : string) (rest rest' : list string)
    (user : User.t) (s s1 : Session) (post : Post.t) :
  sqlGetPostByURL url (base (store s)) = inl post ->
  sqlIsPostBookmarked (User.ID user) (Post.ID post) (store s) = false ->
  fst (handlerBookmark env (url :: rest) user s) = None ->
  store s1 = store (snd (handlerBookmark env (url :: rest) user s)) ->
  fst (handlerUnbookmark env' (url :: rest') user s1) = None ->
  store (snd (handlerUnbookmark env' (url :: rest') user s1)) = store s.
Proof.
  intros G I Ok E Ok'.
  destruct (bookmark_succeeded env url rest user s Ok) as [post' [G' [_ [_ New]]]].
  rewrite G in G'. injection G' as <-.
  destruct (New I) as [b [Bu [Bp Es]]]. rewrite <- E in Es. clear Ok New E.
  revert Ok'. run_command. rewrite Es. cbn [base].
  destruct (db_fault env' (calls s1)); cbn [store sent out calls fst snd];
    [discriminate |].
  rewrite G. cbn [store sent out calls fst snd].
  destruct (db_fault env' (S (calls s1))); cbn [store sent out calls fst snd];
    [discriminate |].
  intros _. unfold sqlDeleteBookmark. cbn [base feed_follows bookmarks].
  rewrite filter_app. unfold sqlIsPostBookmarked in I.
  rewrite (keeps_unmatched _ _ I). simpl.
  unfold isBookmark at 1. rewrite Bu, Bp, !N.eqb_refl. simpl.
  rewrite app_nil_r. apply store_eta.
Qed.

Lemma bookmark_then_unbookmark_restores_witness :
  store (snd (handlerUnbookmark Fixtures.env0 ["http://a.example/2"]
                (User.mk 100%N "kahya") Sessions.bookmarked)) =
  mkStore (tables Fixtures.w1) [] [].
Proof.
  apply (bookmark_then_unbookmark_restores Fixtures.env0 Fixtures.env0
           "http://a.example/2" [] [] (User.mk 100%N "kahya")
           (mkSession (mkStore (tables Fixtures.w1) [] []) [] [] 0)
           Sessions.bookmarked (Fixtures.postOf 7%N (Fixtures.item "2")));
    reflexivity.
Defined.

(** X18.  A URL that no stored post has stops [bookmark] and [unbookmark]
    at the lookup: each returns the error of the lookup, has sent
    nothing else, and has printed and changed nothing. *)
Theorem unknown_url_is_refused
    (env : Env) (url : string) (rest : list string) (user : User.t) (s : Session) :
  (forall p, In p (posts (base (store s))) -> Post.Url p <> url) ->
  (exists err,
     handlerBookmark env (url :: rest) user s =
     (Some ("couldn't find post: " ++ err)%string,
      mkSession (store s) (sent s ++ [SGetPostByURL url]) (out s) (S (calls s)))) /\
  (exists err,
     handlerUnbookmark env (url :: rest) user s =
     (Some ("couldn't find post: " ++ err)%string,
      mkSession (store s) (sent s ++ [SGetPostByURL url]) (out s) (S (calls s)))).
Proof.
  intros H.
  assert (G : sqlGetPostByURL url (base (store s)) = inr errNoRows).
  { unfold sqlGetPostByURL.
    destruct (filter (hasUrl url) (posts (base (store s)))) as [| p l] eqn:E;
      [reflexivity |].
    assert (Hp : In p (filter (hasUrl url) (posts (base (store s)))))
      by (rewrite E; now left).
    apply filter_In in Hp. destruct Hp as [Hp U].
    unfold hasUrl in U. apply String.eqb_eq in U. now apply H in Hp. }
  split; run_command; rewrite G;
    destruct (db_fault env (calls s)); eexists; reflexivity.
Qed.

Lemma unknown_url_is_refused_witness :
  (exists err,
     handlerBookmark Fixtures.env0 ["http://a.example/9"]
       (User.mk 100%N "kahya") Sessions.bookmarked =
     (Some ("couldn't find post: " ++ err)%string,
      mkSession (store Sessions.bookmarked)
        (sent Sessions.bookmarked ++ [SGetPostByURL "http://a.example/9"])
        (out Sessions.bookmarked) (S (calls Sessions.bookmarked)))) /\
  (exists err,
     handlerUnbookmark Fixtures.env0 ["http://a.example/9"]
       (User.mk 100%N "kahya") Sessions.bookmarked =
     (Some ("couldn't find post: " ++ err)%string,
      mkSession (store Sessions.bookmarked)
        (sent Sessions.bookmarked ++ [SGetPostByURL "http://a.example/9"])
        (out Sessions.bookmarked) (S (calls Sessions.bookmarked)))).
Proof.
  apply (unknown_url_is_refused Fixtures.env0 "http://a.example/9" []
           (User.mk 100%N "kahya") Sessions.bookmarked).
  intros p [<- | []]. discriminate.
Defined.

End Bookmarks.

(** ** Listings and follows *)

Module Listing.
Import database cli queries.

Section Sorting.
Context {A : Type}.
Variable before : A -> A -> bool.
Hypothesis before_total : forall a b, before a b = true \/ before b a = true.
Hypothesis before_trans :
  forall a b c, before a b = true -> before b c = true -> before a c = true.

Lemma insertBy_perm x l : Permutation (insertBy before x l) (x :: l).
Proof.
  induction l as [| y l IH]; simpl; [reflexivity |].
  destruct (before x y); [reflexivity |].
  rewrite IH. apply perm_swap.
Qed.

Lemma orderBy_perm l : Permutation (orderBy before l) l.
Proof.
  induction l as [| x l IH]; simpl; [reflexivity |].
  rewrite insertBy_perm. now constructor.
Qed.

Lemma insertBy_sorted x l :
  StronglySorted (fun a b => before a b = true) l ->
  StronglySorted (fun a b => before a b = true) (insertBy before x l).
Proof.
  induction 1 as [| y l Hs IH Hall]; simpl.
  - repeat constructor.
  - destruct (before x y) eqn:E.
    + constructor; [now constructor |].
      constructor; [exact E |].
      eapply Forall_impl; [| exact Hall]. intros z. now apply before_trans.
    + constructor; [exact IH |].
      assert (Hyx : before y x = true)
        by (destruct (before_total x y); congruence).
      eapply Permutation_Forall;
        [apply Permutation_sym, insertBy_perm | now constructor].
Qed.

Lemma orderBy_sorted l :
  StronglySorted (fun a b => before a b = true) (orderBy before l).
Proof.
  induction l as [| x l IH]; simpl; [constructor | now apply insertBy_sorted].
Qed.

End Sorting.

Lemma in_firstn {A : Type} (n : nat) (l : list A) (x : A) :
  In x (firstn n l) -> In x l.
Proof.
  revert n. induction l as [| a l IH]; intros [| n]; simpl; try tauto.
  intros [H | H]; [now left | right; eauto].
Qed.

Lemma sorted_prefix {A : Type} (R : A -> A -> Prop) (n : nat) (l : list A) :
  StronglySorted R l -> StronglySorted R (firstn n l).
Proof.
  intros H. revert n. induction H as [| x l Hs IH Hall]; intros [| n]; simpl;
    try constructor; auto.
  rewrite Forall_forall in *. intros y Hy. apply Hall.
  eapply in_firstn. exact Hy.
Qed.

Ltac order_prop :=
  rewrite ?orb_true_iff, ?andb_true_iff, ?Z.ltb_lt, ?Z.eqb_eq, ?Z.leb_le in *.

Lemma newerFirst_total a b : newerFirst a b = true \/ newerFirst b a = true.
Proof.
  unfold newerFirst.
  destruct (Post.PublishedAt (PostRow.Post_ a)),
           (Post.PublishedAt (PostRow.Post_ b)); auto; order_prop; lia.
Qed.

Lemma newerFirst_trans a b c :
  newerFirst a b = true -> newerFirst b c = true -> newerFirst a c = true.
Proof.
  unfold newerFirst.
  destruct (Post.PublishedAt (PostRow.Post_ a)),
           (Post.PublishedAt (PostRow.Post_ b)),
           (Post.PublishedAt (PostRow.Post_ c));
    try discriminate; auto; order_prop; lia.
Qed.

Lemma bookmarkedLater_total a b :
  bookmarkedLater a b = true \/ bookmarkedLater b a = true.
Proof. unfold bookmarkedLater. order_prop. lia. Qed.

Lemma bookmarkedLater_trans a b c :
  bookmarkedLater a b = true -> bookmarkedLater b c = true ->
  bookmarkedLater a c = true.
Proof. unfold bookmarkedLater. order_prop. lia. Qed.

Lemma sorted_precedes {A : Type} (R : A -> A -> Prop) rows a b :
  StronglySorted R rows -> Listed.precedes rows a b -> R a b.
Proof.
  intros Srt [l1 [l2 [l3 ->]]].
  induction l1 as [| x l1 IH]; simpl in Srt; inversion Srt as [| ? ? Hs Hall]; subst.
  - rewrite Forall_forall in Hall. apply Hall.
    apply in_or_app. right. now left.
  - now apply IH.
Qed.

(** What [ORDER BY published_at DESC NULLS LAST, created_at DESC]
    gives, in words. *)
Lemma orderBy_newestFirst n l :
  Listed.newestFirst (firstn n (orderBy newerFirst l)).
Proof.
  intros a b Hab.
  assert (H : newerFirst a b = true).
  { eapply (sorted_precedes (fun a b => newerFirst a b = true)); [| exact Hab].
    apply sorted_prefix, orderBy_sorted;
      [apply newerFirst_total | apply newerFirst_trans]. }
  unfold newerFirst in H.
  destruct (Post.PublishedAt (PostRow.Post_ a)) as [x |],
           (Post.PublishedAt (PostRow.Post_ b)) as [y |];
    try discriminate; order_prop.
  - repeat split.
    + intros x' y' Ex Ey. injection Ex as <-. injection Ey as <-. lia.
    + discriminate.
    + intros E. injection E as <-. lia.
  - repeat split; discriminate.
  - repeat split; try discriminate. intros _. exact H.
Qed.

(** What [ORDER BY bookmarks.created_at DESC] gives, in words. *)
Lemma orderBy_latestBookmarkFirst n l :
  Listed.latestBookmarkFirst (firstn n (orderBy bookmarkedLater l)).
Proof.
  intros a b Hab.
  assert (H : bookmarkedLater a b = true).
  { eapply (sorted_precedes (fun a b => bookmarkedLater a b = true));
      [| exact Hab].
    apply sorted_prefix, orderBy_sorted;
      [apply bookmarkedLater_total | apply bookmarkedLater_trans]. }
  unfold bookmarkedLater in H. order_prop. exact H.
Qed.

(** The rows of the join, in words. *)
Lemma postsOfUser_spec user st row :
  In row (postsOfUser user st) <->
  exists p f ff,
    In p (posts (base st)) /\ In f (feeds (base st)) /\ In ff (feed_follows st) /\
    Post.FeedID p = Feed.ID f /\ Feed.ID f = FeedFollow.FeedID ff /\
    FeedFollow.UserID ff = user /\ row = PostRow.mk p (Feed.Name f).
Proof.
  unfold postsOfUser. rewrite in_flat_map. split.
  - intros [p [Hp H]]. apply in_flat_map in H. destruct H as [f [Hf H]].
    destruct (N.eqb_spec (Post.FeedID p) (Feed.ID f)) as [E1 |]; [| destruct H].
    apply in_flat_map in H. destruct H as [ff [Hff H]].
    destruct (N.eqb_spec (Feed.ID f) (FeedFollow.FeedID ff)) as [E2 |];
      [| destruct H].
    destruct (N.eqb_spec (FeedFollow.UserID ff) user) as [E3 |]; [| destruct H].
    destruct H as [<- | []]. exists p, f, ff. auto 8.
  - intros [p [f [ff [Hp [Hf [Hff [E1 [E2 [E3 ->]]]]]]]]].
    exists p. split; [exact Hp |]. apply in_flat_map. exists f. split; [exact Hf |].
    rewrite E1, N.eqb_refl. apply in_flat_map. exists ff. split; [exact Hff |].
    rewrite E2, E3, !N.eqb_refl. now left.
Qed.

(** X19.  What the terminal UI lists for a user, as
    [GetPostsForUser] selects it: at most [limit] rows; of two rows
    the one listed first has the later publish date, or is the one
    with a publish date, or, the publish dates being equal or both
    missing, was not stored before the other; each row is a stored
    post of a feed the user follows, named after that feed; and when
    the limit does not cut the list, every stored post of a followed
    feed is there. *)
Theorem posts_for_user_are_followed_and_newest_first
    (user : UUID) (limit : Z) (st : Store) (rows : list PostRow.t) :
  sqlGetPostsForUser user limit st = inl rows ->
  (Z.of_nat (List.length rows) <= limit) /\
  Listed.newestFirst rows /\
  (forall row, In row rows ->
     exists p f ff,
       In p (posts (base st)) /\ In f (feeds (base st)) /\
       In ff (feed_follows st) /\
       Post.FeedID p = Feed.ID f /\ Feed.ID f = FeedFollow.FeedID ff /\
       FeedFollow.UserID ff = user /\ row = PostRow.mk p (Feed.Name f)) /\
  (Z.of_nat (List.length (postsOfUser user st)) <= limit ->
   forall p f ff,
     In p (posts (base st)) -> In f (feeds (base st)) -> In ff (feed_follows st) ->
     Post.FeedID p = Feed.ID f -> Feed.ID f = FeedFollow.FeedID ff ->
     FeedFollow.UserID ff = user ->
     In (PostRow.mk p (Feed.Name f)) rows).
Proof.
  unfold sqlGetPostsForUser. destruct (Z.ltb_spec limit 0); [discriminate |].
  intros E. injection E as <-.
  pose proof (orderBy_perm newerFirst (postsOfUser user st)) as P.
  split; [| split; [| split]].
  - rewrite length_firstn. lia.
  - apply orderBy_newestFirst.
  - intros row Hrow. apply postsOfUser_spec.
    eapply Permutation_in; [exact P |]. eapply in_firstn. exact Hrow.
  - intros Hfit p f ff Hp Hf Hff E1 E2 E3.
    rewrite firstn_all2
      by (rewrite (Permutation_length P); lia).
    eapply Permutation_in; [apply Permutation_sym; exact P |].
    apply postsOfUser_spec. exists p, f, ff. auto 8.
Qed.

Lemma posts_for_user_are_followed_and_newest_first_witness :
  sqlGetPostsForUser 100%N 10 (store Sessions.reading) =
    inl [PostRow.mk Sessions.pNew "B"; PostRow.mk Sessions.pOldAgain "A";
         PostRow.mk Sessions.pOld "A"; PostRow.mk Sessions.pUndated "A"] /\
  Listed.newestFirst
    [PostRow.mk Sessions.pNew "B"; PostRow.mk Sessions.pOldAgain "A";
     PostRow.mk Sessions.pOld "A"; PostRow.mk Sessions.pUndated "A"] /\
  sqlGetPostsForUser 100%N 2 (store Sessions.reading) =
    inl [PostRow.mk Sessions.pNew "B"; PostRow.mk Sessions.pOldAgain "A"] /\
  In (PostRow.mk Sessions.pUndated "A")
     [PostRow.mk Sessions.pNew "B"; PostRow.mk Sessions.pOldAgain "A";
      PostRow.mk Sessions.pOld "A"; PostRow.mk Sessions.pUndated "A"].
Proof.
  destruct (posts_for_user_are_followed_and_newest_first 100%N 10
              (store Sessions.reading)
              [PostRow.mk Sessions.pNew "B"; PostRow.mk Sessions.pOldAgain "A";
               PostRow.mk Sessions.pOld "A"; PostRow.mk Sessions.pUndated "A"]
              eq_refl)
    as [_ [Ord [_ All]]].
  split; [reflexivity |]. split; [exact Ord |]. split; [reflexivity |].
  apply (All ltac:(simpl; lia) Sessions.pUndated Fixtures.feedA
             (FeedFollow.mk 500%N 0 0 100%N 1%N));
    simpl; auto.
Defined.

Lemma flat_map_filter {A B : Type} (g : A -> list B) (Q : A -> bool) (l : list A) :
  (forall x, In x l -> Q x = false -> g x = []) ->
  flat_map g (filter Q l) = flat_map g l.
Proof.
  induction l as [| a l IH]; simpl; intros H; [reflexivity |].
  destruct (Q a) eqn:E; simpl.
  - f_equal. apply IH. intros x Hx. apply H. now right.
  - rewrite (H a (or_introl eq_refl) E). simpl.
    apply IH. intros x Hx. apply H. now right.
Qed.

Lemma flat_map_same {A B : Type} (g h : A -> list B) (l : list A) :
  (forall x, In x l -> g x = h x) -> flat_map g l = flat_map h l.
Proof.
  induction l as [| a l IH]; simpl; intros H; [reflexivity |].
  rewrite (H a (or_introl eq_refl)). f_equal.
  apply IH. intros x Hx. apply H. now right.
Qed.

(** X20.  A run of [unfollow] that reports no error hides the feeds of that
    URL from the caller's listing and is seen by nobody else: no row
    of the caller's listing belongs to a feed with the URL, the rows
    of the caller's other feeds stay, the listing of every other user
    is as before, and so are the bookmarks of everybody. *)
Theorem unfollow_hides_only_that_feed
    (env : Env) (url : string) (rest : list string) (user : User.t) (s : Session) :
  fst (handlerUnfollow env (url :: rest) user s) = None ->
  (forall row f,
     In row (postsOfUser (User.ID user)
               (store (snd (handlerUnfollow env (url :: rest) user s)))) ->
     In f (feeds (base (store s))) ->
     Feed.ID f = Post.FeedID (PostRow.Post_ row) ->
     Feed.Url f <> url) /\
  (forall row,
     In row (postsOfUser (User.ID user) (store s)) ->
     (forall f, In f (feeds (base (store s))) ->
                Feed.ID f = Post.FeedID (PostRow.Post_ row) -> Feed.Url f <> url) ->
     In row (postsOfUser (User.ID user)
               (store (snd (handlerUnfollow env (url :: rest) user s))))) /\
  (forall u limit, u <> User.ID user ->
     sqlGetPostsForUser u limit
       (store (snd (handlerUnfollow env (url :: rest) user s))) =
     sqlGetPostsForUser u limit (store s)) /\
  (forall u limit,
     sqlGetBookmarksForUser u limit
       (store (snd (handlerUnfollow env (url :: rest) user s))) =
     sqlGetBookmarksForUser u limit (store s)) /\
  base (store (snd (handlerUnfollow env (url :: rest) user s))) = base (store s).
Proof.
  unfold handlerUnfollow, andThen, DeleteFeedFollow, exec, Println, pure.
  destruct (db_fault env (calls s)); cbn [store sent out calls fst snd];
    [discriminate |].
  intros _. unfold sqlDeleteFeedFollow.
  set (Q := fun ff => negb (followsUrl (feeds (base (store s))) (User.ID user) url ff)).
  split; [| split; [| split; [| split]]].
  - intros row f Hrow Hf Eid Eurl.
    apply postsOfUser_spec in Hrow. cbn [base feed_follows] in Hrow.
    destruct Hrow as [p [f' [ff [Hp [Hf' [Hff [E1 [E2 [E3 ->]]]]]]]]].
    apply filter_In in Hff. destruct Hff as [Hff HQ].
    unfold Q in HQ. apply negb_true_iff in HQ.
    assert (T : followsUrl (feeds (base (store s))) (User.ID user) url ff = true).
    { unfold followsUrl. apply existsb_exists. exists f. split; [exact Hf |].
      cbn [PostRow.Post_] in Eid.
      rewrite E3, Eurl, N.eqb_refl, String.eqb_refl, andb_true_r, andb_true_r.
      apply N.eqb_eq. congruence. }
    congruence.
  - intros row Hrow Hurl.
    apply postsOfUser_spec in Hrow.
    destruct Hrow as [p [f [ff [Hp [Hf [Hff [E1 [E2 [E3 ->]]]]]]]]].
    apply postsOfUser_spec. cbn [base feed_follows].
    exists p, f, ff. repeat split; auto.
    apply filter_In. split; [exact Hff |].
    unfold Q. apply negb_true_iff, not_true_iff_false. intros T.
    unfold followsUrl in T. apply existsb_exists in T.
    destruct T as [f' [Hf' T]].
    apply andb_true_iff in T. destruct T as [T Tu].
    apply andb_true_iff in T. destruct T as [Ti _].
    apply N.eqb_eq in Ti. apply String.eqb_eq in Tu.
    apply (Hurl f' Hf'); [| exact Tu]. cbn [PostRow.Post_]. congruence.
  - intros u limit Hu. unfold sqlGetPostsForUser.
    destruct (limit <? 0); [reflexivity |]. do 3 f_equal.
    unfold postsOfUser. cbn [base feed_follows].
    apply flat_map_same. intros p _. apply flat_map_same. intros f _.
    destruct (N.eqb (Post.FeedID p) (Feed.ID f)); [| reflexivity].
    apply flat_map_filter. intros ff _ HQ.
    unfold Q in HQ. apply negb_false_iff in HQ.
    unfold followsUrl in HQ. apply existsb_exists in HQ.
    destruct HQ as [f' [_ T]].
    apply andb_true_iff in T. destruct T as [T _].
    apply andb_true_iff in T. destruct T as [_ Tu]. apply N.eqb_eq in Tu.
    destruct (N.eqb_spec (FeedFollow.UserID ff) u) as [Eu |];
      [congruence | now rewrite andb_false_r].
  - reflexivity.
  - reflexivity.
Qed.

Lemma unfollow_hides_only_that_feed_witness :
  sqlGetPostsForUser 100%N 10
    (store (snd (handlerUnfollow Fixtures.env0 ["http://a.example/rss"]
                   (User.mk 100%N "kahya") Sessions.following))) = inl [] /\
  sqlGetPostsForUser 101%N 10
    (store (snd (handlerUnfollow Fixtures.env0 ["http://a.example/rss"]
                   (User.mk 100%N "kahya") Sessions.following))) =
  sqlGetPostsForUser 101%N 10 (store Sessions.following).
Proof.
  destruct (unfollow_hides_only_that_feed Fixtures.env0 "http://a.example/rss" []
              (User.mk 100%N "kahya") Sessions.following eq_refl)
    as [_ [_ [Others _]]].
  split; [reflexivity |]. apply Others. discriminate.
Defined.

Lemma bookmarksOfUser_spec user st row :
  In row (bookmarksOfUser user st) <->
  exists b p f,
    In b (bookmarks st) /\ In p (posts (base st)) /\ In f (feeds (base st)) /\
    Bookmark.UserID b = user /\ Bookmark.PostID b = Post.ID p /\
    Post.FeedID p = Feed.ID f /\
    row = BookmarkRow.mk p (Feed.Name f) (Bookmark.CreatedAt b).
Proof.
  unfold bookmarksOfUser. rewrite in_flat_map. split.
  - intros [b [Hb H]].
    destruct (N.eqb_spec (Bookmark.UserID b) user) as [E1 |]; [| destruct H].
    apply in_flat_map in H. destruct H as [p [Hp H]].
    destruct (N.eqb_spec (Bookmark.PostID b) (Post.ID p)) as [E2 |]; [| destruct H].
    apply in_flat_map in H. destruct H as [f [Hf H]].
    destruct (N.eqb_spec (Post.FeedID p) (Feed.ID f)) as [E3 |]; [| destruct H].
    destruct H as [<- | []]. exists b, p, f. auto 8.
  - intros [b [p [f [Hb [Hp [Hf [E1 [E2 [E3 ->]]]]]]]]].
    exists b. split; [exact Hb |]. rewrite E1, N.eqb_refl.
    apply in_flat_map. exists p. split; [exact Hp |]. rewrite E2, N.eqb_refl.
    apply in_flat_map. exists f. split; [exact Hf |]. rewrite E3, N.eqb_refl.
    now left.
Qed.

Lemma found_post_is_stored url d post :
  sqlGetPostByURL url d = inl post -> In post (posts d) /\ Post.Url post = url.
Proof.
  unfold sqlGetPostByURL.
  destruct (filter (hasUrl url) (posts d)) as [| p l] eqn:E; [discriminate |].
  intros H. injection H as <-.
  assert (Hp : In p (filter (hasUrl url) (posts d))) by (rewrite E; now left).
  apply filter_In in Hp. destruct Hp as [Hp U].
  split; [exact Hp |]. now apply String.eqb_eq.
Qed.

(** X21.  What [bookmarks] lists for a user, as [GetBookmarksForUser] selects
    it: at most [limit] rows; of two rows the one listed first was
    not bookmarked before the other; each row is a stored post that
    the user has bookmarked; and the two commands that change it.
    After a run of [bookmark] that reports no error the post of the
    URL is in the user's list (when its feed is stored); after a run
    of [unbookmark] that reports no error no row of the list is that
    post. *)
Theorem bookmarks_list_follows_the_commands
    (env : Env) (url : string) (rest : list string) (user : User.t)
    (s : Session) (post : Post.t) :
  sqlGetPostByURL url (base (store s)) = inl post ->
  (forall limit rows,
     sqlGetBookmarksForUser (User.ID user) limit (store s) = inl rows ->
     Z.of_nat (List.length rows) <= limit /\
     Listed.latestBookmarkFirst rows /\
     forall row, In row rows ->
       In (BookmarkRow.Post_ row) (posts (base (store s))) /\
       sqlIsPostBookmarked (User.ID user) (Post.ID (BookmarkRow.Post_ row))
         (store s) = true) /\
  (fst (handlerBookmark env (url :: rest) user s) = None ->
   forall f, In f (feeds (base (store s))) -> Post.FeedID post = Feed.ID f ->
     exists t,
       In (BookmarkRow.mk post (Feed.Name f) t)
          (bookmarksOfUser (User.ID user)
             (store (snd (handlerBookmark env (url :: rest) user s))))) /\
  (fst (handlerUnbookmark env (url :: rest) user s) = None ->
   forall row,
     In row (bookmarksOfUser (User.ID user)
               (store (snd (handlerUnbookmark env (url :: rest) user s)))) ->
     Post.ID (BookmarkRow.Post_ row) <> Post.ID post).
Proof.
  intros G. split; [| split].
  - intros limit rows. unfold sqlGetBookmarksForUser.
    destruct (Z.ltb_spec limit 0); [discriminate |].
    intros E. injection E as <-.
    pose proof (orderBy_perm bookmarkedLater
                  (bookmarksOfUser (User.ID user) (store s))) as P.
    split; [rewrite length_firstn; lia | split].
    + apply orderBy_latestBookmarkFirst.
    + intros row Hrow.
      assert (Hj : In row (bookmarksOfUser (User.ID user) (store s)))
        by (eapply Permutation_in; [exact P | eapply in_firstn; exact Hrow]).
      apply bookmarksOfUser_spec in Hj.
      destruct Hj as [b [p [f [Hb [Hp [Hf [E1 [E2 [E3 ->]]]]]]]]].
      cbn [BookmarkRow.Post_]. split; [exact Hp |].
      unfold sqlIsPostBookmarked. apply existsb_exists.
      exists b. split; [exact Hb |]. unfold isBookmark.
      now rewrite E1, E2, !N.eqb_refl.
  - intros Ok f Hf Ef.
    destruct (Bookmarks.bookmark_succeeded env url rest user s Ok)
      as [post' [G' [B [I _]]]].
    rewrite G in G'. injection G' as <-.
    unfold sqlIsPostBookmarked in I. apply existsb_exists in I.
    destruct I as [b [Hb I]]. unfold isBookmark in I.
    apply andb_true_iff in I. destruct I as [I1 I2].
    apply N.eqb_eq in I1, I2.
    exists (Bookmark.CreatedAt b). apply bookmarksOfUser_spec.
    exists b, post, f. rewrite B.
    destruct (found_post_is_stored _ _ _ G) as [Hp _]. auto 8.
  - unfold handlerUnbookmark, andThen, GetPostByURL, DeleteBookmark, exec,
      Println, pure.
    destruct (db_fault env (calls s)); cbn [store sent out calls fst snd];
      [discriminate |].
    rewrite G. cbn [store sent out calls fst snd].
    destruct (db_fault env (S (calls s))); cbn [store sent out calls fst snd];
      [discriminate |].
    intros _ row Hrow Eid. apply bookmarksOfUser_spec in Hrow.
    destruct Hrow as [b [p [f [Hb [Hp [Hf [E1 [E2 [E3 ->]]]]]]]]].
    cbn [BookmarkRow.Post_] in Eid.
    unfold sqlDeleteBookmark in Hb. cbn [bookmarks] in Hb.
    apply filter_In in Hb. destruct Hb as [_ Hb].
    unfold isBookmark in Hb.
    rewrite E1, E2, Eid, !N.eqb_refl in Hb. discriminate.
Qed.

Lemma bookmarks_list_follows_the_commands_witness :
  sqlGetBookmarksForUser 100%N 10 (store Sessions.twice) =
    inl [BookmarkRow.mk Sessions.pNew "B" 7200000009;
         BookmarkRow.mk Sessions.pOld "A" 7200000003] /\
  Listed.latestBookmarkFirst
    [BookmarkRow.mk Sessions.pNew "B" 7200000009;
     BookmarkRow.mk Sessions.pOld "A" 7200000003] /\
  (exists t,
     In (BookmarkRow.mk Sessions.pUndated "A" t)
        (bookmarksOfUser 100%N
           (store (snd (handlerBookmark Fixtures.env0 ["http://a.example/u"]
                          (User.mk 100%N "kahya") Sessions.twice))))) /\
  (forall row,
     In row (bookmarksOfUser 100%N
               (store (snd (handlerUnbookmark Fixtures.env0 ["http://a.example/o"]
                              (User.mk 100%N "kahya") Sessions.twice)))) ->
     Post.ID (BookmarkRow.Post_ row) <> 12%N).
Proof.
  destruct (bookmarks_list_follows_the_commands Fixtures.env0
              "http://a.example/u" [] (User.mk 100%N "kahya")
              Sessions.twice Sessions.pUndated eq_refl)
    as [List [Added _]].
  destruct (bookmarks_list_follows_the_commands Fixtures.env0
              "http://a.example/o" [] (User.mk 100%N "kahya")
              Sessions.twice Sessions.pOld eq_refl)
    as [_ [_ Removed]].
  destruct (List 10 [BookmarkRow.mk Sessions.pNew "B" 7200000009;
                     BookmarkRow.mk Sessions.pOld "A" 7200000003] eq_refl)
    as [_ [Ord _]].
  split; [reflexivity |]. split; [exact Ord |]. split.
  - apply (Added eq_refl Fixtures.feedA); [simpl; auto | reflexivity].
  - exact (Removed eq_refl).
Defined.

End Listing.

(** ** The arguments of [browse] *)

Module Browse.
Import GoString browse.

Lemma parseArgs_later env i j args o :
  parseArgs env (S i) args o = parseArgs env (S j) args o.
Proof.
  revert i j o. induction args as [| a args IH]; intros i j o; simpl;
    [reflexivity |].
  assert (E : parseArg env (S i) a o = parseArg env (S j) a o) by reflexivity.
  rewrite E. destruct (parseArg env (S j) a o); [apply IH | reflexivity].
Qed.

Lemma parseArg_help env i o : parseArg env i "--help" o = None.
Proof. reflexivity. Qed.

Lemma parseArgs_help env args : forall i o,
  In "--help" args -> parseArgs env i args o = None.
Proof.
  induction args as [| a args IH]; intros i o H; [destruct H |].
  simpl. destruct H as [-> | H].
  - now rewrite parseArg_help.
  - destruct (parseArg env i a o); [now apply IH | reflexivity].
Qed.

(** X22.  [--help] wins wherever it stands: [browse] prints the usage and
    returns without an error and without a query, whatever the other
    arguments are; an invalid sort option next to it is not reported. *)
Theorem browse_help_wins (env : Env) (args : list string) :
  In "--help" args -> browseArgs env args = Help.
Proof.
  intros H. unfold browseArgs. now rewrite parseArgs_help.
Qed.

Lemma browse_help_wins_witness :
  browseArgs Fixtures.env0 ["--sort=newest"; "--help"] = Help.
Proof.
  apply (browse_help_wins Fixtures.env0 ["--sort=newest"; "--help"]).
  simpl. auto.
Defined.

Lemma int32_small x : - 2 ^ 31 <= x < 2 ^ 31 -> int32 x = x.
Proof.
  intros H. unfold int32. rewrite Z.mod_small by lia. lia.
Qed.

Lemma parseArg_in_range env i arg o o' :
  (forall s l, strconv_Atoi env s = inl l -> - 2 ^ 31 <= l < 2 ^ 31) ->
  0 < limit o /\ 0 <= offset o ->
  parseArg env i arg o = Some o' ->
  0 < limit o' /\ 0 <= offset o'.
Proof.
  intros Fit [Hl Ho]. unfold parseArg.
  repeat match goal with
  | |- context [if ?b then _ else _] => destruct b eqn:?
  | |- context [match strconv_Atoi env ?s with _ => _ end] =>
    destruct (strconv_Atoi env s) as [n |] eqn:?
  end;
  try discriminate; intros E; injection E as <-; cbn [limit offset]; auto;
  rewrite int32_small by eauto;
  rewrite ?Z.ltb_lt, ?Z.leb_le in *; auto.
Qed.

Lemma parseArgs_in_range env args : forall i o o',
  (forall s l, strconv_Atoi env s = inl l -> - 2 ^ 31 <= l < 2 ^ 31) ->
  0 < limit o /\ 0 <= offset o ->
  parseArgs env i args o = Some o' ->
  0 < limit o' /\ 0 <= offset o'.
Proof.
  induction args as [| a args IH]; intros i o o' Fit Ho; simpl.
  - intros E. now injection E as <-.
  - destruct (parseArg env i a o) as [o1 |] eqn:E1; [| discriminate].
    apply IH; [exact Fit |]. eapply parseArg_in_range; eauto.
Qed.

Lemma limit_is_no_offset arg :
  hasPrefix "--limit=" arg = true -> hasPrefix "--offset=" arg = false.
Proof.
  unfold hasPrefix.
  destruct arg as [| a1 [| a2 [| a3 r]]]; try discriminate;
    cbn [String.prefix].
  - destruct (ascii_dec _ a1); discriminate.
  - destruct (ascii_dec _ a1); [| discriminate].
    destruct (ascii_dec _ a2); discriminate.
  - destruct (ascii_dec "-" a1); [| discriminate].
    destruct (ascii_dec "-" a2); [| discriminate].
    destruct (ascii_dec "l" a3) as [<- |]; [| discriminate].
    intros _. destruct (ascii_dec "o" "l"); [discriminate | reflexivity].
Qed.

(** The turn of the loop for a number it does not take: no variable
    is assigned. *)
Lemma parseArg_refused env i arg o :
  refusedNumber env i arg -> parseArg env i arg o = Some o.
Proof.
  unfold parseArg. intros [[P Bad] | [[P Bad] | [B [-> Bad]]]].
  - rewrite P.
    destruct (strconv_Atoi env (trimPrefix arg "--limit=")) as [l |];
      [| reflexivity].
    destruct (Z.ltb_spec 0 l); [| reflexivity].
    specialize (Bad l eq_refl). lia.
  - destruct (hasPrefix "--limit=" arg) eqn:L.
    + apply limit_is_no_offset in L. congruence.
    + rewrite P.
      destruct (strconv_Atoi env (trimPrefix arg "--offset=")) as [n |];
        [| reflexivity].
      destruct (Z.leb_spec 0 n); [| reflexivity].
      specialize (Bad n eq_refl). lia.
  - unfold bare in B.
    repeat (apply andb_true_iff in B; destruct B as [B ?]).
    repeat match goal with
    | E : negb ?b = true |- _ => apply negb_true_iff in E; rewrite E
    end.
    cbn [Nat.eqb].
    destruct (strconv_Atoi env arg) as [l |]; [| reflexivity].
    destruct (Z.ltb_spec 0 l); [| reflexivity].
    specialize (Bad l eq_refl). lia.
Qed.

(** X23.  When [browse] sends its query the sort option is one of the six
    the query knows, and, as long as the numbers [strconv.Atoi]
    returns fit an [int32], the limit is positive and the offset is
    not negative, whatever the arguments were.  A number the loop
    does not take (one [strconv.Atoi] fails on, a limit that is not
    positive, an offset that is negative) leaves the limit, the
    offset, the sort option and the feed filter as the arguments
    before it have set them, not as they were by default: after the
    first argument, [browse] does what it does without it. *)
Theorem browse_query_is_well_formed (env : Env) :
  (forall s l, strconv_Atoi env s = inl l -> - 2 ^ 31 <= l < 2 ^ 31) ->
  (forall args o,
     browseArgs env args = Query o ->
     In (sortBy o) validSorts /\ 0 < limit o /\ 0 <= offset o) /\
  (forall i arg o, refusedNumber env i arg -> parseArg env i arg o = Some o) /\
  (forall i arg rest o,
     refusedNumber env i arg ->
     parseArgs env i (arg :: rest) o = parseArgs env (S i) rest o) /\
  (forall first before after arg,
     refusedNumber env (S (List.length before)) arg ->
     browseArgs env (first :: before ++ arg :: after) =
     browseArgs env (first :: before ++ after)).
Proof.
  intros Fit. split; [| split; [| split]].
  - intros args o. unfold browseArgs.
    destruct (parseArgs env 0 args defaults) as [o1 |] eqn:E; [| discriminate].
    destruct (existsb (String.eqb (sortBy o1)) validSorts) eqn:V; [| discriminate].
    intros Q. injection Q as <-. split.
    + apply existsb_exists in V. destruct V as [x [Hx Ex]].
      apply String.eqb_eq in Ex. now rewrite Ex.
    + eapply parseArgs_in_range; [exact Fit | | exact E].
      simpl. lia.
  - intros i arg o. apply parseArg_refused.
  - intros i arg rest o H. cbn [parseArgs].
    now rewrite (parseArg_refused env i arg o H).
  - intros first before after arg H. unfold browseArgs. cbn [parseArgs].
    destruct (parseArg env 0 first defaults) as [o |]; [| reflexivity].
    assert (E : forall l j o',
              parseArgs env (S j) (l ++ arg :: after) o' =
              parseArgs env (S j) (l ++ after) o').
    { induction l as [| a l IH]; intros j o'; simpl.
      - assert (P : parseArg env (S j) arg o' =
                    parseArg env (S (List.length before)) arg o') by reflexivity.
        rewrite P, (parseArg_refused env _ arg o' H). apply parseArgs_later.
      - destruct (parseArg env (S j) a o'); [apply IH | reflexivity]. }
    now rewrite E.
Qed.

Lemma browse_query_is_well_formed_witness :
  browseArgs Fixtures.env0 ["--limit=3"; "--offset=3"; "--limit=x"; "--offset=-1"] =
    Query (mkOptions 3 3 "published_desc" "") /\
  (In "published_desc" validSorts /\ 0 < 3 /\ 0 <= 3) /\
  parseArg Fixtures.env0 2 "--limit=x" (mkOptions 3 3 "published_desc" "") =
    Some (mkOptions 3 3 "published_desc" "") /\
  browseArgs Fixtures.env0
    ("--limit=3" :: ["--offset=3"] ++ "--limit=x" :: ["--offset=-1"]) =
  browseArgs Fixtures.env0 ("--limit=3" :: ["--offset=3"] ++ ["--offset=-1"]).
Proof.
  destruct (browse_query_is_well_formed Fixtures.env0) as [Formed [Kept [_ Dropped]]].
  - intros s l. simpl. destruct (String.eqb s "3"); [| discriminate].
    intros E. injection E as <-. lia.
  - assert (Bad : forall i, refusedNumber Fixtures.env0 i "--limit=x").
    { intros i. left. split; [reflexivity |]. intros l. simpl. discriminate. }
    split; [reflexivity |]. split; [| split].
    + apply (Formed ["--limit=3"; "--offset=3"; "--limit=x"; "--offset=-1"]
                    (mkOptions 3 3 "published_desc" "")).
      reflexivity.
    + apply Kept, Bad.
    + apply Dropped, Bad.
Defined.

Lemma parseArg_bare env i arg o :
  bare arg = true -> parseArg env (S i) arg o = Some o.
Proof.
  unfold bare, parseArg. intros H.
  repeat (apply andb_true_iff in H; destruct H as [H ?]).
  repeat match goal with
  | E : negb ?b = true |- _ => apply negb_true_iff in E; rewrite E
  end.
  reflexivity.
Qed.

(** X24.  A number without a flag is a limit only as the first argument:
    anywhere else it, like any other argument that is no option, is
    skipped without a word, and [browse] does what it does without it. *)
Theorem browse_bare_argument_counts_only_first
    (env : Env) (first : string) (before after : list string) (arg : string) :
  bare arg = true ->
  browseArgs env (first :: before ++ arg :: after) =
  browseArgs env (first :: before ++ after).
Proof.
  intros B. unfold browseArgs. simpl.
  destruct (parseArg env 0 first defaults) as [o |]; [| reflexivity].
  assert (E : forall l i o,
            parseArgs env (S i) (l ++ arg :: after) o =
            parseArgs env (S i) (l ++ after) o).
  { induction l as [| a l IH]; intros i o'; simpl.
    - rewrite (parseArg_bare env i arg o' B). apply parseArgs_later.
    - destruct (parseArg env (S i) a o'); [apply IH | reflexivity]. }
  now rewrite E.
Qed.

Lemma browse_bare_argument_counts_only_first_witness :
  browseArgs Fixtures.env0 ("--sort=title" :: [] ++ "3" :: []) =
  browseArgs Fixtures.env0 ("--sort=title" :: [] ++ []).
Proof.
  apply (browse_bare_argument_counts_only_first Fixtures.env0 "--sort=title" [] [] "3").
  reflexivity.
Defined.

Lemma length_take n s : String.length (take n s) = Nat.min n (String.length s).
Proof.
  revert s. induction n as [| n IH]; intros [| c s]; simpl; auto.
Qed.

Lemma length_append (a b : string) :
  String.length (a ++ b) = (String.length a + String.length b)%nat.
Proof. induction a as [| c a IH]; simpl; auto. Qed.

Lemma take_append n a b :
  (n <= String.length a)%nat -> take n (a ++ b)%string = take n a.
Proof.
  revert a. induction n as [| n IH]; intros [| c a]; simpl; intros H;
    try reflexivity; try lia.
  f_equal. apply IH. lia.
Qed.

Lemma take_take n s : take n (take n s) = take n s.
Proof.
  revert s. induction n as [| n IH]; intros [| c s]; simpl; auto.
  now rewrite IH.
Qed.

Lemma drop_append n a b :
  String.length a = n -> drop n (a ++ b)%string = b.
Proof.
  revert a. induction n as [| n IH]; intros [| c a]; simpl; intros H;
    try reflexivity; try discriminate.
  apply IH. lia.
Qed.

(** X25.  A description is printed in at most [max] bytes, for the two
    pairs of numbers the listings use ([keep + 3 <= max]): a
    description of at most [max] bytes as it is; a longer one as
    [keep + 3] bytes, its first [keep] bytes and then three dots;
    clipping what was clipped changes nothing. *)
Theorem clipped_description_fits (max keep : nat) (description : string) :
  (keep + 3 <= max)%nat ->
  (String.length (clip max keep description) <= max)%nat /\
  ((String.length description <= max)%nat ->
   clip max keep description = description) /\
  ((max < String.length description)%nat ->
   String.length (clip max keep description) = (keep + 3)%nat /\
   take keep (clip max keep description) = take keep description /\
   drop keep (clip max keep description) = "..."%string) /\
  clip max keep (clip max keep description) = clip max keep description.
Proof.
  intros H. unfold clip.
  destruct (Nat.ltb_spec max (String.length description)) as [Long | Short].
  - assert (L : String.length (take keep description ++ "...") = (keep + 3)%nat).
    { rewrite length_append, length_take. simpl. lia. }
    rewrite L. split; [lia | split; [lia | split]].
    + intros _. split; [reflexivity | split].
      * rewrite take_append by (rewrite length_take; lia). apply take_take.
      * apply drop_append. rewrite length_take. lia.
    + destruct (Nat.ltb_spec max (keep + 3)); [lia | reflexivity].
  - split; [lia | split; [reflexivity | split; [lia |]]].
    destruct (Nat.ltb_spec max (String.length description)); [lia | reflexivity].
Qed.

Lemma clipped_description_fits_witness :
  String.length Fixtures.longText = 160%nat /\
  String.length (clipListed Fixtures.longText) = 150%nat /\
  take 147 (clipListed Fixtures.longText) = take 147 Fixtures.longText /\
  drop 147 (clipListed Fixtures.longText) = "..."%string /\
  clipListed (clipListed Fixtures.longText) = clipListed Fixtures.longText /\
  clipTUI "short" = "short"%string.
Proof.
  destruct (clipped_description_fits 150 147 Fixtures.longText) as [_ [_ [Long Again]]];
    [lia |].
  destruct (clipped_description_fits 100 97 "short") as [_ [Short _]]; [lia |].
  destruct Long as [Len [Head Dots]]; [vm_compute; lia |].
  split; [reflexivity |]. split; [exact Len |]. split; [exact Head |].
  split; [exact Dots |]. split; [exact Again |].
  apply Short. simpl. lia.
Defined.

End Browse.

(** ** Fetch times only grow *)

Module Times.
Import database main Fair Monotone.

Lemma notEarlier_refl a : notEarlier a a.
Proof. destruct a; simpl; [lia | exact I]. Qed.

Lemma notEarlier_trans a b c : notEarlier a b -> notEarlier b c -> notEarlier a c.
Proof. destruct a, b, c; simpl; try tauto; lia. Qed.

Lemma sameOrLater_refl d : sameOrLater d d.
Proof.
  unfold sameOrLater. induction (feeds d) as [| f l IH]; constructor; auto.
  split; [reflexivity | apply notEarlier_refl].
Qed.

Lemma sameOrLater_trans a b c :
  sameOrLater a b -> sameOrLater b c -> sameOrLater a c.
Proof.
  unfold sameOrLater. generalize (feeds a) (feeds b) (feeds c). clear.
  intros la lb lc H. revert lc.
  induction H as [| x y la lb [Hi Ht] _ IH]; intros lc H2.
  - inversion H2. constructor.
  - inversion H2 as [| ? z ? lc' [Hi' Ht'] H2']; subst. constructor.
    + split; [congruence | eapply notEarlier_trans; eauto].
    + now apply IH.
Qed.

Lemma onward_same env w w' :
  tables w' = tables w -> (seq w <= seq w')%nat -> onward env w w'.
Proof.
  intros Et Es. split; [exact Es |]. intros _ Ahead. split.
  - intros n f t Hn. rewrite Et. apply Ahead. lia.
  - rewrite Et. apply sameOrLater_refl.
Qed.

Lemma onward_trans env a b c : onward env a b -> onward env b c -> onward env a c.
Proof.
  intros [S1 H1] [S2 H2]. split; [lia |]. intros Runs Ahead.
  destruct (H1 Runs Ahead) as [A1 L1].
  destruct H2 as [A2 L2]; [intros m n Hmn; apply Runs; lia | exact A1 |].
  split; [exact A2 | eapply sameOrLater_trans; eauto].
Qed.

Lemma onward_mark env id w : onward env w (snd (MarkFeedFetched env id w)).
Proof.
  rewrite Run.MarkFeedFetched_run.
  destruct (db_fault env (seq w)); cbn [snd].
  - apply onward_same; simpl; [reflexivity | lia].
  - split; [simpl; lia |]. intros Runs Ahead. cbn [tables seq]. split.
    + intros n f t Hn Hf Et. cbn [tables seq sqlMarkFeedFetched feeds] in *.
      apply in_map_iff in Hf. destruct Hf as [g [<- Hg]].
      unfold markRow in Et. destruct (N.eqb (Feed.ID g) id).
      * cbn [Feed.LastFetchedAt] in Et. injection Et as <-. apply Runs. lia.
      * apply (Ahead n g t); [lia | exact Hg | exact Et].
    + unfold sameOrLater, sqlMarkFeedFetched. cbn [feeds].
      assert (H : forall l, (forall g, In g l -> In g (feeds (tables w))) ->
                Forall2 (fun f f' => Feed.ID f' = Feed.ID f /\
                           notEarlier (Feed.LastFetchedAt f) (Feed.LastFetchedAt f'))
                        l (map (markRow (db_now env (seq w)) id) l)).
      { induction l as [| g l IH]; intros Hl; simpl; constructor.
        - split; [apply Worker.markRow_id |].
          unfold markRow. destruct (N.eqb (Feed.ID g) id);
            [| apply notEarlier_refl].
          cbn [Feed.LastFetchedAt].
          destruct (Feed.LastFetchedAt g) as [t |] eqn:Et; simpl; [| exact I].
          assert (t < db_now env (seq w)); [| lia].
          apply (Ahead (seq w) g t); [lia | apply Hl; now left | exact Et].
        - apply IH. intros g' Hg'. apply Hl. now right. }
      apply H. auto.
Qed.

Lemma onward_create env arg w : onward env w (snd (CreatePost env arg w)).
Proof.
  rewrite Run.CreatePost_run.
  destruct (db_fault env (seq w)); cbn [snd].
  - apply onward_same; simpl; [reflexivity | lia].
  - split; [simpl; lia |]. intros _ Ahead. unfold sqlCreatePost.
    destruct (existsb _ _); cbn [snd tables seq].
    + split; [| apply sameOrLater_refl].
      intros n f t Hn. apply Ahead. simpl in Hn. lia.
    + split.
      * intros n f t Hn. cbn [feeds tables]. apply Ahead. simpl in Hn. lia.
      * unfold sameOrLater. cbn [feeds].
        apply (sameOrLater_refl (tables w)).
Qed.

Lemma onward_aggLoop env n C : steps (onward env) (aggLoop env n C).
Proof.
  apply (Goroutines.steps_aggLoop env (onward env) (fun _ => True));
    try (intros; apply onward_same; simpl; [reflexivity | lia]); auto.
  - apply onward_trans.
  - intros feed w _. apply onward_mark.
  - intros feed arg w _ _. apply onward_create.
  - intros limit w. rewrite Run.GetNextFeedsToFetch_run.
    apply onward_same; simpl; [reflexivity | lia].
Qed.

(** X26.  Fetch times only grow.  While [NOW()] runs ahead of the stored
    fetch times and grows from statement to statement, the loop keeps
    the feeds and their order, and after any number of ticks no feed
    has an earlier fetch time than it had, or none where it had one:
    this whatever the driver and the network do. *)
Theorem last_fetched_never_goes_back
    (env : Env) (n : nat) (C : Z) (w : World) :
  clockRuns env w -> clockAhead env w ->
  sameOrLater (tables w) (tables (snd (aggLoop env n C w))) /\
  clockAhead env (snd (aggLoop env n C w)).
Proof.
  intros Runs Ahead.
  destruct (onward_aggLoop env n C w) as [_ H].
  destruct (H Runs Ahead) as [A L]. split; assumption.
Qed.

Lemma last_fetched_never_goes_back_witness :
  sameOrLater (tables Fixtures.w0)
    (tables (snd (aggLoop Fixtures.envDown 2 2 Fixtures.w0))) /\
  clockAhead Fixtures.envDown (snd (aggLoop Fixtures.envDown 2 2 Fixtures.w0)).
Proof.
  apply (last_fetched_never_goes_back Fixtures.envDown 2 2 Fixtures.w0).
  - intros m k Hmk. unfold Fixtures.envDown, Fixtures.env0. cbn [db_now]. lia.
  - intros k f t _ Hf Et. simpl in Hf.
    destruct Hf as [<- | [<- | [<- | []]]];
      cbn [Feed.LastFetchedAt Fixtures.feedA Fixtures.feedB Fixtures.feedC] in Et;
      try discriminate;
      injection Et as <-; unfold Fixtures.envDown, Fixtures.env0; cbn [db_now]; lia.
Defined.

End Times.

(** ** The loop cannot get stuck *)

Module Progress.
Import database Sched Turn.

Lemma run_app t0 d C a b s :
  run t0 d C (a ++ b) s =
  match run t0 d C a s with
  | Some s' => run t0 d C b s'
  | None => None
  end.
Proof.
  revert s. induction a as [| x a IH]; intros s; simpl; [reflexivity |].
  destruct (step t0 d C x s); [apply IH | reflexivity].
Qed.

Lemma worker_eqb_refl x : worker_eqb x x = true.
Proof. unfold worker_eqb. now rewrite Nat.eqb_refl, N.eqb_refl. Qed.

(** Once the workers have returned, [wg.Wait()] returns. *)
Lemma from_waiting t0 d C : forall l s,
  pc s = Waiting -> inflight s = l -> wg s = List.length l ->
  exists acts s',
    run t0 d C acts s = Some s' /\ pc s' = Receiving /\ inflight s' = [] /\
    sameTick s s'.
Proof.
  induction l as [| [k feed] l IH]; intros s Hpc Hin Hwg.
  - exists [Join]. eexists. simpl. rewrite Hpc, Hwg. simpl.
    split; [reflexivity |]. cbn [pc inflight]. unfold sameTick. simpl. auto 6.
  - destruct (IH (mk (now s) (pc s) (turn s) (began s) (returned s)
                     (Nat.pred (wg s)) l (fired s) (buffered s)))
      as [acts [s' [R [P [I T]]]]].
    + exact Hpc.
    + reflexivity.
    + simpl. rewrite Hwg. reflexivity.
    + exists (Done k feed :: acts), s'. split; [| split; [exact P | split; [exact I | exact T]]].
      simpl. rewrite Hin. simpl. rewrite worker_eqb_refl. simpl. exact R.
Qed.

(** The [range] loop starts its workers and ends. *)
Lemma from_spawning t0 d C : forall rest s,
  pc s = Spawning rest -> wg s = List.length (inflight s) ->
  exists acts s',
    run t0 d C acts s = Some s' /\ pc s' = Receiving /\ inflight s' = [] /\
    sameTick s s'.
Proof.
  induction rest as [| feed rest IH]; intros s Hpc Hwg.
  - destruct (from_waiting t0 d C (inflight s)
                (mk (now s) Waiting (turn s) (began s) (returned s) (wg s)
                    (inflight s) (fired s) (buffered s)))
      as [acts [s' [R [P [I T]]]]]; try reflexivity; [exact Hwg |].
    exists (EndRange :: acts), s'. split; [| auto].
    simpl. rewrite Hpc. exact R.
  - destruct (IH (mk (now s) (Spawning rest) (turn s) (began s) (returned s)
                     (S (wg s)) (inflight s ++ [(turn s, feed)]) (fired s)
                     (buffered s)))
      as [acts [s' [R [P [I T]]]]].
    + reflexivity.
    + simpl. rewrite length_app, Hwg. simpl. lia.
    + exists (Go :: acts), s'. split; [| auto].
      simpl. rewrite Hpc. exact R.
Qed.

(** The receive from the ticker returns: at once when a tick is kept,
    at the next firing otherwise. *)
Lemma from_receiving t0 d C s :
  pc s = Receiving -> now s <= nextFire t0 d s ->
  exists acts s',
    run t0 d C acts s = Some s' /\ pc s' = Selecting /\
    turn s' = S (turn s) /\ inflight s' = inflight s.
Proof.
  intros Hpc Hnow. destruct (buffered s) eqn:B.
  - exists [Recv]. eexists. simpl. rewrite Hpc, B. split; [reflexivity |].
    simpl. auto.
  - exists [Pass (nextFire t0 d s - now s); Fire; Recv]. eexists.
    cbn [run]. unfold step at 1.
    replace (now s + (nextFire t0 d s - now s)) with (nextFire t0 d s) by lia.
    destruct (Z.leb_spec 0 (nextFire t0 d s - now s)); [| lia].
    rewrite Z.leb_refl. cbn [andb].
    unfold step at 1. cbn [now fired]. unfold nextFire at 1. cbn [fired].
    fold (nextFire t0 d s). rewrite Z.eqb_refl.
    unfold step. cbn [pc buffered]. rewrite Hpc.
    split; [reflexivity |]. simpl. auto.
Qed.

(** X27.  The loop cannot get stuck.  From every state it reaches, the wait
    group and the ticker let it go on to its next turn once the
    workers in flight return: there is a continuation, made of the
    workers still to start, the returns of the workers, the return of
    [wg.Wait()], at most one firing of the ticker and the receive,
    that begins the next turn with no worker in flight. *)
Theorem loop_can_always_reach_next_turn (t0 d : Z) (C : nat) (s : State) :
  0 < d ->
  reachable t0 d C s ->
  exists acts s',
    run t0 d C acts s = Some s' /\
    pc s' = Selecting /\ turn s' = S (turn s) /\ inflight s' = [].
Proof.
  intros Hd [pre Hrun].
  pose proof (Loop.run_inv t0 d C Hd pre _ _ (Loop.init_inv t0 d C Hd) Hrun) as Inv.
  destruct Inv as (Iwg & _ & _ & Iidle & Igrid & _).
  assert (Hnow : now s <= nextFire t0 d s) by (unfold nextFire; lia).
  assert (Idle : pc s = Selecting \/ pc s = Receiving -> inflight s = []).
  { intros [E | E]; rewrite E in Iidle; exact Iidle. }
  assert (Body : exists acts s1,
            run t0 d C acts s = Some s1 /\ pc s1 = Receiving /\
            inflight s1 = [] /\ sameTick s s1).
  { destruct (pc s) as [| rest | |] eqn:Hpc.
    - exists [Select []]. eexists. simpl. rewrite Hpc. simpl.
      split; [reflexivity |]. cbn [pc inflight]. unfold sameTick. simpl.
      repeat split; auto.
    - apply (from_spawning t0 d C rest s Hpc Iwg).
    - apply (from_waiting t0 d C (inflight s) s Hpc eq_refl Iwg).
    - exists [], s. simpl. unfold sameTick. repeat split; auto. }
  destruct Body as [a1 [s1 [R1 [P1 [I1 [Tn [Tf [Tt Tb]]]]]]]].
  destruct (from_receiving t0 d C s1 P1) as [a2 [s2 [R2 [P2 [T2 I2]]]]].
  { unfold nextFire in *. rewrite Tn, Tf. exact Hnow. }
  exists (a1 ++ a2), s2. rewrite run_app, R1.
  split; [exact R2 | split; [exact P2 | split; congruence]].
Qed.

Lemma loop_can_always_reach_next_turn_witness :
  exists acts s',
    run 0 10 5 acts overrunEnd = Some s' /\
    pc s' = Selecting /\ turn s' = S (turn overrunEnd) /\ inflight s' = [].
Proof.
  apply (loop_can_always_reach_next_turn 0 10 5 overrunEnd).
  - reflexivity.
  - exists overrun. vm_compute. reflexivity.
Defined.

End Progress.
